(** * Concept index of the ***plain language extension

    A shallow embedding of [preprocessor.ts] (classes [ConceptExtractor] and
    [PreprocessingService]) and of [rename_provider.ts]
    ([PlainRenameProvider.provideRenameEdits]), with the properties of the
    extraction, indexing and rename-planning code stated and proved over it.

    Conventions of the embedding.
    - A JavaScript string is a [string]; one [ascii] stands for one UTF-16
      code unit, so the development covers documents whose code units are
      below 256.  Indices and lengths are counted in code units, as in JS.
    - A JavaScript object used as a dictionary is a [gmap string _]; reads go
      through [jsGet], which also sees the members every object literal
      inherits from [Object.prototype].
    - The methods of [PreprocessingService] live in a state-and-exception
      monad [M].  A run of a method also lists the service states in which
      the method was suspended at an [await]: these are the states another
      callback of the single-threaded runtime can observe; the run itself
      describes the method when no callback changes the state meanwhile.
    - The file system and the workspace scan are taken from an environment
      [Env]. *)

From Stdlib Require Import Ascii String List ZArith Lia Bool Arith Sorted.
From stdpp Require Import gmap strings list fin_maps.

Import ListNotations.
Local Open Scope Z_scope.
Local Open Scope nat_scope.

(* ===================================================================== *)
(** ** JavaScript string primitives *)
(* ===================================================================== *)

Module Js.

(** The line feed, the separator of [content.split('\n')]. *)
Definition LF : ascii := ascii_of_nat 10.
Definition colon : ascii := ascii_of_nat 58.
Definition star : ascii := ascii_of_nat 42.
Definition comma : ascii := ascii_of_nat 44.
Definition dash : ascii := ascii_of_nat 45.

(** [\s] of a regular expression and the characters removed by [trim()]:
    TAB, LF, VT, FF, CR, SPACE and NBSP (the ones below 256). *)
Definition isWhiteSpace (c : ascii) : bool :=
  let n := nat_of_ascii c in
  (n =? 9) || (n =? 10) || (n =? 11) || (n =? 12) || (n =? 13)
  || (n =? 32) || (n =? 160).

(** The character class [[+\-\.0-9A-Z_a-z]]. *)
Definition isConceptChar (c : ascii) : bool :=
  let n := nat_of_ascii c in
  (n =? 43) || (n =? 45) || (n =? 46)
  || ((48 <=? n) && (n <=? 57))
  || ((65 <=? n) && (n <=? 90))
  || (n =? 95)
  || ((97 <=? n) && (n <=? 122)).

Definition isColon (c : ascii) : bool := Ascii.eqb c colon.
Definition isStar (c : ascii) : bool := Ascii.eqb c star.

(** [content.split('\n')]: never the empty list; a trailing line feed gives
    a last, empty line. *)
Fixpoint split_nl (s : string) : list string :=
  match s with
  | EmptyString => [EmptyString]
  | String c s' =>
      if Ascii.eqb c LF then EmptyString :: split_nl s'
      else match split_nl s' with
           | l :: ls => String c l :: ls
           | [] => [String c EmptyString]
           end
  end.

Fixpoint trimStart (s : string) : string :=
  match s with
  | EmptyString => EmptyString
  | String c s' => if isWhiteSpace c then trimStart s' else s
  end.

Fixpoint trimEnd (s : string) : string :=
  match s with
  | EmptyString => EmptyString
  | String c s' =>
      match trimEnd s' with
      | EmptyString => if isWhiteSpace c then EmptyString else String c EmptyString
      | t => String c t
      end
  end.

(** [s.trim()] *)
Definition trim (s : string) : string := trimEnd (trimStart s).

(** The longest prefix whose characters all satisfy [p], and the rest: what a
    greedy [[class]*] consumes when the next pattern item cannot start with a
    character of the class. *)
Fixpoint span (p : ascii -> bool) (s : string) : string * string :=
  match s with
  | EmptyString => (EmptyString, EmptyString)
  | String c s' =>
      if p c then let '(a, b) := span p s' in (String c a, b)
      else (EmptyString, s)
  end.

Fixpoint filterStr (p : ascii -> bool) (s : string) : string :=
  match s with
  | EmptyString => EmptyString
  | String c s' => if p c then String c (filterStr p s') else filterStr p s'
  end.

(** [s.replace(/\*/g, '')] *)
Definition removeStars (s : string) : string :=
  filterStr (fun c => negb (isStar c)) s.

Definition lowerChar (c : ascii) : ascii :=
  let n := nat_of_ascii c in
  if ((65 <=? n) && (n <=? 90))
     || ((192 <=? n) && (n <=? 222) && negb (n =? 215))
  then ascii_of_nat (n + 32) else c.

(** [s.toLowerCase()] on code units below 256. *)
Fixpoint toLowerCase (s : string) : string :=
  match s with
  | EmptyString => EmptyString
  | String c s' => String (lowerChar c) (toLowerCase s')
  end.

(** [s.slice(1, -1)]: drop the first and the last code unit. *)
Fixpoint dropLast (s : string) : string :=
  match s with
  | EmptyString => EmptyString
  | String c EmptyString => EmptyString
  | String c s' => String c (dropLast s')
  end.

Definition slice_1_m1 (s : string) : string :=
  match s with
  | EmptyString => EmptyString
  | String _ s' => dropLast s'
  end.

(** [s.startsWith(pat)] *)
Fixpoint isPrefix (pat s : string) : bool :=
  match pat with
  | EmptyString => true
  | String a pat' =>
      match s with
      | EmptyString => false
      | String b s' => Ascii.eqb a b && isPrefix pat' s'
      end
  end.

(** [s.indexOf(pat)]: the first index at which [pat] occurs, or [-1]. *)
Fixpoint indexOfFrom (pat s : string) (i : nat) : Z :=
  if isPrefix pat s then Z.of_nat i
  else match s with
       | EmptyString => (-1)%Z
       | String _ s' => indexOfFrom pat s' (S i)
       end.

Definition indexOf (s pat : string) : Z := indexOfFrom pat s 0.

(** [s.endsWith(suffix)] *)
Fixpoint endsWith (s suffix : string) : bool :=
  String.eqb s suffix
  || match s with
     | EmptyString => false
     | String _ s' => endsWith s' suffix
     end.

(** The successive matches of a global regular expression over [s], as
    produced by repeated [exec] (or by [match] with the [g] flag): [matchAt]
    tells whether the pattern matches at the start of a suffix and returns the
    matched text; the search resumes right after each match ([lastIndex]),
    which [skip] counts down.  The patterns used here match at least one
    character.  Each match comes with its index in [s]. *)
Fixpoint regexScan (matchAt : string -> option string)
         (s : string) (pos skip : nat) : list (nat * string) :=
  match s with
  | EmptyString => []
  | String _ s' =>
      match skip with
      | S k => regexScan matchAt s' (S pos) k
      | O =>
          match matchAt s with
          | Some m => (pos, m) :: regexScan matchAt s' (S pos) (String.length m - 1)
          | None => regexScan matchAt s' (S pos) 0
          end
      end
  end.

Definition matchAll (matchAt : string -> option string) (s : string)
  : list (nat * string) :=
  regexScan matchAt s 0 0.

(** [:[class]+:] at the start of [s]: the matched text and what follows it.
    The class never contains the colon, so the greedy run is the only
    candidate. *)
Definition colonToken (p : ascii -> bool) (s : string) : option (string * string) :=
  match s with
  | String c r =>
      if isColon c then
        match span p r with
        | (String a run, String d rest) =>
            if isColon d
            then Some (String colon (String a run +:+ String colon EmptyString), rest)
            else None
        | _ => None
        end
      else None
  | EmptyString => None
  end.

End Js.

(* ===================================================================== *)
(** ** The data model ([preprocessor.ts], interfaces) *)
(* ===================================================================== *)

(** [interface ConceptDefinition]; [content] and [section] are optional
    members. *)
Record ConceptDefinition : Type := mkConcept {
  concept : string;
  filePath : string;
  line : nat;
  character : Z;
  content : option string;
  section : option string
}.

(** [interface FileProcessingResult]; the path is the record's own
    [filePath] member. *)
Record FileProcessingResult : Type := mkResult {
  resultPath : string;
  definedConcepts : list ConceptDefinition;
  usedConcepts : list ConceptDefinition;
  error : option string
}.

(** [interface ConceptIndex] *)
Abbreviation ConceptIndex := (gmap string (list ConceptDefinition)).

(* ===================================================================== *)
(** ** [class ConceptExtractor] *)
(* ===================================================================== *)

Module ConceptExtractor.
Import Js.

Definition notColon (c : ascii) : bool := negb (isColon c).
Definition notStar (c : ascii) : bool := negb (isStar c).

(** [trimmedLine.match(/^\*\*\*[^*]+\*\*\*$/)] *)
Definition isSectionHeader (trimmedLine : string) : bool :=
  match trimmedLine with
  | String a (String b (String c r)) =>
      isStar a && isStar b && isStar c
      && match span notStar r with
         | (String _ _, rest) => String.eqb rest "***"
         | _ => false
         end
  | _ => false
  end.

(** [trimmedLine.replace(/\*/g, '').toLowerCase().trim()] *)
Definition sectionName (trimmedLine : string) : string :=
  trim (toLowerCase (removeStars trimmedLine)).

(** [/^\s+/.test(line)] *)
Definition hasIndentation (line : string) : bool :=
  match line with
  | String c _ => isWhiteSpace c
  | EmptyString => false
  end.

(** [conceptRegex = /:[+\-\.0-9A-Z_a-z]+:/g], tried at the start of a
    suffix. *)
Definition conceptRegexAt (s : string) : option string :=
  fst <$> colonToken isConceptChar s.

(** The body of [while ((match = conceptRegex.exec(prevSpecText)) !== null)]
    over the successive matches, [pushedConcepts] being the names already
    pushed for this text. *)
Fixpoint pushMatches (path : string) (currentLineIndex : nat)
         (prevSpecText currentSection : string)
         (ms : list (nat * string)) (pushedConcepts : list string)
  : list ConceptDefinition :=
  match ms with
  | [] => []
  | (index, m) :: ms' =>
      let conceptName := slice_1_m1 m in
      if existsb (String.eqb conceptName) pushedConcepts
      then pushMatches path currentLineIndex prevSpecText currentSection
             ms' pushedConcepts
      else
        {| concept := conceptName;
           filePath := path;
           line := currentLineIndex;
           character := Z.of_nat index;
           content := Some prevSpecText;
           section := Some currentSection |}
        :: pushMatches path currentLineIndex prevSpecText currentSection
             ms' (pushedConcepts ++ [conceptName])
  end.

Definition scanSpecText (path : string) (currentLineIndex : nat)
           (prevSpecText currentSection : string) : list ConceptDefinition :=
  pushMatches path currentLineIndex prevSpecText currentSection
    (matchAll conceptRegexAt prevSpecText) [].

(** The [for] loop of [extractConceptsFromSpecText], from line [lineIndex]
    on; the result is what the remaining iterations push to [concepts].
    Nothing follows the loop but [return concepts]. *)
Fixpoint specTextLoop (path : string) (lines : list string) (lineIndex : nat)
         (currentSection prevSpecText : string) (currentLineIndex : nat)
  : list ConceptDefinition :=
  match lines with
  | [] => []
  | line :: rest =>
      let trimmedLine := trim line in
      if isSectionHeader trimmedLine then
        specTextLoop path rest (S lineIndex)
          (sectionName trimmedLine) prevSpecText currentLineIndex
      else if hasIndentation line then
        specTextLoop path rest (S lineIndex)
          currentSection (prevSpecText +:+ line +:+ String LF EmptyString)
          currentLineIndex
      else
        let currentLineIndex := lineIndex in
        scanSpecText path currentLineIndex prevSpecText currentSection
        ++ specTextLoop path rest (S lineIndex)
             currentSection EmptyString currentLineIndex
  end.

Definition extractConceptsFromSpecText (path content : string)
  : list ConceptDefinition :=
  specTextLoop path (split_nl content) 0 EmptyString EmptyString 0.

(** The group [(?:,\s*:[^\:]+:)*] of the definition pattern: the text of the
    iterations matched at the start of [s].  Every iteration consumes at
    least four characters, so [String.length s] iterations always suffice
    ([moreTokens_fuel]). *)
Fixpoint moreTokens (fuel : nat) (s : string) : string :=
  match fuel with
  | O => EmptyString
  | S fuel' =>
      match s with
      | String c r =>
          if Ascii.eqb c comma then
            let '(ws, r1) := span isWhiteSpace r in
            match colonToken notColon r1 with
            | Some (tok, rest) =>
                String comma (ws +:+ tok +:+ moreTokens fuel' rest)
            | None => EmptyString
            end
          else EmptyString
      | EmptyString => EmptyString
      end
  end.

(** [trimmedLine.match(/^-\s(:[^\:]+:)(?:,\s*:[^\:]+:)*/)]: the whole match
    [definitionMatch[0]], if any. *)
Definition definitionMatch (trimmedLine : string) : option string :=
  match trimmedLine with
  | String d (String w r) =>
      if Ascii.eqb d dash && isWhiteSpace w then
        match colonToken notColon r with
        | Some (tok, rest) =>
            Some (String d (String w
                    (tok +:+ moreTokens (String.length rest) rest)))
        | None => None
        end
      else None
  | _ => None
  end.

(** [fullMatch.match(/:([^\:]+):/g) || []] *)
Definition conceptCandidates (fullMatch : string) : list string :=
  snd <$> matchAll (fun s => fst <$> colonToken notColon s) fullMatch.

(** [validConceptRegex.test(candidate)] with
    [validConceptRegex = /^:[+\-\.0-9A-Z_a-z]+:$/] *)
Definition validConcept (candidate : string) : bool :=
  match colonToken isConceptChar candidate with
  | Some (_, EmptyString) => true
  | _ => false
  end.

(** The [for (const candidate of conceptCandidates)] loop. *)
Fixpoint pushCandidates (path : string) (lineIndex : nat)
         (line currentSection : string) (candidates : list string)
  : list ConceptDefinition :=
  match candidates with
  | [] => []
  | candidate :: rest =>
      if validConcept candidate then
        {| concept := slice_1_m1 candidate;
           filePath := path;
           line := lineIndex;
           character := indexOf line candidate;
           content := Some line;
           section := Some currentSection |}
        :: pushCandidates path lineIndex line currentSection rest
      else pushCandidates path lineIndex line currentSection rest
  end.

(** What one line inside a definitions section pushes. *)
Definition definitionLine (path : string) (lineIndex : nat)
           (line currentSection : string) : list ConceptDefinition :=
  match definitionMatch (trim line) with
  | Some fullMatch =>
      pushCandidates path lineIndex line currentSection
        (conceptCandidates fullMatch)
  | None => []
  end.

(** The update of [inDefinitionsSection] at a section marker. *)
Definition enterSection (currentSection : string) (inDefinitionsSection : bool)
  : bool :=
  if negb (String.eqb currentSection "definitions") && inDefinitionsSection
  then false
  else String.eqb currentSection "definitions".

(** The [for] loop of [extractConceptsFromDefinitions], from line
    [lineIndex] on. *)
Fixpoint definitionsLoop (path : string) (lines : list string) (lineIndex : nat)
         (inDefinitionsSection : bool) (currentSection : string)
  : list ConceptDefinition :=
  match lines with
  | [] => []
  | line :: rest =>
      let trimmedLine := trim line in
      if isSectionHeader trimmedLine then
        let currentSection := sectionName trimmedLine in
        definitionsLoop path rest (S lineIndex)
          (enterSection currentSection inDefinitionsSection) currentSection
      else if negb inDefinitionsSection then
        definitionsLoop path rest (S lineIndex)
          inDefinitionsSection currentSection
      else
        definitionLine path lineIndex line currentSection
        ++ definitionsLoop path rest (S lineIndex)
             inDefinitionsSection currentSection
  end.

Definition extractConceptsFromDefinitions (path content : string)
  : list ConceptDefinition :=
  definitionsLoop path (split_nl content) 0 false EmptyString.

End ConceptExtractor.

(* ===================================================================== *)
(** ** Dictionaries as JavaScript objects *)
(* ===================================================================== *)

(** What [index[name]] evaluates to on an object created by [{}]: the own
    property if there is one, else a member inherited from
    [Object.prototype], else [undefined]. *)
Inductive JsValue : Type :=
| JsUndefined
| JsArray (l : list ConceptDefinition)
| JsInherited (name : string).

(** The property names of [Object.prototype]. *)
Definition objectPrototypeNames : list string :=
  [ "constructor"; "__defineGetter__"; "__defineSetter__"; "hasOwnProperty";
    "__lookupGetter__"; "__lookupSetter__"; "isPrototypeOf";
    "propertyIsEnumerable"; "toString"; "valueOf"; "__proto__";
    "toLocaleString" ].

Definition objectPrototypeHas (name : string) : bool :=
  existsb (String.eqb name) objectPrototypeNames.

Definition jsGet (index : ConceptIndex) (name : string) : JsValue :=
  match index !! name with
  | Some l => JsArray l
  | None => if objectPrototypeHas name then JsInherited name else JsUndefined
  end.

(** [value || []]: arrays, functions and objects are truthy. *)
Definition orEmptyArray (v : JsValue) : JsValue :=
  match v with
  | JsUndefined => JsArray []
  | _ => v
  end.

(** [value.length === 0]: the inherited functions [toString],
    [toLocaleString] and [valueOf] take no parameter; the other members have
    a positive [length] or none. *)
Definition lengthIsZero (v : JsValue) : bool :=
  match v with
  | JsUndefined => false
  | JsArray l => length l =? 0
  | JsInherited name =>
      existsb (String.eqb name) ["toString"; "toLocaleString"; "valueOf"]
  end.

(* ===================================================================== *)
(** ** The monad of the service methods *)
(* ===================================================================== *)

(** [class PreprocessingService], its mutable members. *)
Record PreprocessingService : Type := mkService {
  definedConceptIndex : ConceptIndex;
  usedConceptIndex : ConceptIndex;
  isIndexing : bool
}.

Inductive Completion (A : Type) : Type :=
| Normal (a : A)
| Throw (e : string).
Arguments Normal {A} a.
Arguments Throw {A} e.

(** The run of a method from a state: the states in which it was suspended
    at an [await] (where other callbacks may run), how it completed, and the
    state it left. *)
Record Run (A : Type) : Type := mkRun {
  awaited : list PreprocessingService;
  completion : Completion A;
  final : PreprocessingService
}.
Arguments mkRun {A} awaited completion final.
Arguments awaited {A} r.
Arguments completion {A} r.
Arguments final {A} r.

Definition M (A : Type) : Type := PreprocessingService -> Run A.

Definition ret {A} (a : A) : M A := fun st => mkRun [] (Normal a) st.

Definition throw {A} (e : string) : M A := fun st => mkRun [] (Throw e) st.

Definition bind {A B} (m : M A) (k : A -> M B) : M B :=
  fun st =>
    let r := m st in
    match completion r with
    | Normal a =>
        let r' := k a (final r) in
        mkRun (awaited r ++ awaited r') (completion r') (final r')
    | Throw e => mkRun (awaited r) (Throw e) (final r)
    end.

Declare Scope service_scope.
Delimit Scope service_scope with service.
Notation "'let*' x ':=' m 'in' k" := (bind m (fun x => k))
  (at level 10, x name, m at level 100, k at level 200) : service_scope.
Notation "m '>>' k" := (bind m (fun _ => k))
  (at level 100, k at level 200, right associativity) : service_scope.

Definition gets {A} (f : PreprocessingService -> A) : M A :=
  fun st => mkRun [] (Normal (f st)) st.

Definition modify (f : PreprocessingService -> PreprocessingService) : M unit :=
  fun st => mkRun [] (Normal tt) (f st).

(** [await p], for a promise that settles with [c]: the method is suspended
    in the current state, then resumes with the value or the rejection. *)
Definition await {A} (c : Completion A) : M A :=
  fun st => mkRun [st] c st.

(** [try { body } catch (error) { handler } finally { finalizer }] *)
Definition tryCatchFinally {A} (body : M A) (handler : string -> M A)
           (finalizer : M unit) : M A :=
  fun st =>
    let r := body st in
    let r' := match completion r with
              | Normal _ => r
              | Throw e =>
                  let h := handler e (final r) in
                  mkRun (awaited r ++ awaited h) (completion h) (final h)
              end in
    let f := finalizer (final r') in
    mkRun (awaited r' ++ awaited f)
          match completion f with
          | Normal _ => completion r'
          | Throw e => Throw e
          end
          (final f).

(** A [for (const x of xs)] loop. *)
Fixpoint forEach {A} (xs : list A) (body : A -> M unit) : M unit :=
  match xs with
  | [] => ret tt
  | x :: rest => bind (body x) (fun _ => forEach rest body)
  end.

(** A [for] loop that pushes the value of each iteration to a list. *)
Fixpoint collect {A B} (xs : list A) (body : A -> M B) : M (list B) :=
  match xs with
  | [] => ret []
  | x :: rest =>
      bind (body x) (fun y => bind (collect rest body) (fun ys => ret (y :: ys)))
  end.

Definition setDefinedConceptIndex (index : ConceptIndex) : M unit :=
  modify (fun st => mkService index (usedConceptIndex st) (isIndexing st)).

Definition setUsedConceptIndex (index : ConceptIndex) : M unit :=
  modify (fun st => mkService (definedConceptIndex st) index (isIndexing st)).

Definition setIsIndexing (b : bool) : M unit :=
  modify (fun st => mkService (definedConceptIndex st) (usedConceptIndex st) b).

(* ===================================================================== *)
(** ** The file system seen by the service *)
(* ===================================================================== *)

(** What the service reads from outside: [fs.readFileSync(path, 'utf8')]
    returns a text or throws, and [FileScanner.scanWorkspace()] resolves with
    the paths of the [.plain] files or rejects (a directory listing that
    throws). *)
Record Env : Type := mkEnv {
  readFileSync : string -> Completion string;
  scanWorkspace : Completion (list string)
}.

(** [ConceptExtractor.processFile]: the [try] block reads and extracts, the
    [catch] block builds the result that carries the error message. *)
Definition processFile (env : Env) (path : string) : FileProcessingResult :=
  match readFileSync env path with
  | Normal text =>
      {| resultPath := path;
         definedConcepts :=
           ConceptExtractor.extractConceptsFromDefinitions path text;
         usedConcepts :=
           ConceptExtractor.extractConceptsFromSpecText path text;
         error := None |}
  | Throw e =>
      {| resultPath := path;
         definedConcepts := [];
         usedConcepts := [];
         error := Some ("Error processing file " +:+ path +:+ ": " +:+ e) |}
  end.

(* ===================================================================== *)
(** ** [class PreprocessingService] *)
(* ===================================================================== *)

(** [if (!index[c.concept]) { index[c.concept] = []; }
     index[c.concept].push(c);] on one of the two indexes.  An inherited
    member is truthy and has no [push]: the call throws a [TypeError]. *)
Definition pushConcept (index : ConceptIndex) (c : ConceptDefinition)
  : Completion ConceptIndex :=
  match jsGet index (concept c) with
  | JsUndefined => Normal (<[concept c := [] ++ [c]]> index)
  | JsArray l => Normal (<[concept c := l ++ [c]]> index)
  | JsInherited _ => Throw "TypeError: push is not a function"
  end.

Definition pushDefined (c : ConceptDefinition) : M unit :=
  (let* index := gets definedConceptIndex in
   match pushConcept index c with
   | Normal index' => setDefinedConceptIndex index'
   | Throw e => throw e
   end)%service.

Definition pushUsed (c : ConceptDefinition) : M unit :=
  (let* index := gets usedConceptIndex in
   match pushConcept index c with
   | Normal index' => setUsedConceptIndex index'
   | Throw e => throw e
   end)%service.

(** [if (result.error)]: an absent or empty message is falsy. *)
Definition hasError (result : FileProcessingResult) : bool :=
  match error result with
  | Some (String _ _) => true
  | _ => false
  end.

(** [buildConceptIndex(results)] *)
Definition buildConceptIndex (results : list FileProcessingResult) : M unit :=
  forEach results (fun result =>
    if hasError result then ret tt
    else
      (forEach (definedConcepts result) pushDefined >>
       forEach (usedConcepts result) pushUsed)%service).

(** One iteration of a [for (const conceptName in index)] loop of
    [removeConceptsFromFile]: filter the list, then delete an empty entry.
    The loop visits own keys only, so the lookup finds the entry. *)
Definition removeStep (path : string) (index : ConceptIndex)
           (conceptName : string) : ConceptIndex :=
  match index !! conceptName with
  | Some l =>
      let kept := filter (fun c => filePath c <> path) l in
      let index' := <[conceptName := kept]> index in
      if length kept =? 0 then delete conceptName index' else index'
  | None => index
  end.

(** The [for ... in] loop over the keys enumerated when it starts. *)
Definition removeLoop (path : string) (keys : list string)
           (index : ConceptIndex) : ConceptIndex :=
  foldl (removeStep path) index keys.

Definition ownKeys (index : ConceptIndex) : list string :=
  (map_to_list index).*1.

(** [removeConceptsFromFile(filePath)] *)
Definition removeConceptsFromFile (path : string) : M unit :=
  (let* defined := gets definedConceptIndex in
   setDefinedConceptIndex (removeLoop path (ownKeys defined) defined) >>
   let* used := gets usedConceptIndex in
   setUsedConceptIndex (removeLoop path (ownKeys used) used))%service.

(** The [try] block of [rebuildIndex()]. *)
Definition rebuildTryBlock (env : Env) : M unit :=
  (let* plainFiles := await (scanWorkspace env) in
   if length plainFiles =? 0 then ret tt
   else
     let* results :=
       collect plainFiles (fun path => await (Normal (processFile env path))) in
     buildConceptIndex results)%service.

(** [rebuildIndex()]; the [catch] block only logs. *)
Definition rebuildIndex (env : Env) : M unit :=
  (let* busy := gets isIndexing in
   if busy then ret tt
   else
     setIsIndexing true >>
     setDefinedConceptIndex ∅ >>
     tryCatchFinally (rebuildTryBlock env)
                     (fun _ => ret tt)
                     (setIsIndexing false))%service.

(** [initialize()]: logs, then runs [rebuildIndex()]. *)
Definition initialize (env : Env) : M unit := rebuildIndex env.

(** [findConceptDefinition(conceptName)] and [findConceptUsage(conceptName)] *)
Definition findConceptDefinition (st : PreprocessingService) (conceptName : string)
  : JsValue :=
  orEmptyArray (jsGet (definedConceptIndex st) conceptName).

Definition findConceptUsage (st : PreprocessingService) (conceptName : string)
  : JsValue :=
  orEmptyArray (jsGet (usedConceptIndex st) conceptName).

(** [processFileUpdate(filePath)] *)
Definition processFileUpdate (env : Env) (path : string) : M unit :=
  (if negb (Js.endsWith path ".plain") then ret tt
   else
     removeConceptsFromFile path >>
     let* result := await (Normal (processFile env path)) in
     buildConceptIndex [result])%service.

(* ===================================================================== *)
(** ** [class PlainRenameProvider] *)
(* ===================================================================== *)

Module RenameProvider.

(** [vscode.Range(startLine, startCharacter, endLine, endCharacter)] *)
Record Range : Type := mkRange {
  startLine : nat;
  startCharacter : Z;
  endLine : nat;
  endCharacter : Z
}.

(** [vscode.TextEdit.replace(range, newText)] *)
Record TextEdit : Type := mkTextEdit {
  range : Range;
  newText : string
}.

(** A [vscode.WorkspaceEdit], as the calls [workspaceEdit.set(uri, edits)]
    made on it, in order; [vscode.Uri.file(filePath)] is identified with the
    path. *)
Definition WorkspaceEdit : Type := list (string * list TextEdit).

Inductive ProviderResult : Type :=
| Undefined
| Edits (w : WorkspaceEdit)
| Thrown (e : string).

(** [/^[+\-\.0-9A-Z_a-z]+$/.test(newName)] *)
Definition validName (newName : string) : bool :=
  match Js.span Js.isConceptChar newName with
  | (String _ _, EmptyString) => true
  | _ => false
  end.

(** One iteration of the grouping loop over a [Map] that keeps its keys in
    insertion order: [if (!fileGroups.has(p)) fileGroups.set(p, []);
    fileGroups.get(p).push(occurrence)]. *)
Fixpoint groupPush (fileGroups : list (string * list ConceptDefinition))
         (occurrence : ConceptDefinition)
  : list (string * list ConceptDefinition) :=
  match fileGroups with
  | [] => [(filePath occurrence, [] ++ [occurrence])]
  | (p, occurrences) :: rest =>
      if String.eqb p (filePath occurrence)
      then (p, occurrences ++ [occurrence]) :: rest
      else (p, occurrences) :: groupPush rest occurrence
  end.

Definition groupByFile (usages : list ConceptDefinition)
  : list (string * list ConceptDefinition) :=
  foldl groupPush [] usages.

(** The replacement built for one occurrence. *)
Definition renameEdit (oldName newName : string) (occurrence : ConceptDefinition)
  : TextEdit :=
  {| range := {| startLine := line occurrence;
                 startCharacter := (character occurrence + 1)%Z;
                 endLine := line occurrence;
                 endCharacter :=
                   (character occurrence + 1 + Z.of_nat (String.length oldName))%Z |};
     newText := newName |}.

Definition invalidNameMessage : string :=
  "Invalid concept name. Use only letters, numbers, dots, hyphens, plus signs, and underscores.".

(** [provideRenameEdits(document, position, newName, token)]: [word] is the
    text of [document.getWordRangeAtPosition(position)], if there is a word
    range, and [service] the optional [preprocessingService] member. *)
Definition provideRenameEdits (word : option string) (newName : string)
           (service : option PreprocessingService) : ProviderResult :=
  match word with
  | None => Undefined
  | Some oldName =>
      if negb (validName newName) then Thrown invalidNameMessage
      else
        match service with
        | None => Undefined
        | Some st =>
            let usages := findConceptUsage st oldName in
            if lengthIsZero usages then Undefined
            else
              match usages with
              | JsArray occurrences =>
                  Edits (map (fun '(p, group) =>
                                (p, map (renameEdit oldName newName) group))
                             (groupByFile occurrences))
              | _ => Thrown "TypeError: usages is not iterable"
              end
        end
  end.

End RenameProvider.


(* ===================================================================== *)
(** ** [class FileScanner] *)
(* ===================================================================== *)

Module FileScanner.

(** What [fs.readdirSync(dirPath, { withFileTypes: true })] returns: the
    entries of a directory, each a file, a directory (given with what listing
    it in turn returns or throws) or something else (a symbolic link, a
    socket: neither [isDirectory()] nor [isFile()]). *)
Inductive Dirent : Type :=
| FileEntry (name : string)
| DirEntry (name : string) (listing : Completion (list Dirent))
| OtherEntry (name : string).

Definition entryName (entry : Dirent) : string :=
  match entry with
  | FileEntry name => name
  | DirEntry name _ => name
  | OtherEntry name => name
  end.

Definition ignoreDirs : list string :=
  ["node_modules"; ".git"; "dist"; "build"; "out"; ".vscode"].

(** [shouldIgnoreDirectory(dirName)] *)
Definition shouldIgnoreDirectory (dirName : string) : bool :=
  existsb (String.eqb dirName) ignoreDirs || Js.isPrefix "." dirName.

Section Scan.

(** [path.join] of the Node library. *)
Variable pathJoin : string -> string -> string.

(** The [for (const entry of entries)] loop of [scanDirectory], given what
    one entry contributes to [files]; a throw ends the loop. *)
Definition entriesLoop (scanEntry : Dirent -> Completion (list string))
  : list Dirent -> Completion (list string) :=
  fix loop (entries : list Dirent) : Completion (list string) :=
    match entries with
    | [] => Normal []
    | entry :: rest =>
        match scanEntry entry with
        | Throw e => Throw e
        | Normal found =>
            match loop rest with
            | Throw e => Throw e
            | Normal files => Normal (found ++ files)
            end
        end
    end.

(** One iteration of that loop for the directory [dirPath]: a directory
    that is not ignored is scanned in turn ([sub] is what
    [readdirSync(fullPath)] gives), a file counts when its name ends in
    [.plain]. *)
Fixpoint scanEntry (dirPath : string) (entry : Dirent) {struct entry}
  : Completion (list string) :=
  let fullPath := pathJoin dirPath (entryName entry) in
  match entry with
  | DirEntry name sub =>
      if negb (shouldIgnoreDirectory name) then
        match sub with
        | Throw e => Throw e
        | Normal entries => entriesLoop (scanEntry fullPath) entries
        end
      else Normal []
  | FileEntry name =>
      if Js.endsWith name ".plain" then Normal [fullPath] else Normal []
  | OtherEntry _ => Normal []
  end.

(** [scanDirectory(dirPath)], [listing] being what [readdirSync(dirPath)]
    gives. *)
Definition scanDirectory (dirPath : string) (listing : Completion (list Dirent))
  : Completion (list string) :=
  match listing with
  | Throw e => Throw e
  | Normal entries => entriesLoop (scanEntry dirPath) entries
  end.

(** The [for (const folder of workspaceFolders)] loop of [scanWorkspace];
    a folder is given by its [uri.fsPath] and the listing of that path. *)
Fixpoint scanFolders (folders : list (string * Completion (list Dirent)))
  : Completion (list string) :=
  match folders with
  | [] => Normal []
  | (fsPath, listing) :: rest =>
      match scanDirectory fsPath listing with
      | Throw e => Throw e
      | Normal files =>
          match scanFolders rest with
          | Throw e => Throw e
          | Normal plainFiles => Normal (files ++ plainFiles)
          end
      end
  end.

(** [scanWorkspace()]; [None] stands for an undefined
    [vscode.workspace.workspaceFolders]. *)
Definition scanWorkspace
           (workspaceFolders : option (list (string * Completion (list Dirent))))
  : Completion (list string) :=
  match workspaceFolders with
  | None => Normal []
  | Some folders =>
      if length folders =? 0 then Normal [] else scanFolders folders
  end.

End Scan.

End FileScanner.

(* ===================================================================== *)
(** ** [class PlainDefinitionProvider] *)
(* ===================================================================== *)

Module DefinitionProvider.
Import Js ConceptExtractor.

(** [document.lineAt(i).text]; the editor throws on a line number outside
    the document. *)
Definition lineAt (lines : list string) (i : nat) : Completion string :=
  match lines !! i with
  | Some l => Normal l
  | None => Throw "Illegal value for `line`"
  end.

(** The backward loop of [isAConceptDefinition] (the same method is a
    member of [PlainHoverProvider]): from line [i] up to the first section
    marker, whose name decides; [false] when there is none. *)
Fixpoint inDefinitionsLoop (lines : list string) (i : nat) : Completion bool :=
  match lineAt lines i with
  | Throw e => Throw e
  | Normal l =>
      let lineText := trim l in
      if isSectionHeader lineText then
        Normal (String.eqb (sectionName lineText) "definitions")
      else
        match i with
        | O => Normal false
        | S i' => inDefinitionsLoop lines i'
        end
  end.

(** [isAConceptDefinition(document, position, word)]; note that the
    definition pattern is matched against the line as it is, not
    trimmed. *)
Definition isAConceptDefinition (lines : list string) (positionLine : nat)
           (word : string) : Completion bool :=
  match inDefinitionsLoop lines positionLine with
  | Throw e => Throw e
  | Normal false => Normal false
  | Normal true =>
      match lineAt lines positionLine with
      | Throw e => Throw e
      | Normal currentLine =>
          match definitionMatch currentLine with
          | Some fullMatch =>
              Normal (existsb (fun conceptCandidate =>
                                 String.eqb (slice_1_m1 conceptCandidate) word)
                              (conceptCandidates fullMatch))
          | None => Normal false
          end
      end
  end.

(** How a loop body ends: it goes on with a state, or the method returns. *)
Inductive LoopExit (S R : Type) : Type :=
| Continue (s : S)
| Return (r : R).
Arguments Continue {S R} s.
Arguments Return {S R} r.

(** The first loop of [isInFrontmatter], [for (let i = 0; i <=
    position.line; i++)], with [steps] iterations left. *)
Fixpoint openingLoop (lines : list string) (positionLine i steps : nat)
         (inFrontmatter : bool) (frontmatterStart : Z)
  : Completion (LoopExit (bool * Z) bool) :=
  match steps with
  | O => Normal (Continue (inFrontmatter, frontmatterStart))
  | S steps' =>
      match lineAt lines i with
      | Throw e => Throw e
      | Normal l =>
          if String.eqb (trim l) "---" then
            if (frontmatterStart =? -1)%Z then
              openingLoop lines positionLine (S i) steps' true (Z.of_nat i)
            else if positionLine <? i then Normal (Return inFrontmatter)
            else Normal (Return false)
          else
            openingLoop lines positionLine (S i) steps'
              inFrontmatter frontmatterStart
      end
  end.

(** The second loop, over the lines after the position up to
    [document.lineCount]. *)
Fixpoint closingLoop (rest : list string) : bool :=
  match rest with
  | [] => false
  | l :: rest' => if String.eqb (trim l) "---" then true else closingLoop rest'
  end.

(** [isInFrontmatter(document, position)] *)
Definition isInFrontmatter (lines : list string) (positionLine : nat)
  : Completion bool :=
  match openingLoop lines positionLine 0 (S positionLine) false (-1) with
  | Throw e => Throw e
  | Normal (Return r) => Normal r
  | Normal (Continue (inFrontmatter, frontmatterStart)) =>
      if inFrontmatter && negb (frontmatterStart =? -1)%Z
      then Normal (closingLoop (drop (S positionLine) lines))
      else Normal false
  end.

Definition frontmatterKeys : list string :=
  ["import"; "requires"; "description"; "required_concepts"; "exported_concepts"].

(** [lineText.match(/^(import|requires|description|required_concepts|exported_concepts):/)]:
    the key captured, if any. *)
Definition frontmatterKey (lineText : string) : option string :=
  find (fun key => isPrefix (key +:+ ":") lineText) frontmatterKeys.

(** The backward loop of [isInImportOrRequires]: the value of
    [currentSection] when it ends. *)
Fixpoint currentKeyLoop (lines : list string) (i : nat) : Completion string :=
  match lineAt lines i with
  | Throw e => Throw e
  | Normal l =>
      let lineText := trim l in
      if String.eqb lineText "---" then Normal EmptyString
      else
        match frontmatterKey lineText with
        | Some key => Normal key
        | None =>
            match i with
            | O => Normal EmptyString
            | S i' => currentKeyLoop lines i'
            end
        end
  end.

(** [isInImportOrRequires(document, position)] *)
Definition isInImportOrRequires (lines : list string) (positionLine : nat)
  : Completion bool :=
  match currentKeyLoop lines positionLine with
  | Throw e => Throw e
  | Normal currentSection =>
      Normal (String.eqb currentSection "import"
              || String.eqb currentSection "requires")
  end.

Definition isIdentifierStart (c : ascii) : bool :=
  let n := nat_of_ascii c in
  ((97 <=? n) && (n <=? 122)) || ((65 <=? n) && (n <=? 90)) || (n =? 95).

Definition isIdentifierChar (c : ascii) : bool :=
  isIdentifierStart c || ((48 <=? nat_of_ascii c) && (nat_of_ascii c <=? 57)).

(** [isPlainFileReference(word)]: [/^[a-zA-Z_][a-zA-Z0-9_]*$/.test(word)] *)
Definition isPlainFileReference (word : string) : bool :=
  match word with
  | String c rest =>
      isIdentifierStart c
      && match span isIdentifierChar rest with
         | (_, EmptyString) => true
         | _ => false
         end
  | EmptyString => false
  end.

(** A location handed to the editor: [vscode.Location(vscode.Uri.file(path),
    vscode.Position(line, character))]. *)
Record Location : Type := mkLocation {
  locationPath : string;
  locationLine : nat;
  locationCharacter : Z
}.

Inductive DefinitionResult : Type :=
| NoDefinition
| Locations (ls : list Location)
| FileLocation (l : Location)
| DefinitionThrown (e : string).

Section Provider.

(** [path.dirname], [path.join] and [fs.existsSync] of the Node library,
    and the constructor parameters [searchPaths] and [fileExtension]. *)
Variable pathDirname : string -> string.
Variable pathJoin : string -> string -> string.
Variable existsSync : string -> bool.
Variable searchPaths : list string.
Variable fileExtension : string.

(** The [for (const searchPath of this.searchPaths)] loop of
    [findPlainFile]. *)
Fixpoint searchLoop (currentDir targetFileName : string) (paths : list string)
  : option string :=
  match paths with
  | [] => None
  | searchPath :: rest =>
      let searchFolder := pathJoin currentDir searchPath in
      let targetPath := pathJoin searchFolder targetFileName in
      if existsSync targetPath then Some targetPath
      else searchLoop currentDir targetFileName rest
  end.

(** [findPlainFile(currentUri, identifier)], [fsPath] being
    [currentUri.fsPath]. *)
Definition findPlainFile (fsPath identifier : string) : option string :=
  let currentDir := pathDirname fsPath in
  let targetFileName := identifier +:+ fileExtension in
  let targetPath := pathJoin currentDir targetFileName in
  if existsSync targetPath then Some targetPath
  else searchLoop currentDir targetFileName searchPaths.

(** [conceptDefinitions.length > 0]: an inherited function with at least
    one parameter has a positive [length]. *)
Definition lengthIsPositive (v : JsValue) : bool :=
  match v with
  | JsUndefined => false
  | JsArray l => 0 <? length l
  | JsInherited name =>
      negb (existsb (String.eqb name)
                    ["toString"; "toLocaleString"; "valueOf"; "__proto__"])
  end.

Definition locationOf (c : ConceptDefinition) : Location :=
  mkLocation (filePath c) (line c) (character c).

(** The lookup in imported files that [provideDefinition] falls back to. *)
Definition fileLookup (fsPath : string) (lines : list string)
           (positionLine : nat) (word : string) : DefinitionResult :=
  match isInFrontmatter lines positionLine with
  | Throw e => DefinitionThrown e
  | Normal false => NoDefinition
  | Normal true =>
      match isInImportOrRequires lines positionLine with
      | Throw e => DefinitionThrown e
      | Normal false => NoDefinition
      | Normal true =>
          if negb (isPlainFileReference word) then NoDefinition
          else
            match findPlainFile fsPath word with
            | None => NoDefinition
            | Some targetFilePath =>
                FileLocation (mkLocation targetFilePath 0 0)
            end
      end
  end.

(** [provideDefinition(document, position, token)]: [fsPath] is
    [document.uri.fsPath], [lines] the lines of the document, [word] the text
    of the word range at the position, if there is one. *)
Definition provideDefinition (fsPath : string) (lines : list string)
           (positionLine : nat) (word : option string)
           (service : option PreprocessingService) : DefinitionResult :=
  match word with
  | None => NoDefinition
  | Some word =>
      match service with
      | Some st =>
          match isAConceptDefinition lines positionLine word with
          | Throw e => DefinitionThrown e
          | Normal isDefinition =>
              let conceptDefinitions :=
                if isDefinition then findConceptUsage st word
                else findConceptDefinition st word in
              if lengthIsPositive conceptDefinitions then
                match conceptDefinitions with
                | JsArray cs => Locations (map locationOf cs)
                | _ => DefinitionThrown "TypeError: map is not a function"
                end
              else fileLookup fsPath lines positionLine word
          end
      | None => fileLookup fsPath lines positionLine word
      end
  end.

End Provider.

End DefinitionProvider.

(* ===================================================================== *)
(** ** [PlainRenameProvider.prepareRename] *)
(* ===================================================================== *)

Module PrepareRename.

Inductive PrepareResult : Type :=
| Placeholder (word : string)
| Rejected (e : string).

(** [prepareRename(document, position, token)]: the result carries the word
    range, which is the one of [word], and the placeholder. *)
Definition prepareRename (word : option string)
           (service : option PreprocessingService) : PrepareResult :=
  match word with
  | None => Rejected "No symbol found at this position"
  | Some word =>
      match service with
      | None => Rejected "Preprocessing service not available"
      | Some st =>
          let definitions := findConceptDefinition st word in
          let usages := findConceptUsage st word in
          if lengthIsZero definitions && lengthIsZero usages
          then Rejected ("No concept found with name '" +:+ word +:+ "'")
          else Placeholder word
      end
  end.

End PrepareRename.
(* ===================================================================== *)
(** ** Specification vocabulary *)
(* ===================================================================== *)

(** The occurrences of a list that do not belong to the document [path]. *)
Definition keptOccurrences (path : string) (l : list ConceptDefinition)
  : list ConceptDefinition :=
  filter (fun c => filePath c <> path) l.

(** What becomes of an entry when the contributions of [path] are removed:
    the key is dropped when nothing is left. *)
Definition purgeEntry (path : string) (l : list ConceptDefinition)
  : option (list ConceptDefinition) :=
  match keptOccurrences path l with
  | [] => None
  | kept => Some kept
  end.

(** A method that is never suspended and keeps a relation between the
    state it starts from and the state it ends in. *)
Definition Steady (R : relation PreprocessingService) {A} (m : M A) : Prop :=
  forall st, awaited (m st) = [] /\ R st (final (m st)).

(** The busy flag is the same in both states. *)
Definition sameFlag : relation PreprocessingService :=
  fun st st' => isIndexing st' = isIndexing st.

(** The state in which a rebuild works: the flag is set and the
    definitions index has been reset. *)
Definition rebuildStart (st : PreprocessingService) : PreprocessingService :=
  mkService ∅ (usedConceptIndex st) true.

(** The state after the [finally] block of a rebuild. *)
Definition released (st : PreprocessingService) : PreprocessingService :=
  mkService (definedConceptIndex st) (usedConceptIndex st) false.

(** The documents found by the scan, none when the scan fails. *)
Definition scannedFiles (env : Env) : list string :=
  match scanWorkspace env with
  | Normal paths => paths
  | Throw _ => []
  end.

(** The same file system with another result of the workspace scan. *)
Definition withFiles (env : Env) (paths : list string) : Env :=
  mkEnv (readFileSync env) (Normal paths).

(** No name is bound to an empty list, in either index. *)
Definition noEmptyEntries (st : PreprocessingService) : Prop :=
  (forall k, definedConceptIndex st !! k <> Some [])
  /\ (forall k, usedConceptIndex st !! k <> Some []).

(** A step keeps that property. *)
Definition noEmptyKept : relation PreprocessingService :=
  fun st st' => noEmptyEntries st -> noEmptyEntries st'.

(** The usages index only grows: every list is extended at its end. *)
Definition usagesExtended : relation PreprocessingService :=
  fun st st' =>
    forall k l, usedConceptIndex st !! k = Some l ->
                exists l', usedConceptIndex st' !! k = Some (l ++ l').

(** *** Scenarios *)

(** A line feed, and the service before its first rebuild. *)
Definition nl : string := String Js.LF EmptyString.

Definition emptyService : PreprocessingService := mkService ∅ ∅ false.

(** A workspace with one document; its definition line is indented, so that
    usage extraction sees it. *)
Definition glossaryPath : string := "/w/glossary.plain".

Definition glossaryText : string :=
  "***definitions***" +:+ nl +:+ "  - :a:" +:+ nl.

Definition glossaryEnv : Env :=
  mkEnv (fun p => if String.eqb p glossaryPath then Normal glossaryText
                  else Throw "ENOENT")
        (Normal [glossaryPath]).

Definition glossaryDefinition : ConceptDefinition :=
  mkConcept "a" glossaryPath 1 4 (Some "  - :a:") (Some "definitions").

Definition glossaryUsage : ConceptDefinition :=
  mkConcept "a" glossaryPath 2 4 (Some ("  - :a:" +:+ nl)) (Some "definitions").

(** The workspace after the document has been deleted. *)
Definition emptiedEnv : Env := mkEnv (fun _ => Throw "ENOENT") (Normal []).

(** A workspace whose scan fails, and one with a document that mentions a
    concept named like a member of [Object.prototype]. *)
Definition unreadableEnv : Env := mkEnv (fun _ => Throw "ENOENT") (Throw "EACCES").

Definition clashEnv : Env :=
  mkEnv (fun _ => Normal ("x" +:+ nl +:+ "  :b: :toString:" +:+ nl +:+ "y"))
        (Normal ["/w/clash.plain"]).

(** *** Rename plans *)

(** Every character of [s] satisfies [p]. *)
Fixpoint allChars (p : ascii -> bool) (s : string) : bool :=
  match s with
  | EmptyString => true
  | String c s' => p c && allChars p s'
  end.

(** No character of the name lies outside the alphabet [[A-Za-z0-9_.+-]]. *)
Definition inAlphabet (name : string) : bool := allChars Js.isConceptChar name.

(** The replacement of the claim: on the line of the occurrence, from one
    character after its column, over the length of the old name. *)
Definition replacement (oldName newName : string) (u : ConceptDefinition)
  : RenameProvider.TextEdit :=
  RenameProvider.mkTextEdit
    (RenameProvider.mkRange (line u) (character u + 1)
                            (line u)
                            (character u + 1 + Z.of_nat (String.length oldName)))
    newName.

(** The occurrences of a list that belong to the document [path]. *)
Definition occurrencesIn (path : string) (us : list ConceptDefinition)
  : list ConceptDefinition :=
  filter (fun u => filePath u = path) us.

(** [groups] is the grouping of [us] by document: one group per document
    that occurs, holding the occurrences of that document in order. *)
Definition Grouped (groups : list (string * list ConceptDefinition))
           (us : list ConceptDefinition) : Prop :=
  NoDup groups.*1
  /\ (forall u, u ∈ us -> filePath u ∈ groups.*1)
  /\ (forall p g, (p, g) ∈ groups -> g = occurrencesIn p us /\ g <> []).

(** The usage of [foo] of the rename example: line 2, column 5 of
    document X. *)
Definition fooUsage : ConceptDefinition :=
  mkConcept "foo" "/w/x.plain" 2 5 (Some ("  see :foo:" +:+ nl)) (Some "").

Definition fooService : PreprocessingService :=
  mkService ∅ {[ "foo" := [fooUsage] ]} false.

(** *** Documents *)

(** An anchor line with a token, one indented line with another token, and
    a closing unindented line. *)
Definition blockText : string :=
  "x :a:" +:+ nl +:+ "  y :b:" +:+ nl +:+ "z".

(** A definitions section with one unindented list item. *)
Definition definitionsText : string :=
  "***definitions***" +:+ nl +:+ "- :a:, :b:" +:+ nl.

(** A document that ends in an indented line, without a final line feed. *)
Definition trailingText : string := "x" +:+ nl +:+ "  :a:".

(** The document of the widget example. *)
Definition widgetText : string :=
  "***definitions***" +:+ nl +:+ "- :widget:" +:+ nl
  +:+ "  A :widget: has a :color:.".

(** A line that is neither a section marker nor indented: the only kind of
    line at which [extractConceptsFromSpecText] scans the accumulated
    text. *)
Definition closesBlock (l : string) : bool :=
  negb (ConceptExtractor.isSectionHeader (Js.trim l))
  && negb (ConceptExtractor.hasIndentation l).

(** The lines [ls], each followed by a line feed. *)
Definition joinLines (ls : list string) : string :=
  foldr (fun l acc => l +:+ nl +:+ acc) EmptyString ls.

(** A text made of indented lines only. *)
Definition indentedText (text : string) : Prop :=
  exists ls, Forall (fun l => ConceptExtractor.hasIndentation l = true) ls
             /\ text = joinLines ls.

(** The state of the loop of [extractConceptsFromDefinitions] after the
    lines [lines], started with [inDefinitionsSection] and
    [currentSection]. *)
Fixpoint sectionStateAfter (lines : list string) (inDefinitionsSection : bool)
         (currentSection : string) : bool * string :=
  match lines with
  | [] => (inDefinitionsSection, currentSection)
  | l :: rest =>
      if ConceptExtractor.isSectionHeader (Js.trim l) then
        sectionStateAfter rest
          (ConceptExtractor.enterSection
             (ConceptExtractor.sectionName (Js.trim l)) inDefinitionsSection)
          (ConceptExtractor.sectionName (Js.trim l))
      else sectionStateAfter rest inDefinitionsSection currentSection
  end.

(** The line that follows [lines] in a document lies in a definitions
    section. *)
Definition inDefinitionsAfter (lines : list string) : bool :=
  fst (sectionStateAfter lines false EmptyString).

(** The suffix of [s] from index [k]. *)
Fixpoint dropStr (k : nat) (s : string) : string :=
  match k, s with
  | O, _ => s
  | S k', String _ s' => dropStr k' s'
  | S _, EmptyString => EmptyString
  end.

(** [pat] occurs in [s] at index [k]. *)
Definition occursAt (pat s : string) (k : nat) : bool :=
  Js.isPrefix pat (dropStr k s).

(** [z] is the index of the first occurrence of [pat] in [s]. *)
Definition firstOccurrence (pat s : string) (z : Z) : Prop :=
  exists k, z = Z.of_nat k
            /\ occursAt pat s k = true
            /\ forall j, j < k -> occursAt pat s j = false.

(** The text of the token of a concept name. *)
Definition tokenOf (name : string) : string :=
  String Js.colon (name +:+ String Js.colon EmptyString).

(** The occurrences recorded for line [n]. *)
Definition atLine (n : nat) (os : list ConceptDefinition)
  : list ConceptDefinition :=
  filter (fun o => line o = n) os.

(** *** Definition lines *)

(** A concept name: a non-empty word over the alphabet. *)
Definition isConceptName (name : string) : bool :=
  negb (String.eqb name EmptyString) && inAlphabet name.

(** The list item [- :name:, :n1:, :n2:, ...]. *)
Definition itemTail (names : list string) : string :=
  fold_right (fun n acc => ", " +:+ tokenOf n +:+ acc) EmptyString names.

Definition listItem (name : string) (names : list string) : string :=
  "- " +:+ tokenOf name +:+ itemTail names.

(** The definition occurrence recorded for a name found on a line. *)
Definition definitionOf (path : string) (lineIndex : nat) (l currentSection name : string)
  : ConceptDefinition :=
  mkConcept name path lineIndex (Js.indexOf l (tokenOf name))
            (Some l) (Some currentSection).

(** A definitions section whose single list item names [a] twice, and one
    with two list items that name [a]. *)
Definition repeatedText : string :=
  "***definitions***" +:+ nl +:+ "- :a:, :a:".

Definition twoItemsText : string :=
  "***definitions***" +:+ nl +:+ "- :a:" +:+ nl +:+ "- :a:".


(** *** Folding results into the index *)

(** The list a name is bound to, empty when the name is not a key. *)
Definition entriesOf (index : ConceptIndex) (name : string)
  : list ConceptDefinition :=
  default [] (index !! name).

(** The occurrences of a list that carry the name. *)
Definition named (name : string) (cs : list ConceptDefinition)
  : list ConceptDefinition :=
  filter (fun c => concept c = name) cs.

(** The occurrence is added at the end of the list of its name. *)
Definition appendConcept (index : ConceptIndex) (c : ConceptDefinition)
  : ConceptIndex :=
  <[concept c := entriesOf index (concept c) ++ [c]]> index.

(** The results that carry no error, and the occurrences they hold. *)
Definition readable (results : list FileProcessingResult)
  : list FileProcessingResult :=
  filter (fun r => hasError r = false) results.

Definition allDefined (results : list FileProcessingResult)
  : list ConceptDefinition :=
  concat (map definedConcepts (readable results)).

Definition allUsed (results : list FileProcessingResult)
  : list ConceptDefinition :=
  concat (map usedConcepts (readable results)).

(** No occurrence is named like a member of [Object.prototype]. *)
Definition noCollision (cs : list ConceptDefinition) : Prop :=
  Forall (fun c => objectPrototypeHas (concept c) = false) cs.

(** The results of the documents a rebuild scans. *)
Definition scannedResults (env : Env) : list FileProcessingResult :=
  map (processFile env) (scannedFiles env).

(** Every occurrence of an index is filed under its own name. *)
Definition wellKeyedIndex (index : ConceptIndex) : Prop :=
  forall k l, index !! k = Some l -> Forall (fun c => concept c = k) l.

Definition wellKeyed (st : PreprocessingService) : Prop :=
  wellKeyedIndex (definedConceptIndex st) /\ wellKeyedIndex (usedConceptIndex st).

(** The invariant of the two indexes. *)
Definition indexInvariant (st : PreprocessingService) : Prop :=
  noEmptyEntries st /\ wellKeyed st.

Definition invariantKept : relation PreprocessingService :=
  fun st st' => indexInvariant st -> indexInvariant st'.

(** The states the service reaches from its initial state by rebuilds and
    updates that run one after the other. *)
Inductive Reachable : PreprocessingService -> Prop :=
| reach_initial : Reachable (mkService ∅ ∅ false)
| reach_rebuild env st :
    Reachable st -> Reachable (final (rebuildIndex env st))
| reach_update env path st :
    Reachable st -> Reachable (final (processFileUpdate env path st)).

(** *** The workspace scan *)

(** A listing that the scan cannot complete: it throws, or a directory
    below it that is not ignored does. *)
Inductive Unreadable : Completion (list FileScanner.Dirent) -> Prop :=
| unreadable_here e : Unreadable (Throw e)
| unreadable_below entries name sub :
    FileScanner.DirEntry name sub ∈ entries ->
    FileScanner.shouldIgnoreDirectory name = false ->
    Unreadable sub ->
    Unreadable (Normal entries).

(** The environment of a service whose scanner works on [folders]. *)
Definition scanEnv (pathJoin : string -> string -> string)
           (folders : option (list (string * Completion (list FileScanner.Dirent))))
           (read : string -> Completion string) : Env :=
  mkEnv read (FileScanner.scanWorkspace pathJoin folders).

(** A join of paths in the manner of POSIX, for directories given without
    a final separator. *)
Definition posixJoin (dir name : string) : string := dir +:+ "/" +:+ name.

(** *** Positions *)

(** The text of a line between the columns of a range that lies on one
    line. *)
Definition textInRange (r : RenameProvider.Range) (l : string) : string :=
  String.substring (Z.to_nat (RenameProvider.startCharacter r))
                   (Z.to_nat (RenameProvider.endCharacter r
                              - RenameProvider.startCharacter r))
                   l.

(** The number of [---] lines among [lines]. *)
Definition countDashes (lines : list string) : nat :=
  length (filter (fun l => Js.trim l = "---") lines).

(** *** Names of [Object.prototype] *)

(** No member of [Object.prototype] is shadowed by an own key. *)
Definition noInheritedKeys (index : ConceptIndex) : Prop :=
  forall k, objectPrototypeHas k = true -> index !! k = None.

Definition ownNamesOnly (st : PreprocessingService) : Prop :=
  noInheritedKeys (definedConceptIndex st)
  /\ noInheritedKeys (usedConceptIndex st).

Definition ownNamesKept : relation PreprocessingService :=
  fun st st' => ownNamesOnly st -> ownNamesOnly st'.

(** *** File references *)

(** The paths [findPlainFile] tries, in order: the directory of the
    document, then each search path below it. *)
Definition searchCandidates (pathDirname : string -> string)
           (pathJoin : string -> string -> string)
           (searchPaths : list string) (fileExtension : string)
           (fsPath identifier : string) : list string :=
  let currentDir := pathDirname fsPath in
  let targetFileName := identifier +:+ fileExtension in
  pathJoin currentDir targetFileName
  :: map (fun searchPath => pathJoin (pathJoin currentDir searchPath) targetFileName)
         searchPaths.
(* ===================================================================== *)
(** ** Strings *)
(* ===================================================================== *)

Section Strings.
Import Js.

Lemma append_cons c a b : String c a +:+ b = String c (a +:+ b).
Proof. reflexivity. Qed.

Lemma append_nil_r s : s +:+ EmptyString = s.
Proof. induction s as [|c s IH]; [done | rewrite append_cons; congruence]. Qed.

Lemma append_assoc a b c : (a +:+ b) +:+ c = a +:+ b +:+ c.
Proof. induction a as [|x a IH]; [done | rewrite !append_cons; congruence]. Qed.

Lemma prefix_cons c a b :
  Js.isPrefix (String c a) (String c b) = Js.isPrefix a b.
Proof. simpl. by rewrite Ascii.eqb_refl. Qed.

Lemma prefix_app a b : Js.isPrefix a (a +:+ b) = true.
Proof.
  induction a as [|c a IH]; [reflexivity|].
  by rewrite append_cons, prefix_cons.
Qed.

Lemma prefix_refl a : Js.isPrefix a a = true.
Proof. rewrite <- (append_nil_r a) at 2. apply prefix_app. Qed.

Lemma prefix_split a s : Js.isPrefix a s = true -> exists b, s = a +:+ b.
Proof.
  revert s. induction a as [|c a IH]; intros s H; [by exists s|].
  destruct s as [|d s]; [done|]. simpl in H.
  apply andb_true_iff in H as [->%Ascii.eqb_eq H].
  destruct (IH s H) as [b ->]. by exists b.
Qed.

Lemma prefix_trans a b c :
  Js.isPrefix a b = true -> Js.isPrefix b c = true -> Js.isPrefix a c = true.
Proof.
  intros [x ->]%prefix_split [y ->]%prefix_split.
  rewrite append_assoc. apply prefix_app.
Qed.

Lemma dropStr_empty k : dropStr k EmptyString = EmptyString.
Proof. by destruct k. Qed.

Lemma dropStr_add k k' s : dropStr k' (dropStr k s) = dropStr (k + k') s.
Proof.
  revert s. induction k as [|k IH]; intros s; [done|].
  destruct s as [|c s]; simpl; [apply dropStr_empty | apply IH].
Qed.

Lemma dropStr_prefix k a b :
  Js.isPrefix a b = true -> Js.isPrefix (dropStr k a) (dropStr k b) = true.
Proof.
  revert a b. induction k as [|k IH]; intros a b H; [done|].
  destruct a as [|c a]; [done|]. destruct b as [|d b]; [done|].
  simpl in H. apply andb_true_iff in H as [_ H]. simpl. by apply IH.
Qed.

Lemma occursAt_prefix pat a b k :
  Js.isPrefix a b = true -> occursAt pat a k = true -> occursAt pat b k = true.
Proof.
  unfold occursAt. intros Hab Hk. eapply prefix_trans; [exact Hk|].
  by apply dropStr_prefix.
Qed.

Lemma occursAt_drop pat s k k' :
  occursAt pat (dropStr k s) k' = true -> occursAt pat s (k + k') = true.
Proof. unfold occursAt. by rewrite dropStr_add. Qed.

Lemma trimStart_drop s : exists k, trimStart s = dropStr k s.
Proof.
  induction s as [|c s [k IH]]; [by exists 0|].
  simpl. destruct (isWhiteSpace c); [by exists (S k) | by exists 0].
Qed.

Lemma trimEnd_prefix s : Js.isPrefix (trimEnd s) s = true.
Proof.
  induction s as [|c s IH]; [done|]. cbn [trimEnd].
  destruct (trimEnd s) as [|d t].
  - destruct (isWhiteSpace c); [done|]. by rewrite prefix_cons.
  - by rewrite prefix_cons.
Qed.

(** What occurs in the trimmed line occurs in the line. *)
Lemma occursAt_trim pat s k :
  occursAt pat (trim s) k = true -> exists k', occursAt pat s k' = true.
Proof.
  unfold trim. intros H. destruct (trimStart_drop s) as [n Hn].
  exists (n + k). apply occursAt_drop. rewrite <- Hn.
  eapply occursAt_prefix; [apply trimEnd_prefix | exact H].
Qed.

Lemma span_app p s a b : span p s = (a, b) -> s = a +:+ b.
Proof.
  revert a. induction s as [|c s IH]; intros a; simpl.
  - by intros [= <- <-].
  - destruct (p c).
    + destruct (span p s) as [a' b'] eqn:E. intros [= <- <-].
      rewrite append_cons. f_equal. by apply IH.
    + by intros [= <- <-].
Qed.

Lemma span_all p s a b : span p s = (a, b) -> allChars p a = true.
Proof.
  revert a. induction s as [|c s IH]; intros a; simpl.
  - by intros [= <- <-].
  - destruct (p c) eqn:Hc.
    + destruct (span p s) as [a' b'] eqn:E. intros [= <- <-].
      simpl. rewrite Hc. by eapply IH.
    + by intros [= <- <-].
Qed.

(** A colon-delimited token has the text [:run:] with a non-empty run of
    characters of the class, and is followed by the rest. *)
Lemma colonToken_shape p s m rest :
  colonToken p s = Some (m, rest) ->
  exists run, m = tokenOf run /\ run <> EmptyString
              /\ allChars p run = true /\ s = m +:+ rest.
Proof.
  unfold colonToken. destruct s as [|c r]; [done|].
  destruct (isColon c) eqn:Hc; [|done].
  destruct (span p r) as [a b] eqn:E.
  destruct a as [|x run]; [done|]. destruct b as [|d rest']; [done|].
  destruct (isColon d) eqn:Hd; [|done]. intros [= <- <-].
  apply Ascii.eqb_eq in Hc as ->. apply Ascii.eqb_eq in Hd as ->.
  exists (String x run). repeat split; [done | by eapply span_all|].
  apply span_app in E as ->. unfold tokenOf.
  change (String colon (String x run +:+ String colon rest')
          = String colon ((String x run +:+ String colon EmptyString) +:+ rest')).
  by rewrite append_assoc.
Qed.

Lemma colonToken_prefix p s m rest :
  colonToken p s = Some (m, rest) -> Js.isPrefix m s = true.
Proof.
  intros (run & _ & _ & _ & ->)%colonToken_shape. apply prefix_app.
Qed.

Lemma dropLast_snoc s c : dropLast (s +:+ String c EmptyString) = s.
Proof.
  induction s as [|x s IH]; [done|]. rewrite append_cons.
  assert (exists y t, s +:+ String c EmptyString = String y t) as (y & t & E)
    by (destruct s; eauto).
  rewrite E in *.
  change (dropLast (String x (String y t)))
    with (String x (dropLast (String y t))).
  by rewrite IH.
Qed.

Lemma slice_tokenOf name : slice_1_m1 (tokenOf name) = name.
Proof. unfold tokenOf, slice_1_m1. apply dropLast_snoc. Qed.

(** The matches found by a scan occur in the text at the index recorded
    for them. *)
Lemma regexScan_occurs (matchAt : string -> option string) :
  (forall s m, matchAt s = Some m -> Js.isPrefix m s = true) ->
  forall s pos skip i m,
    (i, m) ∈ regexScan matchAt s pos skip ->
    exists k, i = pos + k /\ occursAt m s k = true.
Proof.
  intros Hsound. induction s as [|c s IH]; intros pos skip i m Hin.
  - by apply elem_of_nil in Hin.
  - assert (Hnext : forall skip',
               (i, m) ∈ regexScan matchAt s (S pos) skip' ->
               exists k, i = pos + k /\ occursAt m (String c s) k = true).
    { intros skip' H. destruct (IH _ _ _ _ H) as (k & -> & Hk).
      exists (S k). split; [lia | exact Hk]. }
    cbn [regexScan] in Hin. destruct skip as [|skip]; [|by eapply Hnext].
    destruct (matchAt (String c s)) as [m0|] eqn:E; [|by eapply Hnext].
    apply elem_of_cons in Hin as [[= -> ->]|Hin]; [|by eapply Hnext].
    exists 0. split; [lia|]. by apply Hsound.
Qed.

(** Every match of a scan is what the pattern matches at its index. *)
Lemma regexScan_matched (matchAt : string -> option string) s pos skip i m :
  (i, m) ∈ regexScan matchAt s pos skip ->
  exists k, i = pos + k /\ matchAt (dropStr k s) = Some m.
Proof.
  revert pos skip. induction s as [|c s IH]; intros pos skip Hin.
  - by apply elem_of_nil in Hin.
  - assert (Hnext : forall skip',
               (i, m) ∈ regexScan matchAt s (S pos) skip' ->
               exists k, i = pos + k /\ matchAt (dropStr k (String c s)) = Some m).
    { intros skip' H. destruct (IH _ _ H) as (k & -> & Hk).
      exists (S k). split; [lia | exact Hk]. }
    cbn [regexScan] in Hin. destruct skip as [|skip]; [|by eapply Hnext].
    destruct (matchAt (String c s)) as [m0|] eqn:E; [|by eapply Hnext].
    apply elem_of_cons in Hin as [[= -> ->]|Hin]; [|by eapply Hnext].
    exists 0. split; [lia | exact E].
Qed.

(** [indexOf] finds the first occurrence, when there is one. *)
Lemma indexOfFrom_first pat s i k :
  occursAt pat s k = true ->
  exists k0, indexOfFrom pat s i = Z.of_nat (i + k0)
             /\ occursAt pat s k0 = true
             /\ forall j, j < k0 -> occursAt pat s j = false.
Proof.
  revert i k. induction s as [|c s IH]; intros i k Hk.
  - exists 0. unfold occursAt in *. rewrite dropStr_empty in Hk.
    cbn [indexOfFrom dropStr]. rewrite Hk. rewrite Nat.add_0_r.
    split; [done|]. split; [done|]. intros j Hj. lia.
  - cbn [indexOfFrom]. destruct (Js.isPrefix pat (String c s)) eqn:E.
    + exists 0. rewrite Nat.add_0_r.
      split; [done|]. split; [done|]. intros j Hj. lia.
    + destruct k as [|k]; [unfold occursAt in Hk; simpl in Hk; congruence|].
      destruct (IH (S i) k Hk) as (k0 & Hidx & Hocc & Hfirst).
      exists (S k0). split; [rewrite Hidx; f_equal; lia|].
      split; [exact Hocc|].
      intros [|j] Hj; [exact E|]. apply Hfirst. lia.
Qed.

Lemma indexOf_first pat s k :
  occursAt pat s k = true -> firstOccurrence pat s (indexOf s pat).
Proof.
  intros Hk. destruct (indexOfFrom_first pat s 0 k Hk) as (k0 & Hidx & H).
  exists k0. by split.
Qed.

Lemma firstOccurrence_unique pat s z z' :
  firstOccurrence pat s z -> firstOccurrence pat s z' -> z = z'.
Proof.
  intros (k & -> & Hk & Hfirst) (k' & -> & Hk' & Hfirst').
  f_equal. destruct (Nat.lt_trichotomy k k') as [H|[H|H]]; [|done|].
  - rewrite (Hfirst' _ H) in Hk. done.
  - rewrite (Hfirst _ H) in Hk'. done.
Qed.

End Strings.

(* ===================================================================== *)
(** ** Usage extraction *)
(* ===================================================================== *)

Section Usages.
Import Js ConceptExtractor.

(** Scanning an empty text pushes nothing. *)
Lemma scanSpecText_empty path n sec : scanSpecText path n EmptyString sec = [].
Proof. reflexivity. Qed.

(** A document without indented lines has no usage occurrence: the text of
    an unindented line is never added to the text that is scanned. *)
Lemma specTextLoop_unindented path lines i sec n :
  Forall (fun l => hasIndentation l = false) lines ->
  specTextLoop path lines i sec EmptyString n = [].
Proof.
  intros H. revert i sec n. induction H as [|l lines Hl _ IH]; intros i sec n.
  - reflexivity.
  - cbn [specTextLoop]. destruct (isSectionHeader (Js.trim l)); [apply IH|].
    rewrite Hl, scanSpecText_empty. apply IH.
Qed.

(** Lines after the last line that closes a block are accumulated and
    dropped: nothing scans the text when the loop ends. *)
Lemma specTextLoop_open_block path lines i sec text n :
  Forall (fun l => closesBlock l = false) lines ->
  specTextLoop path lines i sec text n = [].
Proof.
  intros H. revert i sec text n.
  induction H as [|l lines Hl _ IH]; intros i sec text n; [done|].
  cbn [specTextLoop]. unfold closesBlock in Hl.
  destruct (isSectionHeader (Js.trim l)); [apply IH|].
  destruct (hasIndentation l); [apply IH | done].
Qed.

Lemma specTextLoop_app path lines tail i sec text n :
  Forall (fun l => closesBlock l = false) tail ->
  specTextLoop path (lines ++ tail) i sec text n
  = specTextLoop path lines i sec text n.
Proof.
  intros H. revert i sec text n.
  induction lines as [|l lines IH]; intros i sec text n.
  - by apply specTextLoop_open_block.
  - cbn [app specTextLoop].
    destruct (isSectionHeader (Js.trim l)); [apply IH|].
    destruct (hasIndentation l); [apply IH|]. by rewrite IH.
Qed.

(** Every usage occurrence is recorded on a line that closes a block, in
    front of which the scanned text was accumulated. *)
Lemma specTextLoop_anchor path lines i sec text n o :
  o ∈ specTextLoop path lines i sec text n ->
  exists l, lines !! (line o - i) = Some l
            /\ i <= line o
            /\ closesBlock l = true.
Proof.
  revert i sec text n. induction lines as [|l lines IH]; intros i sec text n.
  - intros H. by apply elem_of_nil in H.
  - cbn [specTextLoop].
    assert (Hnext : forall sec' text' n',
               o ∈ specTextLoop path lines (S i) sec' text' n' ->
               exists l0, (l :: lines) !! (line o - i) = Some l0
                          /\ i <= line o /\ closesBlock l0 = true).
    { intros sec' text' n' Ho. destruct (IH _ _ _ _ Ho) as (l0 & Hl0 & Hle & Hc).
      exists l0. repeat split; [|lia|done].
      replace (line o - i) with (S (line o - S i)) by lia. exact Hl0. }
    unfold closesBlock.
    destruct (isSectionHeader (Js.trim l)) eqn:Hh; [apply Hnext|].
    destruct (hasIndentation l) eqn:Hi; [apply Hnext|].
    intros [Ho|Ho]%elem_of_app; [|by eapply Hnext].
    exists l. unfold scanSpecText in Ho.
    assert (Hline : line o = i).
    { revert Ho. generalize (@nil string) as pushed.
      induction (Js.matchAll conceptRegexAt text) as [|[index m] ms IHm];
        intros pushed Ho; [by apply elem_of_nil in Ho|].
      cbn [pushMatches] in Ho. destruct (existsb _ pushed); [by eapply IHm|].
      apply elem_of_cons in Ho as [->|Ho]; [done | by eapply IHm]. }
    rewrite Hline, Nat.sub_diag, Hh, Hi. by repeat split.
Qed.

Lemma existsb_eqb_elem x (l : list string) :
  existsb (String.eqb x) l = true <-> x ∈ l.
Proof.
  rewrite existsb_exists. split.
  - intros (y & Hy & ->%String.eqb_eq). by apply list_elem_of_In.
  - intros H. exists x. split; [by apply list_elem_of_In | apply String.eqb_refl].
Qed.

Lemma pushMatches_elem path n text sec ms pushed o :
  o ∈ pushMatches path n text sec ms pushed ->
  filePath o = path /\ line o = n /\ content o = Some text
  /\ section o = Some sec
  /\ (concept o ∉ pushed)
  /\ exists i m, (i, m) ∈ ms /\ concept o = slice_1_m1 m
                 /\ character o = Z.of_nat i.
Proof.
  revert pushed. induction ms as [|[i m] ms IH]; intros pushed Ho.
  - by apply elem_of_nil in Ho.
  - cbn [pushMatches] in Ho.
    assert (Hrest : forall pushed',
               (forall x, x ∈ pushed -> x ∈ pushed') ->
               o ∈ pushMatches path n text sec ms pushed' ->
               filePath o = path /\ line o = n /\ content o = Some text
               /\ section o = Some sec /\ (concept o ∉ pushed)
               /\ exists i0 m0, (i0, m0) ∈ (i, m) :: ms
                                /\ concept o = slice_1_m1 m0
                                /\ character o = Z.of_nat i0).
    { intros pushed' Hsub H.
      destruct (IH _ H) as (? & ? & ? & ? & Hnot & i0 & m0 & Hin & ? & ?).
      repeat split; try done; [by intros ?%Hsub|].
      exists i0, m0. split; [by right | done]. }
    destruct (existsb (String.eqb (slice_1_m1 m)) pushed) eqn:E.
    + by apply (Hrest pushed).
    + apply elem_of_cons in Ho as [->|Ho].
      * cbn. repeat split.
        -- intros Hin%existsb_eqb_elem. congruence.
        -- exists i, m. split; [left | done].
      * apply (Hrest (pushed ++ [slice_1_m1 m])); [|done].
        intros x Hx. apply elem_of_app. by left.
Qed.

Lemma pushMatches_NoDup path n text sec ms pushed :
  NoDup (concept <$> pushMatches path n text sec ms pushed).
Proof.
  revert pushed. induction ms as [|[i m] ms IH]; intros pushed.
  - constructor.
  - cbn [pushMatches].
    destruct (existsb (String.eqb (slice_1_m1 m)) pushed); [apply IH|].
    rewrite fmap_cons. cbn [concept]. constructor; [|apply IH].
    intros (o & Heq & Ho)%list_elem_of_fmap.
    apply pushMatches_elem in Ho as (_ & _ & _ & _ & Hnot & _).
    apply Hnot. rewrite <- Heq. apply elem_of_app. right. left.
Qed.

Lemma pushMatches_complete path n text sec ms pushed i m :
  (i, m) ∈ ms ->
  slice_1_m1 m ∈ pushed
  \/ slice_1_m1 m ∈ concept <$> pushMatches path n text sec ms pushed.
Proof.
  revert pushed. induction ms as [|[j m'] ms IH]; intros pushed Hin.
  - by apply elem_of_nil in Hin.
  - cbn [pushMatches].
    destruct (existsb (String.eqb (slice_1_m1 m')) pushed) eqn:E.
    + apply elem_of_cons in Hin as [[= -> ->]|Hin]; [|by apply IH].
      left. by apply existsb_eqb_elem.
    + rewrite fmap_cons. cbn [concept].
      apply elem_of_cons in Hin as [[= -> ->]|Hin]; [right; left|].
      destruct (IH (pushed ++ [slice_1_m1 m']) Hin) as [H|H].
      * apply elem_of_app in H as [H| ->%list_elem_of_singleton];
          [by left | right; left].
      * right. by right.
Qed.

Lemma scanSpecText_content path n text sec o :
  o ∈ scanSpecText path n text sec -> content o = Some text.
Proof.
  unfold scanSpecText. by intros (_ & _ & H & _)%pushMatches_elem.
Qed.

Lemma regexScan_increasing (matchAt : string -> option string) s pos skip :
  StronglySorted (fun a b : nat * string => a.1 < b.1)
                 (regexScan matchAt s pos skip).
Proof.
  revert pos skip. induction s as [|c s IH]; intros pos skip; [constructor|].
  cbn [regexScan]. destruct skip as [|skip]; [|apply IH].
  destruct (matchAt (String c s)) as [m|]; [|apply IH].
  constructor; [apply IH|]. apply Forall_forall. intros [j m'] Hin.
  apply regexScan_matched in Hin as (k & -> & _). simpl. lia.
Qed.

(** The column recorded for a name is the index of its first match. *)
Lemma pushMatches_first path n text sec ms pushed o j m :
  StronglySorted (fun a b : nat * string => a.1 < b.1) ms ->
  o ∈ pushMatches path n text sec ms pushed ->
  (j, m) ∈ ms -> slice_1_m1 m = concept o ->
  (character o <= Z.of_nat j)%Z.
Proof.
  intros Hsorted. revert pushed.
  induction Hsorted as [|[i0 m0] ms Hs IH Hlt]; intros pushed Ho Hin Hname.
  - by apply elem_of_nil in Hin.
  - cbn [pushMatches] in Ho.
    destruct (existsb (String.eqb (slice_1_m1 m0)) pushed) eqn:E.
    + apply elem_of_cons in Hin as [[= -> ->]|Hin]; [|by eapply IH].
      apply existsb_eqb_elem in E.
      apply pushMatches_elem in Ho as (_ & _ & _ & _ & Hnot & _).
      rewrite Hname in E. contradiction.
    + apply elem_of_cons in Ho as [->|Ho].
      * cbn [character].
        apply elem_of_cons in Hin as [[= -> ->]|Hin]; [lia|].
        rewrite Forall_forall in Hlt. specialize (Hlt _ Hin). simpl in Hlt. lia.
      * apply elem_of_cons in Hin as [[= -> ->]|Hin]; [|by eapply IH].
        apply pushMatches_elem in Ho as (_ & _ & _ & _ & Hnot & _).
        exfalso. apply Hnot. rewrite <- Hname. apply elem_of_app. right. left.
Qed.

(** The text accumulated for a scan is made of indented lines only. *)
Lemma specTextLoop_content path lines i sec text n o :
  indentedText text ->
  o ∈ specTextLoop path lines i sec text n ->
  exists text', content o = Some text' /\ indentedText text'.
Proof.
  revert i sec text n. induction lines as [|l lines IH]; intros i sec text n Ht.
  - intros H. by apply elem_of_nil in H.
  - cbn [specTextLoop].
    destruct (isSectionHeader (trim l)); [by apply IH|].
    destruct (hasIndentation l) eqn:Hi.
    + apply IH. destruct Ht as (ls & Hls & ->). exists (ls ++ [l]). split.
      * apply Forall_app. split; [done | by constructor].
      * unfold joinLines. rewrite foldr_app. cbn [foldr].
        clear. induction ls as [|x ls IHl]; [by rewrite append_nil_r|].
        cbn [foldr]. by rewrite !append_assoc, IHl.
    + intros [Ho|Ho]%elem_of_app.
      * apply scanSpecText_content in Ho. by exists text.
      * eapply IH; [|exact Ho]. by exists [].
Qed.

(** What the scan of an accumulated text records: one occurrence for each
    distinct name that has a token in the text, with the line given to the
    scan, the text as content, and as column the index of a token of that
    name in the text. *)
Lemma scanSpecText_spec path n text sec :
  NoDup (concept <$> scanSpecText path n text sec)
  /\ (forall o, o ∈ scanSpecText path n text sec ->
         filePath o = path /\ line o = n /\ content o = Some text
         /\ section o = Some sec
         /\ exists i, character o = Z.of_nat i
                      /\ occursAt (tokenOf (concept o)) text i = true)
  /\ (forall i m,
         (i, m) ∈ matchAll conceptRegexAt text ->
         slice_1_m1 m ∈ concept <$> scanSpecText path n text sec)
  /\ (forall o i m,
         o ∈ scanSpecText path n text sec ->
         (i, m) ∈ matchAll conceptRegexAt text ->
         slice_1_m1 m = concept o ->
         (character o <= Z.of_nat i)%Z).
Proof.
  unfold scanSpecText. split; [apply pushMatches_NoDup|]. split.
  - intros o Ho.
    apply pushMatches_elem in Ho as (? & ? & ? & ? & _ & i & m & Hin & Hname & Hcol).
    repeat split; try done. exists i. split; [done|].
    apply regexScan_matched in Hin as (k & -> & Hk). unfold conceptRegexAt in Hk.
    destruct (Js.colonToken Js.isConceptChar (dropStr k text))
      as [[m0 rest]|] eqn:E; [|done].
    injection Hk as ->. apply colonToken_shape in E as (run & -> & _ & _ & E).
    rewrite Hname, slice_tokenOf. unfold occursAt. cbn [Nat.add].
    rewrite E. apply prefix_app.
  - split.
    + intros i m Hin.
      destruct (pushMatches_complete path n text sec _ [] _ _ Hin) as [H|H];
        [by apply elem_of_nil in H | done].
    + intros o i m Ho Hin Hname.
      eapply pushMatches_first; [apply regexScan_increasing | done..].
Qed.

(** Usage extraction on a whole document: a document without indented
    lines has no usage occurrence; the lines after the last line that closes
    a block do not count; the content of an occurrence is made of indented
    lines only; every occurrence is recorded on a line that closes a
    block. *)
Lemma unindented_document_has_no_usage path text :
  Forall (fun l => hasIndentation l = false) (Js.split_nl text) ->
  extractConceptsFromSpecText path text = [].
Proof. apply specTextLoop_unindented. Qed.

Lemma open_block_is_dropped path text lines tail :
  Js.split_nl text = lines ++ tail ->
  Forall (fun l => closesBlock l = false) tail ->
  extractConceptsFromSpecText path text
  = specTextLoop path lines 0 EmptyString EmptyString 0.
Proof.
  intros Hsplit Htail. unfold extractConceptsFromSpecText.
  rewrite Hsplit. by apply specTextLoop_app.
Qed.

Lemma usage_content_is_indented_lines path text o :
  o ∈ extractConceptsFromSpecText path text ->
  exists text', content o = Some text' /\ indentedText text'.
Proof. apply specTextLoop_content. by exists []. Qed.

Lemma usage_is_recorded_on_closing_line path text o :
  o ∈ extractConceptsFromSpecText path text ->
  exists l, Js.split_nl text !! line o = Some l /\ closesBlock l = true.
Proof.
  intros (l & Hl & _ & Hc)%specTextLoop_anchor.
  rewrite Nat.sub_0_r in Hl. by exists l.
Qed.

(** C2: in the document [x :a:], [  y :b:], [z] the block anchored at line 0
    holds the names [a] and [b].  Usage extraction gives no occurrence for
    [a]; the occurrence of [b] is recorded on line 2, the line that closes
    the block, and its content is the indented line alone. *)
Theorem usages_of_block_text :
  extractConceptsFromSpecText "/w/x.plain" blockText
  = [ mkConcept "b" "/w/x.plain" 2 4 (Some ("  y :b:" +:+ nl)) (Some "") ].
Proof. vm_compute. reflexivity. Qed.

(** C3: the list item [- :a:, :b:] of a definitions section gives the
    definition occurrences of [a] and [b] and no usage occurrence. *)
Theorem usages_of_definition_line :
  extractConceptsFromDefinitions "/w/x.plain" definitionsText
  = [ mkConcept "a" "/w/x.plain" 1 2 (Some "- :a:, :b:") (Some "definitions");
      mkConcept "b" "/w/x.plain" 1 7 (Some "- :a:, :b:") (Some "definitions") ]
  /\ extractConceptsFromSpecText "/w/x.plain" definitionsText = [].
Proof. vm_compute. split; reflexivity. Qed.

(** C4: the token of the trailing indented line is lost when the document
    ends there; with a final line feed the empty last line closes the
    block. *)
Theorem usages_of_trailing_block :
  extractConceptsFromSpecText "/w/x.plain" trailingText = []
  /\ extractConceptsFromSpecText "/w/x.plain" (trailingText +:+ nl)
     = [ mkConcept "a" "/w/x.plain" 2 2 (Some ("  :a:" +:+ nl)) (Some "") ].
Proof. vm_compute. split; reflexivity. Qed.

(** The widget example: without a final line feed nothing is recorded as a
    usage. *)
Example usages_of_widget_text :
  extractConceptsFromSpecText "/w/x.plain" widgetText = []
  /\ extractConceptsFromSpecText "/w/x.plain" (widgetText +:+ nl)
     = [ mkConcept "widget" "/w/x.plain" 3 4
           (Some ("  A :widget: has a :color:." +:+ nl)) (Some "definitions");
         mkConcept "color" "/w/x.plain" 3 19
           (Some ("  A :widget: has a :color:." +:+ nl)) (Some "definitions") ].
Proof. vm_compute. split; reflexivity. Qed.

End Usages.

(* ===================================================================== *)
(** ** Definition extraction *)
(* ===================================================================== *)

Section Definitions.
Import Js ConceptExtractor.

Lemma prefix_app_both a b c :
  isPrefix b c = true -> isPrefix (a +:+ b) (a +:+ c) = true.
Proof.
  intros H. induction a as [|x a IH]; [exact H|].
  by rewrite !append_cons, prefix_cons.
Qed.

Lemma moreTokens_prefix fuel s : isPrefix (moreTokens fuel s) s = true.
Proof.
  revert s. induction fuel as [|fuel IH]; intros s; [done|].
  cbn [moreTokens]. destruct s as [|c r]; [done|].
  destruct (Ascii.eqb c comma) eqn:Hc; [|done].
  apply Ascii.eqb_eq in Hc as ->.
  destruct (span isWhiteSpace r) as [ws r1] eqn:Hs.
  destruct (colonToken notColon r1) as [[tok rest]|] eqn:Ht; [|done].
  apply span_app in Hs as ->.
  apply colonToken_shape in Ht as (_ & _ & _ & _ & ->).
  rewrite prefix_cons. apply prefix_app_both, prefix_app_both, IH.
Qed.

(** The fuel of [moreTokens] never runs out: any amount that is at least
    the length of the text gives the same match. *)
Lemma moreTokens_fuel fuel fuel' s :
  String.length s <= fuel -> String.length s <= fuel' ->
  moreTokens fuel s = moreTokens fuel' s.
Proof.
  revert fuel' s. induction fuel as [|fuel IH]; intros fuel' s H H'.
  - destruct s; [by destruct fuel' | simpl in H; lia].
  - destruct s as [|c r]; [by destruct fuel'|].
    destruct fuel' as [|fuel']; [simpl in H'; lia|].
    cbn [moreTokens]. destruct (Ascii.eqb c comma); [|done].
    destruct (span isWhiteSpace r) as [ws r1] eqn:Hs.
    destruct (colonToken notColon r1) as [[tok rest]|] eqn:Ht; [|done].
    apply span_app in Hs. apply colonToken_shape in Ht as (_ & _ & _ & _ & Ht).
    assert (String.length rest <= String.length r).
    { rewrite Hs, Ht. clear. induction ws as [|x ws IHw].
      - change (EmptyString +:+ tok +:+ rest) with (tok +:+ rest).
        induction tok as [|y tok IHt]; [done|].
        rewrite append_cons. simpl. lia.
      - rewrite append_cons. simpl. lia. }
    simpl in H, H'. by rewrite (IH fuel' rest) by lia.
Qed.

(** The whole match of the definition pattern is a prefix of the trimmed
    line. *)
Lemma definitionMatch_prefix t fullMatch :
  definitionMatch t = Some fullMatch -> isPrefix fullMatch t = true.
Proof.
  unfold definitionMatch. destruct t as [|d [|w r]]; [done..|].
  destruct (Ascii.eqb d dash && isWhiteSpace w); [|done].
  destruct (colonToken notColon r) as [[tok rest]|] eqn:Ht; [|done].
  intros [= <-]. apply colonToken_shape in Ht as (_ & _ & _ & _ & ->).
  rewrite !prefix_cons. apply prefix_app_both, moreTokens_prefix.
Qed.

Lemma conceptCandidates_occur fullMatch candidate :
  candidate ∈ conceptCandidates fullMatch ->
  exists k, occursAt candidate fullMatch k = true.
Proof.
  unfold conceptCandidates, matchAll.
  intros [[i m] [-> Hin]]%list_elem_of_fmap.
  eapply regexScan_occurs in Hin as (k & _ & Hk); [by exists k|].
  intros s m'. destruct (colonToken notColon s) as [[m0 rest]|] eqn:E; [|done].
  intros [= <-]. by eapply colonToken_prefix.
Qed.

(** A candidate that passes the test is the token of the name recorded for
    it, and the name is a non-empty word over the alphabet. *)
Lemma validConcept_token candidate :
  validConcept candidate = true ->
  candidate = tokenOf (slice_1_m1 candidate)
  /\ slice_1_m1 candidate <> EmptyString
  /\ inAlphabet (slice_1_m1 candidate) = true.
Proof.
  unfold validConcept.
  destruct (colonToken isConceptChar candidate) as [[m rest]|] eqn:E; [|done].
  destruct rest; [|done]. intros _.
  apply colonToken_shape in E as (run & -> & Hne & Hall & ->).
  by rewrite append_nil_r, slice_tokenOf.
Qed.

Lemma pushCandidates_elem path i l sec candidates o :
  o ∈ pushCandidates path i l sec candidates ->
  exists candidate,
    candidate ∈ candidates
    /\ validConcept candidate = true
    /\ o = mkConcept (slice_1_m1 candidate) path i (indexOf l candidate)
                     (Some l) (Some sec).
Proof.
  induction candidates as [|c cs IH]; cbn [pushCandidates]; intros Ho.
  - by apply elem_of_nil in Ho.
  - destruct (validConcept c) eqn:Hv.
    + apply elem_of_cons in Ho as [->|Ho].
      * exists c. split; [left | done].
      * destruct (IH Ho) as (c' & Hc' & H). exists c'. split; [by right | done].
    + destruct (IH Ho) as (c' & Hc' & H). exists c'. split; [by right | done].
Qed.

(** What a definitions line records: the line itself, and for each
    occurrence the index of the first occurrence of its token in the raw
    line. *)
Lemma definitionLine_elem path i l sec o :
  o ∈ definitionLine path i l sec ->
  filePath o = path /\ line o = i /\ content o = Some l
  /\ section o = Some sec
  /\ character o = indexOf l (tokenOf (concept o))
  /\ firstOccurrence (tokenOf (concept o)) l (character o).
Proof.
  unfold definitionLine.
  destruct (definitionMatch (trim l)) as [fullMatch|] eqn:Hm;
    [|intros H; by apply elem_of_nil in H].
  intros (c & Hc & Hv & ->)%pushCandidates_elem. cbn.
  destruct (validConcept_token c Hv) as (Htok & _).
  rewrite <- Htok. repeat split.
  apply conceptCandidates_occur in Hc as [k Hk].
  eapply occursAt_prefix in Hk; [|by apply definitionMatch_prefix].
  apply occursAt_trim in Hk as [k' Hk'].
  by eapply indexOf_first.
Qed.

Lemma definitionsLoop_elem path lines i inDef sec o :
  o ∈ definitionsLoop path lines i inDef sec ->
  exists l sec', lines !! (line o - i) = Some l
                 /\ i <= line o
                 /\ o ∈ definitionLine path (line o) l sec'.
Proof.
  revert i inDef sec. induction lines as [|l lines IH]; intros i inDef sec.
  - intros H. by apply elem_of_nil in H.
  - cbn [definitionsLoop].
    assert (Hnext : forall inDef' sec',
               o ∈ definitionsLoop path lines (S i) inDef' sec' ->
               exists l0 sec0, (l :: lines) !! (line o - i) = Some l0
                               /\ i <= line o
                               /\ o ∈ definitionLine path (line o) l0 sec0).
    { intros inDef' sec' Ho.
      destruct (IH _ _ _ Ho) as (l0 & sec0 & Hl0 & Hle & Hin).
      exists l0, sec0. split; [|split; [lia | done]].
      replace (line o - i) with (S (line o - S i)) by lia. exact Hl0. }
    destruct (isSectionHeader (trim l)); [apply Hnext|].
    destruct inDef; cbn [negb]; [|apply Hnext].
    intros [Ho|Ho]%elem_of_app; [|by eapply Hnext].
    pose proof (definitionLine_elem _ _ _ _ _ Ho) as (_ & Hline & _).
    exists l, sec. rewrite Hline, Nat.sub_diag. by repeat split.
Qed.

(** C10: every definition occurrence records, as its column, the index of
    the first occurrence of its colon-wrapped token in the raw line it was
    found on; hence two occurrences of one name found on one line record the
    same column, the one of the first occurrence of the token. *)
Theorem definition_column_is_first_occurrence :
  forall (path text : string),
    Forall (fun o =>
              exists l, split_nl text !! line o = Some l
                        /\ content o = Some l
                        /\ character o = indexOf l (tokenOf (concept o))
                        /\ firstOccurrence (tokenOf (concept o)) l (character o))
           (extractConceptsFromDefinitions path text)
    /\ forall o o',
         o ∈ extractConceptsFromDefinitions path text ->
         o' ∈ extractConceptsFromDefinitions path text ->
         line o = line o' -> concept o = concept o' ->
         character o = character o'.
Proof.
  intros path text.
  assert (H : forall o, o ∈ extractConceptsFromDefinitions path text ->
              exists l, split_nl text !! line o = Some l
                        /\ content o = Some l
                        /\ character o = indexOf l (tokenOf (concept o))
                        /\ firstOccurrence (tokenOf (concept o)) l (character o)).
  { intros o Ho. unfold extractConceptsFromDefinitions in Ho.
    apply definitionsLoop_elem in Ho as (l & sec & Hl & _ & Ho).
    rewrite Nat.sub_0_r in Hl.
    apply definitionLine_elem in Ho as (_ & _ & Hc & _ & Hi & Hf).
    by exists l. }
  split; [by apply Forall_forall|].
  intros o o' Ho Ho' Hline Hname.
  destruct (H o Ho) as (l & Hl & _ & Hi & _).
  destruct (H o' Ho') as (l' & Hl' & _ & Hi' & _).
  rewrite Hline, Hl' in Hl. injection Hl as <-.
  by rewrite Hi, Hi', Hname.
Qed.

End Definitions.

(* ===================================================================== *)
(** ** List items of a definitions section *)
(* ===================================================================== *)

Section ListItems.
Import Js ConceptExtractor.

Lemma conceptChar_notColon c : isConceptChar c = true -> notColon c = true.
Proof. destruct c as [[] [] [] [] [] [] [] []]; vm_compute; congruence. Qed.

Lemma conceptChar_notWhiteSpace c : isConceptChar c = true -> isWhiteSpace c = false.
Proof. destruct c as [[] [] [] [] [] [] [] []]; vm_compute; congruence. Qed.

Lemma allChars_impl (p q : ascii -> bool) s :
  (forall c, p c = true -> q c = true) -> allChars p s = true -> allChars q s = true.
Proof.
  intros Hpq. induction s as [|c s IH]; [done|]. simpl.
  intros [Hc Hs]%andb_true_iff. by rewrite (Hpq _ Hc), IH.
Qed.

(** A greedy run stops in front of a character outside the class. *)
Lemma span_stop p a c b :
  allChars p a = true -> p c = false ->
  span p (a +:+ String c b) = (a, String c b).
Proof.
  intros Ha Hc. induction a as [|x a IH].
  - change (span p (String c b) = (EmptyString, String c b)).
    cbn [span]. by rewrite Hc.
  - simpl in Ha. apply andb_true_iff in Ha as [Hx Ha].
    rewrite append_cons. cbn [span]. by rewrite Hx, (IH Ha).
Qed.

Lemma colonToken_tokenOf p name rest :
  name <> EmptyString -> allChars p name = true -> p colon = false ->
  colonToken p (tokenOf name +:+ rest) = Some (tokenOf name, rest).
Proof.
  intros Hne Hall Hp. unfold tokenOf. rewrite append_cons, append_assoc.
  change (String colon EmptyString +:+ rest) with (String colon rest).
  cbn [colonToken]. change (isColon colon) with true. cbv iota.
  rewrite (span_stop p name colon rest Hall Hp).
  destruct name as [|x name]; [done|].
  by change (isColon colon) with true.
Qed.

Lemma isConceptName_spec name :
  isConceptName name = true ->
  name <> EmptyString /\ allChars isConceptChar name = true.
Proof.
  unfold isConceptName, inAlphabet. intros [Hne Hall]%andb_true_iff.
  split; [|done]. intros ->. done.
Qed.

Lemma colonToken_name_notColon name rest :
  isConceptName name = true ->
  colonToken notColon (tokenOf name +:+ rest) = Some (tokenOf name, rest).
Proof.
  intros [Hne Hall]%isConceptName_spec. apply colonToken_tokenOf; [done| |done].
  eapply allChars_impl; [apply conceptChar_notColon | done].
Qed.

Lemma validConcept_tokenOf name :
  isConceptName name = true -> validConcept (tokenOf name) = true.
Proof.
  intros [Hne Hall]%isConceptName_spec. unfold validConcept.
  rewrite <- (append_nil_r (tokenOf name)).
  by rewrite colonToken_tokenOf.
Qed.

Lemma length_append a b :
  String.length (a +:+ b) = String.length a + String.length b.
Proof. induction a as [|c a IH]; [done|]. rewrite append_cons. simpl. lia. Qed.

Lemma itemTail_length names : length names <= String.length (itemTail names).
Proof.
  induction names as [|n names IH]; [done|].
  cbn [itemTail fold_right]. fold (itemTail names).
  rewrite !length_append. simpl. lia.
Qed.

Lemma itemTail_cons n names :
  itemTail (n :: names)
  = String comma (String " " (tokenOf n +:+ itemTail names)).
Proof. reflexivity. Qed.

(** The repeated group of the definition pattern consumes all the items. *)
Lemma moreTokens_itemTail names fuel :
  Forall (fun n => isConceptName n = true) names ->
  length names <= fuel ->
  moreTokens fuel (itemTail names) = itemTail names.
Proof.
  intros Hall. revert fuel.
  induction Hall as [|n names Hn _ IH]; intros fuel Hfuel.
  - by destruct fuel.
  - destruct fuel as [|fuel]; [simpl in Hfuel; lia|].
    rewrite itemTail_cons. cbn [moreTokens].
    change (Ascii.eqb comma comma) with true. cbv iota.
    assert (Hspan : span isWhiteSpace (String " " (tokenOf n +:+ itemTail names))
                    = (" ", tokenOf n +:+ itemTail names)) by reflexivity.
    rewrite Hspan, (colonToken_name_notColon _ _ Hn).
    rewrite IH by (simpl in Hfuel; lia). reflexivity.
Qed.

Lemma definitionMatch_listItem name names :
  Forall (fun n => isConceptName n = true) (name :: names) ->
  definitionMatch (listItem name names) = Some (listItem name names).
Proof.
  intros [Hn Hall]%Forall_cons. unfold listItem.
  change ("- " +:+ tokenOf name +:+ itemTail names)
    with (String dash (String " " (tokenOf name +:+ itemTail names))).
  cbn [definitionMatch]. change (Ascii.eqb dash dash && isWhiteSpace " ") with true.
  cbv iota. rewrite (colonToken_name_notColon _ _ Hn).
  by rewrite moreTokens_itemTail by (done || apply itemTail_length).
Qed.

Lemma trimEnd_colon s :
  trimEnd (s +:+ String colon EmptyString) = s +:+ String colon EmptyString.
Proof.
  induction s as [|c s IH]; [done|]. rewrite append_cons. cbn [trimEnd].
  rewrite IH. by destruct s.
Qed.

Lemma items_end_in_colon name names :
  exists s, tokenOf name +:+ itemTail names = s +:+ String colon EmptyString.
Proof.
  revert name. induction names as [|n names IH]; intros name.
  - exists (String colon name). by rewrite append_nil_r.
  - destruct (IH n) as [s Hs]. rewrite itemTail_cons.
    exists (tokenOf name +:+ String comma (String " " s)).
    rewrite append_assoc. f_equal. rewrite !append_cons. by rewrite Hs.
Qed.

Lemma trim_listItem name names : trim (listItem name names) = listItem name names.
Proof.
  unfold trim, listItem.
  change (trimStart ("- " +:+ tokenOf name +:+ itemTail names))
    with ("- " +:+ tokenOf name +:+ itemTail names).
  destruct (items_end_in_colon name names) as [s ->].
  rewrite <- append_assoc. apply trimEnd_colon.
Qed.

(** A scan that has just matched [a] skips the rest of [a]. *)
Lemma regexScan_skip matchAt a s pos :
  regexScan matchAt (a +:+ s) pos (String.length a)
  = regexScan matchAt s (pos + String.length a) 0.
Proof.
  revert pos. induction a as [|c a IH]; intros pos.
  - cbn. by rewrite Nat.add_0_r.
  - rewrite append_cons. cbn [regexScan String.length]. rewrite IH.
    f_equal. lia.
Qed.

Lemma regexScan_token name rest pos :
  isConceptName name = true ->
  regexScan (fun s => fst <$> colonToken notColon s) (tokenOf name +:+ rest) pos 0
  = (pos, tokenOf name)
    :: regexScan (fun s => fst <$> colonToken notColon s) rest
                 (pos + String.length (tokenOf name)) 0.
Proof.
  intros Hn.
  assert (Hm : fst <$> colonToken notColon (tokenOf name +:+ rest)
               = Some (tokenOf name))
    by (by rewrite colonToken_name_notColon).
  unfold tokenOf in *. rewrite append_cons in *. cbn [regexScan]. rewrite Hm.
  f_equal. cbn [String.length].
  replace (S (String.length (name +:+ String colon EmptyString)) - 1)
    with (String.length (name +:+ String colon EmptyString)) by lia.
  rewrite regexScan_skip. f_equal. lia.
Qed.

Lemma regexScan_miss matchAt c s pos :
  matchAt (String c s) = None ->
  regexScan matchAt (String c s) pos 0 = regexScan matchAt s (S pos) 0.
Proof. intros H. cbn [regexScan]. by rewrite H. Qed.

Lemma regexScan_itemTail names pos :
  Forall (fun n => isConceptName n = true) names ->
  snd <$> regexScan (fun s => fst <$> colonToken notColon s) (itemTail names) pos 0
  = map tokenOf names.
Proof.
  intros Hall. revert pos. induction Hall as [|n names Hn _ IH]; intros pos.
  - reflexivity.
  - rewrite itemTail_cons.
    rewrite regexScan_miss by reflexivity.
    rewrite regexScan_miss by reflexivity.
    rewrite regexScan_token by done. rewrite fmap_cons. cbn [snd map].
    by rewrite IH.
Qed.

Lemma conceptCandidates_listItem name names :
  Forall (fun n => isConceptName n = true) (name :: names) ->
  conceptCandidates (listItem name names) = map tokenOf (name :: names).
Proof.
  intros [Hn Hall]%Forall_cons. unfold conceptCandidates, matchAll, listItem.
  change ("- " +:+ tokenOf name +:+ itemTail names)
    with (String dash (String " " (tokenOf name +:+ itemTail names))).
  rewrite regexScan_miss by reflexivity.
  rewrite regexScan_miss by reflexivity.
  rewrite regexScan_token by done. rewrite fmap_cons. cbn [snd map].
  by rewrite regexScan_itemTail.
Qed.

Lemma pushCandidates_tokens path i l sec names :
  Forall (fun n => isConceptName n = true) names ->
  pushCandidates path i l sec (map tokenOf names)
  = map (definitionOf path i l sec) names.
Proof.
  induction 1 as [|n names Hn _ IH]; [done|].
  cbn [map pushCandidates]. rewrite (validConcept_tokenOf _ Hn), slice_tokenOf.
  by rewrite IH.
Qed.

(** A list item of concept names records one occurrence per token, in
    order, whether or not a name is repeated. *)
Lemma definitionLine_listItem path i sec name names :
  Forall (fun n => isConceptName n = true) (name :: names) ->
  definitionLine path i (listItem name names) sec
  = map (definitionOf path i (listItem name names) sec) (name :: names).
Proof.
  intros Hall. unfold definitionLine.
  rewrite trim_listItem, definitionMatch_listItem by done.
  rewrite conceptCandidates_listItem by done.
  by apply pushCandidates_tokens.
Qed.

Lemma indexOfFrom_here pat s i :
  isPrefix pat s = true -> indexOfFrom pat s i = Z.of_nat i.
Proof. intros H. destruct s; cbn [indexOfFrom]; by rewrite H. Qed.

(** The first token of a list item starts at column 2. *)
Lemma indexOf_first_token name names :
  indexOf (listItem name names) (tokenOf name) = 2%Z.
Proof.
  unfold indexOf, listItem.
  change ("- " +:+ tokenOf name +:+ itemTail names)
    with (String dash (String " " (tokenOf name +:+ itemTail names))).
  unfold tokenOf at 1. cbn [indexOfFrom isPrefix].
  change (Ascii.eqb colon dash) with false.
  change (Ascii.eqb colon " ") with false. cbn [andb].
  fold (tokenOf name). rewrite indexOfFrom_here; [done | apply prefix_app].
Qed.

End ListItems.

(* ===================================================================== *)
(** ** The occurrences of one line of a document *)
(* ===================================================================== *)

Section Lines.
Import Js ConceptExtractor.

Lemma definitionsLoop_app path pre rest i inDef sec :
  definitionsLoop path (pre ++ rest) i inDef sec
  = definitionsLoop path pre i inDef sec
    ++ definitionsLoop path rest (i + length pre)
         (fst (sectionStateAfter pre inDef sec))
         (snd (sectionStateAfter pre inDef sec)).
Proof.
  revert i inDef sec. induction pre as [|l pre IH]; intros i inDef sec.
  - cbn. by rewrite Nat.add_0_r.
  - cbn [app definitionsLoop sectionStateAfter length].
    replace (i + S (length pre)) with (S i + length pre) by lia.
    destruct (isSectionHeader (trim l)); [apply IH|].
    destruct inDef; cbn [negb]; [|apply IH].
    by rewrite IH, app_assoc.
Qed.

Lemma definitionsLoop_bounds path lines i inDef sec o :
  o ∈ definitionsLoop path lines i inDef sec ->
  i <= line o < i + length lines.
Proof.
  intros (l & sec' & Hl & Hle & _)%definitionsLoop_elem.
  apply lookup_lt_Some in Hl. lia.
Qed.

Lemma atLine_app n a b : atLine n (a ++ b) = atLine n a ++ atLine n b.
Proof. apply filter_app. Qed.

Lemma atLine_none n os : (forall o, o ∈ os -> line o <> n) -> atLine n os = [].
Proof.
  intros H. unfold atLine. induction os as [|o os IH]; [done|].
  rewrite filter_cons, decide_False by (apply H; left).
  apply IH. intros o' Ho'. apply H. by right.
Qed.

Lemma atLine_all n os : (forall o, o ∈ os -> line o = n) -> atLine n os = os.
Proof.
  intros H. unfold atLine. induction os as [|o os IH]; [done|].
  rewrite filter_cons, decide_True by (apply H; left).
  f_equal. apply IH. intros o' Ho'. apply H. by right.
Qed.

(** The flag of the loop says whether the current section is the
    definitions section. *)
Lemma sectionStateAfter_flag lines inDef sec :
  inDef = String.eqb sec "definitions" ->
  fst (sectionStateAfter lines inDef sec)
  = String.eqb (snd (sectionStateAfter lines inDef sec)) "definitions".
Proof.
  revert inDef sec. induction lines as [|l lines IH]; intros inDef sec H; [done|].
  cbn [sectionStateAfter]. destruct (isSectionHeader (trim l)); [|by apply IH].
  apply IH. unfold enterSection.
  by destruct (String.eqb (sectionName (trim l)) "definitions"), inDef.
Qed.

Lemma inDefinitionsAfter_section lines :
  inDefinitionsAfter lines = true ->
  snd (sectionStateAfter lines false EmptyString) = "definitions".
Proof.
  unfold inDefinitionsAfter. rewrite sectionStateAfter_flag by done.
  apply String.eqb_eq.
Qed.

(** The definition occurrences recorded for one line of a document: those
    of the line itself, when it lies in a definitions section and is not a
    section marker. *)
Lemma definitions_at_line path text pre l post :
  split_nl text = pre ++ l :: post ->
  atLine (length pre) (extractConceptsFromDefinitions path text)
  = if isSectionHeader (trim l) then []
    else if inDefinitionsAfter pre
         then definitionLine path (length pre) l
                (snd (sectionStateAfter pre false EmptyString))
         else [].
Proof.
  intros Hsplit. unfold extractConceptsFromDefinitions. rewrite Hsplit.
  rewrite definitionsLoop_app, atLine_app. cbn [Nat.add].
  rewrite atLine_none; cycle 1.
  { intros o Ho%definitionsLoop_bounds. lia. }
  cbn [app definitionsLoop]. fold (inDefinitionsAfter pre).
  assert (Hpost : forall inDef sec,
             atLine (length pre)
               (definitionsLoop path post (S (length pre)) inDef sec) = []).
  { intros inDef sec. apply atLine_none.
    intros o Ho%definitionsLoop_bounds. lia. }
  destruct (isSectionHeader (trim l)); [apply Hpost|].
  destruct (inDefinitionsAfter pre); cbn [negb]; [|apply Hpost].
  rewrite atLine_app, Hpost, app_nil_r. apply atLine_all.
  intros o Ho. by apply definitionLine_elem in Ho as (_ & -> & _).
Qed.

(** In a definitions section, the list item [- :name:, :name:] records two
    occurrences of the name, both at column 2. *)
Lemma repeated_item_at_line path text pre post name :
  isConceptName name = true ->
  split_nl text = pre ++ listItem name [name] :: post ->
  inDefinitionsAfter pre = true ->
  atLine (length pre) (extractConceptsFromDefinitions path text)
  = [ mkConcept name path (length pre) 2
        (Some (listItem name [name])) (Some "definitions");
      mkConcept name path (length pre) 2
        (Some (listItem name [name])) (Some "definitions") ].
Proof.
  intros Hname Hsplit Hdef.
  rewrite (definitions_at_line _ _ _ _ _ Hsplit), Hdef.
  rewrite inDefinitionsAfter_section by done.
  assert (Hh : isSectionHeader (trim (listItem name [name])) = false)
    by (by rewrite trim_listItem).
  rewrite Hh, definitionLine_listItem by (by repeat constructor).
  cbn [map]. unfold definitionOf. by rewrite indexOf_first_token.
Qed.

Lemma single_item_at_line path text pre post name :
  isConceptName name = true ->
  split_nl text = pre ++ listItem name [] :: post ->
  inDefinitionsAfter pre = true ->
  atLine (length pre) (extractConceptsFromDefinitions path text)
  = [ mkConcept name path (length pre) 2
        (Some (listItem name [])) (Some "definitions") ].
Proof.
  intros Hname Hsplit Hdef.
  rewrite (definitions_at_line _ _ _ _ _ Hsplit), Hdef.
  rewrite inDefinitionsAfter_section by done.
  assert (Hh : isSectionHeader (trim (listItem name [])) = false)
    by (by rewrite trim_listItem).
  rewrite Hh, definitionLine_listItem by (by repeat constructor).
  cbn [map]. unfold definitionOf. by rewrite indexOf_first_token.
Qed.

End Lines.

Section Claims.
Import Js ConceptExtractor.

(** C6 as stated fails: in a definitions section the list item [- :a:, :a:]
    gives two definition occurrences of [a] from that line, not one. *)
Lemma repeated_name_is_recorded_twice :
  atLine 1 (extractConceptsFromDefinitions "/w/x.plain" repeatedText)
  = [ mkConcept "a" "/w/x.plain" 1 2 (Some "- :a:, :a:") (Some "definitions");
      mkConcept "a" "/w/x.plain" 1 2 (Some "- :a:, :a:") (Some "definitions") ]
  /\ length (atLine 1 (extractConceptsFromDefinitions "/w/x.plain" repeatedText))
     <> 1.
Proof. vm_compute. split; [reflexivity | discriminate]. Qed.

(** C6, amended: definition extraction does not de-duplicate, neither within
    a list item nor across list items.  In a definitions section, the line
    [- :name:, :name:] gives exactly two definition occurrences of the name
    from that line, and two separate list items [- :name:] give one
    occurrence each. *)
Theorem definitions_are_not_deduplicated :
  forall (path text name : string) (pre post : list string),
    isConceptName name = true ->
    inDefinitionsAfter pre = true ->
    (split_nl text = pre ++ listItem name [name] :: post ->
     atLine (length pre) (extractConceptsFromDefinitions path text)
     = [ mkConcept name path (length pre) 2
           (Some (listItem name [name])) (Some "definitions");
         mkConcept name path (length pre) 2
           (Some (listItem name [name])) (Some "definitions") ])
    /\ (forall mid,
          split_nl text = pre ++ listItem name [] :: mid ++ listItem name [] :: post ->
          inDefinitionsAfter (pre ++ listItem name [] :: mid) = true ->
          atLine (length pre) (extractConceptsFromDefinitions path text)
          = [ mkConcept name path (length pre) 2
                (Some (listItem name [])) (Some "definitions") ]
          /\ atLine (length pre + S (length mid))
               (extractConceptsFromDefinitions path text)
             = [ mkConcept name path (length pre + S (length mid)) 2
                   (Some (listItem name [])) (Some "definitions") ]).
Proof.
  intros path text name pre post Hname Hdef. split.
  - intros Hsplit. by eapply repeated_item_at_line.
  - intros mid Hsplit Hdef'. split.
    + by eapply single_item_at_line.
    + replace (length pre + S (length mid))
        with (length (pre ++ listItem name [] :: mid))
        by (rewrite length_app; simpl; lia).
      eapply single_item_at_line; [done | | done].
      rewrite Hsplit. by rewrite <- app_assoc.
Qed.

Lemma definitions_are_not_deduplicated_witness :
  atLine 1 (extractConceptsFromDefinitions "/w/x.plain" repeatedText)
  = [ mkConcept "a" "/w/x.plain" 1 2 (Some "- :a:, :a:") (Some "definitions");
      mkConcept "a" "/w/x.plain" 1 2 (Some "- :a:, :a:") (Some "definitions") ]
  /\ (atLine 1 (extractConceptsFromDefinitions "/w/x.plain" twoItemsText)
      = [ mkConcept "a" "/w/x.plain" 1 2 (Some "- :a:") (Some "definitions") ]
      /\ atLine 2 (extractConceptsFromDefinitions "/w/x.plain" twoItemsText)
         = [ mkConcept "a" "/w/x.plain" 2 2 (Some "- :a:") (Some "definitions") ]).
Proof.
  split.
  - exact (proj1 (definitions_are_not_deduplicated
                    "/w/x.plain" repeatedText "a" ["***definitions***"] []
                    eq_refl eq_refl) eq_refl).
  - exact (proj2 (definitions_are_not_deduplicated
                    "/w/x.plain" twoItemsText "a" ["***definitions***"] []
                    eq_refl eq_refl) [] eq_refl eq_refl).
Defined.

Lemma definition_column_is_first_occurrence_witness :
  Forall (fun o =>
            exists l, split_nl repeatedText !! line o = Some l
                      /\ content o = Some l
                      /\ character o = indexOf l (tokenOf (concept o))
                      /\ firstOccurrence (tokenOf (concept o)) l (character o))
         (extractConceptsFromDefinitions "/w/x.plain" repeatedText)
  /\ character (mkConcept "a" "/w/x.plain" 1 2 (Some "- :a:, :a:")
                          (Some "definitions"))
     = character (mkConcept "a" "/w/x.plain" 1 (indexOf "- :a:, :a:" ":a:")
                            (Some "- :a:, :a:") (Some "definitions")).
Proof.
  split.
  - exact (proj1 (definition_column_is_first_occurrence "/w/x.plain" repeatedText)).
  - exact (proj2 (definition_column_is_first_occurrence "/w/x.plain" repeatedText)
             _ _ (list_elem_of_here _ _)
             (list_elem_of_further _ _ _ (list_elem_of_here _ _))
             eq_refl eq_refl).
Defined.

End Claims.

(* ===================================================================== *)
(** ** Laws of the monad and of its loops *)
(* ===================================================================== *)

Lemma run_eta {A} (r : Run A) : mkRun (awaited r) (completion r) (final r) = r.
Proof. by destruct r. Qed.

Lemma bind_ret {A B} (a : A) (k : A -> M B) st : bind (ret a) k st = k a st.
Proof. unfold bind, ret. simpl. apply run_eta. Qed.

Lemma bind_throw {A B} e (k : A -> M B) st :
  bind (throw e) k st = mkRun [] (Throw e) st.
Proof. reflexivity. Qed.

Lemma forEach_skip {A} (x : A) xs (body : A -> M unit) st :
  body x st = ret tt st ->
  forEach (x :: xs) body st = forEach xs body st.
Proof.
  intros H. simpl. unfold bind. rewrite H. simpl. apply run_eta.
Qed.

Lemma forEach_skip_middle {A} (xs : list A) x ys (body : A -> M unit) st :
  (forall st', body x st' = ret tt st') ->
  forEach (xs ++ x :: ys) body st = forEach (xs ++ ys) body st.
Proof.
  intros H. revert st. induction xs as [|a xs IH]; intros st.
  - by apply forEach_skip.
  - simpl. unfold bind. destruct (completion (body a st)); [|done].
    by rewrite IH.
Qed.

(** A loop of reads: the state is untouched, and the method is suspended
    once per element. *)
Lemma collect_await {A B} (f : A -> B) (xs : list A) st :
  collect xs (fun x => await (Normal (f x))) st
  = mkRun (repeat st (length xs)) (Normal (map f xs)) st.
Proof.
  induction xs as [|x xs IH]; [done|].
  simpl. unfold bind. simpl. rewrite IH. simpl.
  by rewrite app_nil_r.
Qed.

Lemma bind_gets {A B} (f : PreprocessingService -> A) (k : A -> M B) st :
  bind (gets f) k st = k (f st) st.
Proof. unfold bind, gets. simpl. apply run_eta. Qed.

Lemma bind_modify {B} f (k : unit -> M B) st :
  bind (modify f) k st = k tt (f st).
Proof. unfold bind, modify. simpl. apply run_eta. Qed.

Lemma bind_await {A B} (c : Completion A) (k : A -> M B) st :
  bind (await c) k st
  = match c with
    | Normal a =>
        let r := k a st in mkRun (st :: awaited r) (completion r) (final r)
    | Throw e => mkRun [st] (Throw e) st
    end.
Proof. unfold bind, await. by destruct c. Qed.

Lemma bind_collect_await {A B C} (f : A -> B) xs (k : list B -> M C) st :
  bind (collect xs (fun x => await (Normal (f x)))) k st
  = let r := k (map f xs) st in
    mkRun (repeat st (length xs) ++ awaited r) (completion r) (final r).
Proof. unfold bind. by rewrite collect_await. Qed.

Section Steady.
Context (R : relation PreprocessingService) `{!PreOrder R}.

Lemma steady_ret {A} (a : A) : Steady R (ret a).
Proof. intros st. split; [done | reflexivity]. Qed.

Lemma steady_throw {A} e : Steady R (@throw A e).
Proof. intros st. split; [done | reflexivity]. Qed.

Lemma steady_bind {A B} (m : M A) (k : A -> M B) :
  Steady R m -> (forall a, Steady R (k a)) -> Steady R (bind m k).
Proof.
  intros Hm Hk st. destruct (Hm st) as [Ha Hr]. unfold bind.
  destruct (completion (m st)) as [a|e]; simpl; [|done].
  destruct (Hk a (final (m st))) as [Ha' Hr'].
  rewrite Ha, Ha'. split; [done | by etransitivity].
Qed.

Lemma steady_forEach {A} (xs : list A) (body : A -> M unit) :
  (forall x, Steady R (body x)) -> Steady R (forEach xs body).
Proof.
  intros Hb. induction xs as [|x xs IH]; [apply steady_ret|].
  simpl. apply steady_bind; [apply Hb | intros _; apply IH].
Qed.

Hypothesis pushDefined_steady : forall c, Steady R (pushDefined c).
Hypothesis pushUsed_steady : forall c, Steady R (pushUsed c).

Lemma steady_buildConceptIndex results : Steady R (buildConceptIndex results).
Proof.
  unfold buildConceptIndex. apply steady_forEach. intros r.
  destruct (hasError r); [apply steady_ret|].
  apply steady_bind; [|intros _]; by apply steady_forEach.
Qed.

End Steady.

#[local] Instance sameFlag_preorder : PreOrder sameFlag.
Proof. split; [done | intros a b c; unfold sameFlag; congruence]. Qed.

Lemma buildConceptIndex_sameFlag results :
  Steady sameFlag (buildConceptIndex results).
Proof.
  apply steady_buildConceptIndex; [apply _ | |]; intros c st;
    unfold pushDefined, pushUsed, bind, gets; simpl;
    destruct (pushConcept _ c); done.
Qed.

(** The run of the [try] block: one suspension for the scan and one per
    document read, all in the state the block started in. *)
Lemma rebuildTryBlock_run env st :
  rebuildTryBlock env st
  = match scanWorkspace env with
    | Normal (p :: ps) =>
        let b := buildConceptIndex (map (processFile env) (p :: ps)) st in
        mkRun (st :: repeat st (length (p :: ps))) (completion b) (final b)
    | Normal [] => mkRun [st] (Normal tt) st
    | Throw e => mkRun [st] (Throw e) st
    end.
Proof.
  unfold rebuildTryBlock. rewrite bind_await.
  destruct (scanWorkspace env) as [[|p ps]|e]; [done| |done].
  change (length (p :: ps) =? 0) with false. cbv iota.
  rewrite bind_collect_await.
  destruct (buildConceptIndex_sameFlag (map (processFile env) (p :: ps)) st)
    as [Hsync _].
  cbv zeta. rewrite Hsync, app_nil_r. reflexivity.
Qed.

(** A [try] whose handler only logs and whose [finally] releases the
    flag. *)
Lemma tryCatchFinally_release (body : M unit) st :
  tryCatchFinally body (fun _ => ret tt) (setIsIndexing false) st
  = mkRun (awaited (body st)) (Normal tt) (released (final (body st))).
Proof.
  unfold tryCatchFinally.
  destruct (completion (body st)) as [[]|e] eqn:E; simpl;
    rewrite ?E, ?app_nil_r; reflexivity.
Qed.

(** The run of [rebuildIndex] when no rebuild is in progress. *)
Lemma rebuildIndex_idle env st :
  isIndexing st = false ->
  rebuildIndex env st
  = match scanWorkspace env with
    | Normal (p :: ps) =>
        mkRun (rebuildStart st :: repeat (rebuildStart st) (length (p :: ps)))
              (Normal tt)
              (released (final (buildConceptIndex (map (processFile env) (p :: ps))
                                                  (rebuildStart st))))
    | _ => mkRun [rebuildStart st] (Normal tt) (released (rebuildStart st))
    end.
Proof.
  intros Hidle. unfold rebuildIndex. rewrite bind_gets, Hidle.
  unfold setIsIndexing, setDefinedConceptIndex. rewrite !bind_modify.
  cbn [definedConceptIndex usedConceptIndex isIndexing].
  fold (rebuildStart st).
  rewrite tryCatchFinally_release, rebuildTryBlock_run.
  destruct (scanWorkspace env) as [[|p ps]|e]; reflexivity.
Qed.

Lemma rebuildIndex_busy env st :
  isIndexing st = true -> rebuildIndex env st = mkRun [] (Normal tt) st.
Proof.
  intros Hbusy. unfold rebuildIndex, bind, gets. simpl. by rewrite Hbusy.
Qed.

(** Where a rebuild ends: the documents found by the scan are folded into
    the state the rebuild started to work in, whatever happens on the way,
    and the flag is released. *)
Lemma rebuildIndex_idle_final env st :
  isIndexing st = false ->
  completion (rebuildIndex env st) = Normal tt
  /\ final (rebuildIndex env st)
     = released (final (buildConceptIndex (map (processFile env) (scannedFiles env))
                                          (rebuildStart st))).
Proof.
  intros Hidle. rewrite rebuildIndex_idle by done. unfold scannedFiles.
  destruct (scanWorkspace env) as [[|p ps]|e]; done.
Qed.

Lemma Forall_repeat {A} (P : A -> Prop) x n : P x -> Forall P (repeat x n).
Proof. intros Hx. induction n; simpl; by constructor. Qed.

Lemma rebuildIndex_idle_awaited env st :
  isIndexing st = false ->
  exists n, awaited (rebuildIndex env st) = repeat (rebuildStart st) (S n).
Proof.
  intros Hidle. rewrite rebuildIndex_idle by done.
  destruct (scanWorkspace env) as [[|p ps]|e].
  - by exists 0.
  - by exists (length (p :: ps)).
  - by exists 0.
Qed.

Lemma processFile_withFiles env paths path :
  processFile (withFiles env paths) path = processFile env path.
Proof. reflexivity. Qed.

Lemma buildConceptIndex_skips_error before r after st :
  hasError r = true ->
  buildConceptIndex (before ++ r :: after) st
  = buildConceptIndex (before ++ after) st.
Proof.
  intros Hr. unfold buildConceptIndex. apply forEach_skip_middle.
  intros st'. by rewrite Hr.
Qed.

Lemma processFile_read_failure env path e :
  readFileSync env path = Throw e ->
  processFile env path
  = mkResult path [] [] (Some ("Error processing file " +:+ path +:+ ": " +:+ e)).
Proof. intros H. unfold processFile. by rewrite H. Qed.

#[local] Instance usagesExtended_preorder : PreOrder usagesExtended.
Proof.
  split.
  - intros st k l H. exists []. by rewrite app_nil_r.
  - intros a b c Hab Hbc k l H.
    destruct (Hab k l H) as [l1 H1]. destruct (Hbc k _ H1) as [l2 H2].
    exists (l1 ++ l2). by rewrite app_assoc.
Qed.

Lemma pushConcept_extends (index index' : ConceptIndex) c k l :
  pushConcept index c = Normal index' ->
  index !! k = Some l -> exists l', index' !! k = Some (l ++ l').
Proof.
  unfold pushConcept, jsGet. intros Hp Hk.
  destruct (decide (concept c = k)) as [<-|Hne].
  - rewrite Hk in Hp. injection Hp as <-. exists [c]. apply lookup_insert_eq.
  - exists []. rewrite app_nil_r.
    destruct (index !! concept c) as [l0|].
    + injection Hp as <-. by rewrite lookup_insert_ne.
    + destruct (objectPrototypeHas (concept c)); [done|].
      injection Hp as <-. by rewrite lookup_insert_ne.
Qed.

Lemma buildConceptIndex_usagesExtended results :
  Steady usagesExtended (buildConceptIndex results).
Proof.
  apply steady_buildConceptIndex; [apply _ | |]; intros c st;
    unfold pushDefined, pushUsed, bind, gets; simpl.
  - destruct (pushConcept _ c); (split; [done|]);
      intros k l H; exists []; by rewrite app_nil_r.
  - destruct (pushConcept _ c) eqn:E; (split; [done|]).
    + intros k l Hk. simpl. by eapply pushConcept_extends.
    + reflexivity.
Qed.

(** A rebuild never removes a usage occurrence: what the usages index held
    before is still there afterwards, in front of what was folded in. *)
Lemma rebuildIndex_keeps_usages env st k l :
  usedConceptIndex st !! k = Some l ->
  exists l', usedConceptIndex (final (rebuildIndex env st)) !! k = Some (l ++ l').
Proof.
  intros Hk. destruct (isIndexing st) eqn:Hflag.
  - rewrite rebuildIndex_busy by done. exists []. by rewrite app_nil_r.
  - destruct (rebuildIndex_idle_final env st Hflag) as [_ ->].
    destruct (buildConceptIndex_usagesExtended
                (map (processFile env) (scannedFiles env)) (rebuildStart st))
      as [_ Hext].
    apply (Hext k l). exact Hk.
Qed.

(* ===================================================================== *)
(** ** Removing the contributions of a document *)
(* ===================================================================== *)

Section Remove.
Variable path : string.

Lemma keptOccurrences_idem l :
  keptOccurrences path (keptOccurrences path l) = keptOccurrences path l.
Proof.
  unfold keptOccurrences. induction l as [|c l IH]; [done|].
  rewrite filter_cons. case_decide as Hc; [|done].
  rewrite filter_cons. case_decide; [|done]. by rewrite IH.
Qed.

Lemma purgeEntry_idem l :
  purgeEntry path l ≫= purgeEntry path = purgeEntry path l.
Proof.
  destruct (purgeEntry path l) as [k|] eqn:E; simpl; [|done].
  unfold purgeEntry in E.
  destruct (keptOccurrences path l) as [|c k'] eqn:F; [done|].
  injection E as <-. unfold purgeEntry.
  by rewrite <- F, keptOccurrences_idem, F.
Qed.

Lemma purgeEntry_nonempty l : purgeEntry path l <> Some [].
Proof.
  unfold purgeEntry. destruct (keptOccurrences path l); congruence.
Qed.

Lemma removeStep_lookup (index : ConceptIndex) k j :
  removeStep path index k !! j
  = if decide (k = j) then index !! k ≫= purgeEntry path else index !! j.
Proof.
  unfold removeStep, purgeEntry, keptOccurrences.
  destruct (index !! k) as [l|] eqn:Hk.
  - simpl. destruct (filter _ l) as [|c kept] eqn:Hf; simpl.
    + rewrite lookup_delete, lookup_insert. by case_decide.
    + rewrite lookup_insert. by case_decide.
  - case_decide; [subst; by rewrite Hk | done].
Qed.

Lemma removeLoop_lookup keys (index : ConceptIndex) j :
  removeLoop path keys index !! j
  = if decide (j ∈ keys) then index !! j ≫= purgeEntry path else index !! j.
Proof.
  revert index. induction keys as [|k keys IH]; intros index.
  - destruct (decide (j ∈ [])) as [H|_]; [by apply elem_of_nil in H | done].
  - unfold removeLoop in *. simpl. rewrite IH, removeStep_lookup.
    destruct (decide (k = j)) as [->|Hne], (decide (j ∈ keys)) as [Hin|Hnin],
      (decide (j ∈ _ :: keys)) as [Hc|Hc];
      try reflexivity;
      try (exfalso; apply Hc; first [left | right; assumption]; fail).
    + destruct (index !! j) as [l|]; [apply purgeEntry_idem | done].
    + apply elem_of_cons in Hc as [->|?]; contradiction.
Qed.

(** The loop result does not depend on the order in which [for ... in]
    enumerates the keys, as long as every own key is visited. *)
Lemma removeLoop_any_order keys (index : ConceptIndex) j :
  (forall k, is_Some (index !! k) -> k ∈ keys) ->
  removeLoop path keys index !! j = index !! j ≫= purgeEntry path.
Proof.
  intros Hall. rewrite removeLoop_lookup. case_decide as Hin; [done|].
  destruct (index !! j) eqn:E; [|done].
  exfalso. apply Hin, Hall. by rewrite E.
Qed.

Lemma ownKeys_complete (index : ConceptIndex) k :
  is_Some (index !! k) -> k ∈ ownKeys index.
Proof.
  intros [l Hl]. unfold ownKeys. apply list_elem_of_fmap.
  exists (k, l). split; [done|]. by apply elem_of_map_to_list.
Qed.

Lemma removeLoop_ownKeys (index : ConceptIndex) j :
  removeLoop path (ownKeys index) index !! j = index !! j ≫= purgeEntry path.
Proof. apply removeLoop_any_order, ownKeys_complete. Qed.

End Remove.

(** C7: after [removeConceptsFromFile], in each of the two indexes a name is
    bound to what is left of its list once the occurrences of the document
    are filtered out, and the key is gone when nothing is left: no key is
    bound to an empty list. *)
Theorem removeConceptsFromFile_deletes_empty_keys :
  forall (st : PreprocessingService) (path name : string),
    let st' := final (removeConceptsFromFile path st) in
    definedConceptIndex st' !! name
      = definedConceptIndex st !! name ≫= purgeEntry path
    /\ usedConceptIndex st' !! name
      = usedConceptIndex st !! name ≫= purgeEntry path
    /\ definedConceptIndex st' !! name <> Some []
    /\ usedConceptIndex st' !! name <> Some []
    /\ completion (removeConceptsFromFile path st) = Normal tt.
Proof.
  intros st path name. cbn.
  rewrite !removeLoop_ownKeys.
  repeat split.
  - destruct (definedConceptIndex st !! name); [apply purgeEntry_nonempty | done].
  - destruct (usedConceptIndex st !! name); [apply purgeEntry_nonempty | done].
Qed.

Lemma removeConceptsFromFile_deletes_no_more path st :
  noEmptyEntries (final (removeConceptsFromFile path st))
  /\ completion (removeConceptsFromFile path st) = Normal tt.
Proof.
  split; [|done]. split; intros k; cbn; rewrite removeLoop_ownKeys.
  - destruct (definedConceptIndex st !! k); [apply purgeEntry_nonempty | done].
  - destruct (usedConceptIndex st !! k); [apply purgeEntry_nonempty | done].
Qed.

(* ===================================================================== *)
(** ** Rebuilding the index *)
(* ===================================================================== *)

Example rebuild_glossary :
  final (rebuildIndex glossaryEnv emptyService)
  = mkService {[ "a" := [glossaryDefinition] ]} {[ "a" := [glossaryUsage] ]} false.
Proof. vm_compute. reflexivity. Qed.

(** C1: [rebuildIndex] resets the definitions index only.  Rebuilding the
    glossary workspace a second time leaves the old usage occurrence in the
    usages index, next to the re-extracted one, and rebuilding after the
    document was deleted leaves the usage occurrence of the deleted document
    in place, while the definitions index is rebuilt from scratch in both
    cases. *)
Theorem rebuildIndex_leaves_stale_usages :
  let st := final (rebuildIndex glossaryEnv emptyService) in
  usedConceptIndex st !! "a" = Some [glossaryUsage]
  /\ definedConceptIndex (final (rebuildIndex glossaryEnv st)) !! "a"
     = Some [glossaryDefinition]
  /\ usedConceptIndex (final (rebuildIndex glossaryEnv st)) !! "a"
     = Some [glossaryUsage; glossaryUsage]
  /\ definedConceptIndex (final (rebuildIndex emptiedEnv st)) !! "a" = None
  /\ usedConceptIndex (final (rebuildIndex emptiedEnv st)) !! "a"
     = Some [glossaryUsage].
Proof. vm_compute. repeat split. Qed.

(** C9: a request that finds the flag set returns at once and leaves the
    state as it is.  Otherwise the rebuild is suspended at least once, the
    flag is set in every state in which it is suspended (so a request
    arriving there is skipped), it never completes abruptly, and the flag is
    released in the state it leaves, whatever the scan, the reads and the
    folding did. *)
Theorem rebuildIndex_flag_discipline :
  forall (env : Env) (st : PreprocessingService),
    let r := rebuildIndex env st in
    if isIndexing st
    then r = mkRun [] (Normal tt) st
    else awaited r <> []
         /\ Forall (fun s => isIndexing s = true) (awaited r)
         /\ Forall (fun s => forall env',
                       rebuildIndex env' s = mkRun [] (Normal tt) s)
                   (awaited r)
         /\ completion r = Normal tt
         /\ isIndexing (final r) = false.
Proof.
  intros env st r. subst r. destruct (isIndexing st) eqn:Hflag.
  - by apply rebuildIndex_busy.
  - destruct (rebuildIndex_idle_awaited env st Hflag) as [n ->].
    destruct (rebuildIndex_idle_final env st Hflag) as [-> ->].
    repeat split.
    + discriminate.
    + by apply Forall_repeat.
    + apply Forall_repeat. intros env'. by apply rebuildIndex_busy.
Qed.

(** A rebuild whose scan fails, and one whose folding throws half-way: both
    release the flag. *)
Example rebuild_failures_release_the_flag :
  rebuildTryBlock unreadableEnv (rebuildStart emptyService)
  = mkRun [rebuildStart emptyService] (Throw "EACCES") (rebuildStart emptyService)
  /\ isIndexing (final (rebuildIndex unreadableEnv emptyService)) = false
  /\ completion (rebuildTryBlock clashEnv (rebuildStart emptyService))
     = Throw "TypeError: push is not a function"
  /\ usedConceptIndex (final (rebuildIndex clashEnv emptyService)) !! "b"
     = Some [mkConcept "b" "/w/clash.plain" 2 2
               (Some ("  :b: :toString:" +:+ nl)) (Some "")]
  /\ isIndexing (final (rebuildIndex clashEnv emptyService)) = false.
Proof. vm_compute. repeat split. Qed.

(** C8: a document that cannot be read gives a result without defined or
    used concepts and with an error message; folding skips this result, and
    a rebuild over a workspace that contains the document ends as the rebuild
    over the other documents alone does. *)
Theorem read_failure_is_contained :
  forall (env : Env) (path e : string),
    readFileSync env path = Throw e ->
    definedConcepts (processFile env path) = []
    /\ usedConcepts (processFile env path) = []
    /\ hasError (processFile env path) = true
    /\ (forall before after st,
          buildConceptIndex (before ++ processFile env path :: after) st
          = buildConceptIndex (before ++ after) st)
    /\ (forall before after st,
          completion (rebuildIndex (withFiles env (before ++ path :: after)) st)
          = completion (rebuildIndex (withFiles env (before ++ after)) st)
          /\ final (rebuildIndex (withFiles env (before ++ path :: after)) st)
             = final (rebuildIndex (withFiles env (before ++ after)) st)).
Proof.
  intros env path e Hread.
  assert (Herr : hasError (processFile env path) = true)
    by (by rewrite (processFile_read_failure _ _ _ Hread)).
  split; [by rewrite (processFile_read_failure _ _ _ Hread)|].
  split; [by rewrite (processFile_read_failure _ _ _ Hread)|].
  split; [exact Herr|]. split.
  - intros before after st. by apply buildConceptIndex_skips_error.
  - intros before after st. destruct (isIndexing st) eqn:Hflag.
    + by rewrite !rebuildIndex_busy.
    + destruct (rebuildIndex_idle_final (withFiles env (before ++ path :: after))
                  st Hflag) as [-> ->].
      destruct (rebuildIndex_idle_final (withFiles env (before ++ after))
                  st Hflag) as [-> ->].
      split; [done|]. unfold scannedFiles. simpl.
      rewrite !map_app. simpl.
      by rewrite buildConceptIndex_skips_error.
Qed.

Lemma read_failure_is_contained_witness :
  hasError (processFile glossaryEnv "/w/gone.plain") = true
  /\ final (rebuildIndex (withFiles glossaryEnv ["/w/gone.plain"; glossaryPath])
                         emptyService)
     = final (rebuildIndex (withFiles glossaryEnv [glossaryPath]) emptyService).
Proof.
  destruct (read_failure_is_contained glossaryEnv "/w/gone.plain" "ENOENT"
              eq_refl) as (_ & _ & Herr & _ & Hrebuild).
  split; [exact Herr|].
  exact (proj2 (Hrebuild [] [glossaryPath] emptyService)).
Defined.

(** Folding never binds a name to an empty list, so with the removal of a
    document no operation of the service leaves one behind. *)
#[local] Instance noEmptyKept_preorder : PreOrder noEmptyKept.
Proof.
  split; [by intros st H | intros a b c Hab Hbc H; by apply Hbc, Hab].
Qed.

Lemma pushConcept_nonempty (index index' : ConceptIndex) c :
  pushConcept index c = Normal index' ->
  (forall k, index !! k <> Some []) -> forall k, index' !! k <> Some [].
Proof.
  unfold pushConcept, jsGet. intros Hp Hne k.
  assert (Hins : forall l, (<[concept c := l ++ [c]]> index) !! k <> Some []).
  { intros l. destruct (decide (concept c = k)) as [<-|Hk].
    - rewrite lookup_insert_eq. by destruct l.
    - rewrite lookup_insert_ne by done. apply Hne. }
  destruct (index !! concept c) as [l|].
  - injection Hp as <-. apply Hins.
  - destruct (objectPrototypeHas (concept c)); [done|].
    injection Hp as <-. apply (Hins []).
Qed.

Lemma buildConceptIndex_noEmptyKept results :
  Steady noEmptyKept (buildConceptIndex results).
Proof.
  apply steady_buildConceptIndex; [apply _ | |]; intros c st;
    unfold pushDefined, pushUsed, bind, gets; simpl;
    destruct (pushConcept _ c) eqn:E; (split; [done|]); try (by intros H);
    intros [Hd Hu]; split; simpl; try done; by eapply pushConcept_nonempty.
Qed.

Lemma processFileUpdate_noEmpty env path st :
  noEmptyEntries st -> noEmptyEntries (final (processFileUpdate env path st)).
Proof.
  intros Hst. unfold processFileUpdate.
  destruct (negb (Js.endsWith path ".plain")); [done|].
  unfold bind at 1.
  destruct (removeConceptsFromFile_deletes_no_more path st) as (Hn & Hc).
  rewrite Hc. cbn [completion final awaited]. rewrite bind_await.
  cbn [completion final awaited].
  by apply (buildConceptIndex_noEmptyKept [processFile env path]).
Qed.

Lemma rebuildIndex_noEmpty env st :
  noEmptyEntries st -> noEmptyEntries (final (rebuildIndex env st)).
Proof.
  intros [Hd Hu]. destruct (isIndexing st) eqn:Hflag.
  - by rewrite rebuildIndex_busy.
  - destruct (rebuildIndex_idle_final env st Hflag) as [_ ->].
    apply (buildConceptIndex_noEmptyKept
             (map (processFile env) (scannedFiles env)) (rebuildStart st)).
    split; [|done]. intros k. cbn [rebuildStart definedConceptIndex].
    by rewrite lookup_empty.
Qed.

(* ===================================================================== *)
(** ** Rename plans *)
(* ===================================================================== *)

Section Rename.
Import RenameProvider.

Lemma span_allChars p s :
  Js.span p s = (s, EmptyString) <-> allChars p s = true.
Proof.
  induction s as [|c s IH]; simpl; [done|].
  destruct (p c); simpl.
  - destruct (Js.span p s) as [a b]. rewrite <- IH. split.
    + by intros [= -> ->].
    + by intros [= -> ->].
  - split; [intros [=] | done].
Qed.

Lemma span_rest_nonempty p s a b :
  Js.span p s = (a, b) -> allChars p s = false -> b <> EmptyString.
Proof.
  revert a. induction s as [|c s IH]; intros a; simpl; [done|].
  destruct (p c); simpl.
  - destruct (Js.span p s) as [a' b'] eqn:E. intros [= <- <-] H. by eapply IH.
  - by intros [= <- <-] _.
Qed.

(** The test of the new name accepts the non-empty names over the
    alphabet. *)
Lemma validName_spec newName :
  validName newName = negb (String.eqb newName EmptyString) && inAlphabet newName.
Proof.
  unfold validName, inAlphabet.
  destruct (allChars Js.isConceptChar newName) eqn:E.
  - apply span_allChars in E. rewrite E. by destruct newName.
  - destruct (Js.span Js.isConceptChar newName) as [a b] eqn:S.
    pose proof (span_rest_nonempty _ _ _ _ S E).
    rewrite andb_false_r. destruct a, b; done.
Qed.

Lemma groupPush_keys groups u :
  (groupPush groups u).*1
  = if decide (filePath u ∈ groups.*1) then groups.*1
    else groups.*1 ++ [filePath u].
Proof.
  induction groups as [|[p g] groups IH]; [done|].
  cbn [groupPush]. destruct (String.eqb p (filePath u)) eqn:E;
    rewrite !fmap_cons; cbn [fst].
  - apply String.eqb_eq in E as ->.
    rewrite decide_True; [done | left].
  - apply String.eqb_neq in E. rewrite IH.
    destruct (decide (filePath u ∈ groups.*1)) as [Hin|Hnin].
    + rewrite decide_True; [done | by right].
    + rewrite decide_False; [done|].
      intros [?|?]%elem_of_cons; congruence.
Qed.

Lemma groupPush_entries groups u p g :
  NoDup groups.*1 ->
  (p, g) ∈ groupPush groups u ->
  (p <> filePath u /\ (p, g) ∈ groups)
  \/ (p = filePath u
      /\ ((exists g0, (p, g0) ∈ groups /\ g = g0 ++ [u])
          \/ ((p ∉ groups.*1) /\ g = [u]))).
Proof.
  induction groups as [|[q h] groups IH]; simpl; intros Hnd Hin.
  - apply list_elem_of_singleton in Hin as [= -> ->].
    right. split; [done|]. right. split; [apply not_elem_of_nil | done].
  - apply NoDup_cons in Hnd as [Hq Hnd].
    destruct (String.eqb q (filePath u)) eqn:E.
    + apply String.eqb_eq in E as ->.
      apply elem_of_cons in Hin as [[= -> ->]|Hin].
      * right. split; [done|]. left. exists h. split; [left | done].
      * left. split; [|by right].
        intros ->. apply Hq. apply list_elem_of_fmap. by exists (filePath u, g).
    + apply String.eqb_neq in E.
      apply elem_of_cons in Hin as [[= -> ->]|Hin].
      * left. split; [done | left].
      * destruct (IH Hnd Hin) as [[Hne Hg]|[-> [[g0 [Hg0 ->]]|[Hnin ->]]]].
        -- left. split; [done | by right].
        -- right. split; [done|]. left. exists g0. split; [by right | done].
        -- right. split; [done|]. right. split; [|done].
           intros [?|?]%elem_of_cons; [simpl in *; congruence | contradiction].
Qed.

Lemma occurrencesIn_snoc p us u :
  occurrencesIn p (us ++ [u])
  = occurrencesIn p us ++ (if decide (filePath u = p) then [u] else []).
Proof.
  unfold occurrencesIn. by rewrite filter_app.
Qed.

Lemma occurrencesIn_none p us :
  (forall u, u ∈ us -> filePath u <> p) -> occurrencesIn p us = [].
Proof.
  intros H. unfold occurrencesIn. induction us as [|u us IH]; [done|].
  rewrite filter_cons. rewrite decide_False by (apply H; left).
  apply IH. intros u' Hu'. apply H. by right.
Qed.

Lemma groupPush_grouped groups us u :
  Grouped groups us -> Grouped (groupPush groups u) (us ++ [u]).
Proof.
  intros (Hnd & Hcover & Hentries). repeat split.
  - rewrite groupPush_keys. case_decide as Hin; [done|].
    apply NoDup_app. repeat split; [done | | apply NoDup_singleton].
    intros x Hx ->%list_elem_of_singleton. done.
  - intros u' Hu'. rewrite groupPush_keys.
    apply elem_of_app in Hu' as [Hu'| ->%list_elem_of_singleton].
    + case_decide; [by apply Hcover|]. apply elem_of_app. left. by apply Hcover.
    + case_decide; [done|]. apply elem_of_app. right. left.
  - destruct (groupPush_entries _ _ _ _ Hnd H)
      as [[Hne Hg]|[-> [[g0 [Hg0 ->]]|[Hnin ->]]]];
      rewrite occurrencesIn_snoc.
    + rewrite decide_False by done. rewrite app_nil_r.
      apply (proj1 (Hentries _ _ Hg)).
    + rewrite decide_True by done. f_equal.
      apply (proj1 (Hentries _ _ Hg0)).
    + rewrite decide_True by done. rewrite occurrencesIn_none; [done|].
      intros u' Hu' Heq. apply Hnin. rewrite <- Heq. by apply Hcover.
  - destruct (groupPush_entries _ _ _ _ Hnd H)
      as [[Hne Hg]|[-> [[g0 [Hg0 ->]]|[Hnin ->]]]].
    + apply (proj2 (Hentries _ _ Hg)).
    + by destruct g0.
    + done.
Qed.

Lemma groupByFile_grouped us : Grouped (groupByFile us) us.
Proof.
  unfold groupByFile.
  assert (H : forall us' groups seen,
             Grouped groups seen ->
             Grouped (foldl groupPush groups us') (seen ++ us')).
  { induction us' as [|u us' IH]; intros groups seen Hg; simpl.
    - by rewrite app_nil_r.
    - rewrite (cons_middle u seen us'), app_assoc. apply IH.
      by apply groupPush_grouped. }
  apply (H us [] []). repeat split.
  - constructor.
  - intros u Hu. by apply elem_of_nil in Hu.
  - by apply elem_of_nil in H0.
  - by apply elem_of_nil in H0.
Qed.

End Rename.

Section RenamePlan.
Import RenameProvider.

Lemma keys_map_groups {A B C} (h : B -> C) (l : list (A * B)) :
  (map (fun '(p, g) => (p, h g)) l).*1 = l.*1.
Proof.
  induction l as [|[p g] l IH]; [done|].
  rewrite map_cons, !fmap_cons. cbn [fst]. by rewrite IH.
Qed.

Lemma renameEdit_replacement oldName newName u :
  renameEdit oldName newName u = replacement oldName newName u.
Proof. reflexivity. Qed.

(** C5 as stated fails for the empty new name: it has no character outside
    the alphabet and [foo] has a usage occurrence, yet the operation is
    rejected and no replacement is emitted. *)
Lemma rename_to_empty_name_is_rejected :
  inAlphabet "" = true
  /\ usedConceptIndex fooService !! "foo" = Some [fooUsage]
  /\ provideRenameEdits (Some "foo") "" (Some fooService)
     = Thrown invalidNameMessage
  /\ ~ (exists batches,
          provideRenameEdits (Some "foo") "" (Some fooService) = Edits batches).
Proof.
  repeat split; try reflexivity. intros [batches H]. discriminate H.
Qed.

(** C5, amended: the new name is accepted exactly when it is non-empty and
    has no character outside the alphabet.  A name that is not accepted is
    rejected whatever the service holds.  With an accepted name and a
    non-empty list of usage occurrences of the old name, the plan has one
    batch per document with an occurrence, and the batch of a document holds,
    for each of its occurrences in order, the replacement on the line of the
    occurrence from column + 1 to column + 1 + length of the old name by the
    new name.  Without usage occurrences no replacement is produced. *)
Theorem provideRenameEdits_plan :
  forall (oldName newName : string) (st : PreprocessingService),
    validName newName
    = negb (String.eqb newName EmptyString) && inAlphabet newName
    /\ if validName newName
       then
         match usedConceptIndex st !! oldName with
         | Some [] =>
             provideRenameEdits (Some oldName) newName (Some st) = Undefined
         | Some usages =>
             exists batches,
               provideRenameEdits (Some oldName) newName (Some st) = Edits batches
               /\ NoDup batches.*1
               /\ (forall u, u ∈ usages -> filePath u ∈ batches.*1)
               /\ (forall p edits,
                     (p, edits) ∈ batches ->
                     edits = map (replacement oldName newName)
                                 (occurrencesIn p usages)
                     /\ edits <> [])
         | None =>
             forall w,
               provideRenameEdits (Some oldName) newName (Some st) <> Edits w
         end
       else
         forall service,
           provideRenameEdits (Some oldName) newName service
           = Thrown invalidNameMessage.
Proof.
  intros oldName newName st. split; [apply validName_spec|].
  unfold provideRenameEdits. destruct (validName newName); [|done].
  cbn [negb]. unfold findConceptUsage, jsGet.
  destruct (usedConceptIndex st !! oldName) as [[|u us]|]; [done| |].
  - cbn [orEmptyArray lengthIsZero length Nat.eqb].
    destruct (groupByFile_grouped (u :: us)) as (Hnd & Hcover & Hentries).
    set (f := fun '(p, group) => (p, map (renameEdit oldName newName) group)).
    assert (Hkeys : (map f (groupByFile (u :: us))).*1 = (groupByFile (u :: us)).*1)
      by apply keys_map_groups.
    exists (map f (groupByFile (u :: us))). split; [done|].
    rewrite Hkeys. repeat split; [done | done | |].
    + apply list_elem_of_In, in_map_iff in H as [[q g] [[= <- <-] Hin]].
      apply list_elem_of_In in Hin. by rewrite (proj1 (Hentries _ _ Hin)).
    + apply list_elem_of_In, in_map_iff in H as [[q g] [[= <- <-] Hin]].
      apply list_elem_of_In in Hin. pose proof (proj2 (Hentries _ _ Hin)).
      by destruct g.
  - intros w. destruct (objectPrototypeHas oldName);
      cbn [orEmptyArray lengthIsZero length Nat.eqb]; [|done].
    by destruct (existsb (String.eqb oldName) _).
Qed.

Lemma provideRenameEdits_plan_witness :
  exists batches,
    provideRenameEdits (Some "foo") "bar" (Some fooService) = Edits batches
    /\ NoDup batches.*1
    /\ (forall u, u ∈ [fooUsage] -> filePath u ∈ batches.*1)
    /\ (forall p edits,
          (p, edits) ∈ batches ->
          edits = map (replacement "foo" "bar") (occurrencesIn p [fooUsage])
          /\ edits <> []).
Proof. exact (proj2 (provideRenameEdits_plan "foo" "bar" fooService)). Defined.

(** The rename example: one usage of [foo] at line 2, column 5 of document
    X gives one batch for X that replaces columns 6 to 9 of line 2. *)
Example rename_foo_to_bar :
  provideRenameEdits (Some "foo") "bar" (Some fooService)
  = Edits [("/w/x.plain", [mkTextEdit (mkRange 2 6 2 9) "bar"])]
  /\ provideRenameEdits (Some "foo") "barbaz!" (Some fooService)
     = Thrown invalidNameMessage.
Proof. split; reflexivity. Qed.

End RenamePlan.


(* ===================================================================== *)
(** ** Folding results into the index *)
(* ===================================================================== *)

Section Folding.

Lemma pushConcept_append (index : ConceptIndex) c :
  objectPrototypeHas (concept c) = false ->
  pushConcept index c = Normal (appendConcept index c).
Proof.
  intros Hc. unfold pushConcept, jsGet, appendConcept, entriesOf.
  destruct (index !! concept c); [done|]. by rewrite Hc.
Qed.

Lemma entriesOf_appendConcept (index : ConceptIndex) c k :
  entriesOf (appendConcept index c) k
  = entriesOf index k ++ (if decide (concept c = k) then [c] else []).
Proof.
  unfold appendConcept, entriesOf at 1. destruct (decide (concept c = k)) as [<-|Hne].
  - by rewrite lookup_insert_eq.
  - rewrite lookup_insert_ne by done. by rewrite app_nil_r.
Qed.

Lemma entriesOf_foldl cs (index : ConceptIndex) k :
  entriesOf (foldl appendConcept index cs) k = entriesOf index k ++ named k cs.
Proof.
  revert index. induction cs as [|c cs IH]; intros index.
  - by rewrite app_nil_r.
  - cbn [foldl]. rewrite IH, entriesOf_appendConcept. unfold named.
    rewrite filter_cons. rewrite <- app_assoc. by case_decide.
Qed.

Lemma bind_sync {A B} (m : M A) (k : A -> M B) st a st1 :
  m st = mkRun [] (Normal a) st1 -> bind m k st = k a st1.
Proof. intros H. unfold bind. rewrite H. simpl. apply run_eta. Qed.

Lemma pushDefined_run c st :
  objectPrototypeHas (concept c) = false ->
  pushDefined c st
  = mkRun [] (Normal tt)
          (mkService (appendConcept (definedConceptIndex st) c)
                     (usedConceptIndex st) (isIndexing st)).
Proof.
  intros Hc. unfold pushDefined. rewrite bind_gets.
  by rewrite (pushConcept_append _ _ Hc).
Qed.

Lemma pushUsed_run c st :
  objectPrototypeHas (concept c) = false ->
  pushUsed c st
  = mkRun [] (Normal tt)
          (mkService (definedConceptIndex st)
                     (appendConcept (usedConceptIndex st) c) (isIndexing st)).
Proof.
  intros Hc. unfold pushUsed. rewrite bind_gets.
  by rewrite (pushConcept_append _ _ Hc).
Qed.

Lemma forEach_pushDefined cs st :
  noCollision cs ->
  forEach cs pushDefined st
  = mkRun [] (Normal tt)
          (mkService (foldl appendConcept (definedConceptIndex st) cs)
                     (usedConceptIndex st) (isIndexing st)).
Proof.
  intros H. revert st. induction H as [|c cs Hc _ IH]; intros st.
  - by destruct st.
  - cbn [forEach foldl]. rewrite (bind_sync _ _ _ _ _ (pushDefined_run c st Hc)).
    by rewrite IH.
Qed.

Lemma forEach_pushUsed cs st :
  noCollision cs ->
  forEach cs pushUsed st
  = mkRun [] (Normal tt)
          (mkService (definedConceptIndex st)
                     (foldl appendConcept (usedConceptIndex st) cs)
                     (isIndexing st)).
Proof.
  intros H. revert st. induction H as [|c cs Hc _ IH]; intros st.
  - by destruct st.
  - cbn [forEach foldl]. rewrite (bind_sync _ _ _ _ _ (pushUsed_run c st Hc)).
    by rewrite IH.
Qed.

Lemma allDefined_cons r rs :
  allDefined (r :: rs)
  = (if hasError r then [] else definedConcepts r) ++ allDefined rs.
Proof.
  unfold allDefined, readable. rewrite filter_cons.
  destruct (hasError r); [by rewrite decide_False | by rewrite decide_True].
Qed.

Lemma allUsed_cons r rs :
  allUsed (r :: rs)
  = (if hasError r then [] else usedConcepts r) ++ allUsed rs.
Proof.
  unfold allUsed, readable. rewrite filter_cons.
  destruct (hasError r); [by rewrite decide_False | by rewrite decide_True].
Qed.

(** Without a name that collides with a member of [Object.prototype],
    folding is a left fold of [appendConcept] over the occurrences of the
    results that carry no error. *)
Lemma buildConceptIndex_run results st :
  noCollision (allDefined results) -> noCollision (allUsed results) ->
  buildConceptIndex results st
  = mkRun [] (Normal tt)
          (mkService
             (foldl appendConcept (definedConceptIndex st) (allDefined results))
             (foldl appendConcept (usedConceptIndex st) (allUsed results))
             (isIndexing st)).
Proof.
  revert st. induction results as [|r rs IH]; intros st Hd Hu.
  - by destruct st.
  - rewrite allDefined_cons in Hd |- *. rewrite allUsed_cons in Hu |- *.
    apply Forall_app in Hd as [Hd1 Hd2]. apply Forall_app in Hu as [Hu1 Hu2].
    unfold buildConceptIndex in *. cbn [forEach].
    destruct (hasError r).
    + rewrite bind_ret. by rewrite IH.
    + erewrite bind_sync; cycle 1.
      { erewrite bind_sync; [|by apply forEach_pushDefined].
        by apply forEach_pushUsed. }
      rewrite IH by done.
      cbn [definedConceptIndex usedConceptIndex isIndexing].
      by rewrite !foldl_app.
Qed.

(** X1: when no occurrence is named like a member of [Object.prototype],
    [buildConceptIndex] completes without suspension and, for every name,
    extends the list of the name in each index by the occurrences of that
    name held by the results without error, in order; the flag is left as it
    is. *)
Theorem buildConceptIndex_appends_per_name :
  forall (results : list FileProcessingResult) (st : PreprocessingService),
    noCollision (allDefined results) ->
    noCollision (allUsed results) ->
    let r := buildConceptIndex results st in
    awaited r = [] /\ completion r = Normal tt
    /\ isIndexing (final r) = isIndexing st
    /\ forall name,
         entriesOf (definedConceptIndex (final r)) name
         = entriesOf (definedConceptIndex st) name
           ++ named name (allDefined results)
         /\ entriesOf (usedConceptIndex (final r)) name
            = entriesOf (usedConceptIndex st) name
              ++ named name (allUsed results).
Proof.
  intros results st Hd Hu r. subst r. rewrite buildConceptIndex_run by done.
  cbn [completion final awaited definedConceptIndex usedConceptIndex isIndexing].
  repeat split; apply entriesOf_foldl.
Qed.

End Folding.

Lemma buildConceptIndex_appends_per_name_witness :
  let r := buildConceptIndex [processFile glossaryEnv glossaryPath] emptyService in
  awaited r = [] /\ completion r = Normal tt
  /\ isIndexing (final r) = isIndexing emptyService
  /\ forall name,
       entriesOf (definedConceptIndex (final r)) name
       = entriesOf (definedConceptIndex emptyService) name
         ++ named name (allDefined [processFile glossaryEnv glossaryPath])
       /\ entriesOf (usedConceptIndex (final r)) name
          = entriesOf (usedConceptIndex emptyService) name
            ++ named name (allUsed [processFile glossaryEnv glossaryPath]).
Proof.
  apply (buildConceptIndex_appends_per_name
           [processFile glossaryEnv glossaryPath] emptyService);
    vm_compute; repeat constructor.
Defined.

(* ===================================================================== *)
(** ** What the extractors record *)
(* ===================================================================== *)

Section Recorded.
Import Js ConceptExtractor.

(** Every usage occurrence comes from the scan of a text of indented
    lines. *)
Lemma specTextLoop_scanned path lines i sec text n o :
  o ∈ specTextLoop path lines i sec text n ->
  exists n' text' sec', o ∈ scanSpecText path n' text' sec'.
Proof.
  revert i sec text n. induction lines as [|l lines IH]; intros i sec text n.
  - intros H. by apply elem_of_nil in H.
  - cbn [specTextLoop].
    destruct (isSectionHeader (trim l)); [apply IH|].
    destruct (hasIndentation l); [apply IH|].
    intros [Ho|Ho]%elem_of_app; [by exists i, text, sec | by eapply IH].
Qed.

Lemma usage_recorded path text o :
  o ∈ extractConceptsFromSpecText path text ->
  filePath o = path
  /\ exists scanned i,
       content o = Some scanned /\ character o = Z.of_nat i
       /\ occursAt (tokenOf (concept o)) scanned i = true.
Proof.
  intros (n & scanned & sec & Ho)%specTextLoop_scanned.
  destruct (scanSpecText_spec path n scanned sec) as (_ & H & _).
  destruct (H o Ho) as (Hp & _ & Hc & _ & i & Hi & Hocc).
  split; [done|]. by exists scanned, i.
Qed.

Lemma definition_recorded path text o :
  o ∈ extractConceptsFromDefinitions path text ->
  filePath o = path
  /\ exists l, split_nl text !! line o = Some l
               /\ content o = Some l
               /\ firstOccurrence (tokenOf (concept o)) l (character o).
Proof.
  intros (l & sec & Hl & _ & Ho)%definitionsLoop_elem.
  rewrite Nat.sub_0_r in Hl.
  apply definitionLine_elem in Ho as (Hp & _ & Hc & _ & _ & Hf).
  split; [done|]. by exists l.
Qed.

Lemma extracted_filePath env path :
  Forall (fun o => filePath o = path) (definedConcepts (processFile env path))
  /\ Forall (fun o => filePath o = path) (usedConcepts (processFile env path)).
Proof.
  unfold processFile. destruct (readFileSync env path); cbn; [|by split].
  split; apply Forall_forall; intros o Ho.
  - by apply definition_recorded in Ho as [? _].
  - by apply usage_recorded in Ho as [? _].
Qed.

End Recorded.

(* ===================================================================== *)
(** ** Updating one document *)
(* ===================================================================== *)

Section Update.

Lemma entriesOf_purged path (index : ConceptIndex) name :
  entriesOf (removeLoop path (ownKeys index) index) name
  = keptOccurrences path (entriesOf index name).
Proof.
  unfold entriesOf. rewrite removeLoop_ownKeys.
  destruct (index !! name) as [l|]; [|done].
  change (default [] (purgeEntry path l) = keptOccurrences path l).
  unfold purgeEntry. by destruct (keptOccurrences path l).
Qed.

Lemma occurrencesIn_kept path l : occurrencesIn path (keptOccurrences path l) = [].
Proof.
  apply occurrencesIn_none. unfold keptOccurrences.
  by intros u [Hu _]%list_elem_of_filter.
Qed.

Lemma occurrencesIn_all path l :
  Forall (fun o => filePath o = path) l -> occurrencesIn path l = l.
Proof.
  unfold occurrencesIn. induction 1 as [|o l Ho _ IH]; [done|].
  by rewrite filter_cons, decide_True, IH.
Qed.

Lemma occurrencesIn_app path a b :
  occurrencesIn path (a ++ b) = occurrencesIn path a ++ occurrencesIn path b.
Proof. apply filter_app. Qed.

Lemma named_Forall (P : ConceptDefinition -> Prop) name l :
  Forall P l -> Forall P (named name l).
Proof.
  intros H. apply Forall_forall. intros o [_ Ho]%list_elem_of_filter.
  rewrite Forall_forall in H. by apply H.
Qed.

Lemma removeConceptsFromFile_final path st :
  final (removeConceptsFromFile path st)
  = mkService
      (removeLoop path (ownKeys (definedConceptIndex st)) (definedConceptIndex st))
      (removeLoop path (ownKeys (usedConceptIndex st)) (usedConceptIndex st))
      (isIndexing st).
Proof. reflexivity. Qed.

(** The run of an update of a [.plain] document: the removal, one
    suspension for the read, the folding of the one result. *)
Lemma processFileUpdate_run env path st :
  Js.endsWith path ".plain" = true ->
  processFileUpdate env path st
  = let st1 := final (removeConceptsFromFile path st) in
    let b := buildConceptIndex [processFile env path] st1 in
    mkRun (st1 :: awaited b) (completion b) (final b).
Proof.
  intros Hext. unfold processFileUpdate. rewrite Hext. cbn [negb].
  erewrite bind_sync by reflexivity. by rewrite bind_await.
Qed.

(** X2: an update of a readable [.plain] document whose names do not
    collide with members of [Object.prototype] replaces the occurrences of
    the document as a unit, in both indexes: for every name, the list is the
    old list without the occurrences of the document, followed by the fresh
    occurrences of that name; so the occurrences of the document found in the
    index afterwards are exactly the freshly extracted ones. *)
Theorem processFileUpdate_replaces_document :
  forall (env : Env) (path text : string) (st : PreprocessingService),
    Js.endsWith path ".plain" = true ->
    readFileSync env path = Normal text ->
    noCollision (ConceptExtractor.extractConceptsFromDefinitions path text) ->
    noCollision (ConceptExtractor.extractConceptsFromSpecText path text) ->
    let r := processFileUpdate env path st in
    completion r = Normal tt
    /\ forall name,
         let defined := entriesOf (definedConceptIndex (final r)) name in
         let used := entriesOf (usedConceptIndex (final r)) name in
         defined
         = keptOccurrences path (entriesOf (definedConceptIndex st) name)
           ++ named name (ConceptExtractor.extractConceptsFromDefinitions path text)
         /\ used
            = keptOccurrences path (entriesOf (usedConceptIndex st) name)
              ++ named name (ConceptExtractor.extractConceptsFromSpecText path text)
         /\ occurrencesIn path defined
            = named name (ConceptExtractor.extractConceptsFromDefinitions path text)
         /\ occurrencesIn path used
            = named name (ConceptExtractor.extractConceptsFromSpecText path text).
Proof.
  intros env path text st Hext Hread Hd Hu r. subst r.
  rewrite processFileUpdate_run by done. cbv zeta.
  pose proof (extracted_filePath env path) as [Hpd Hpu].
  assert (Hres : processFile env path
                 = mkResult path
                     (ConceptExtractor.extractConceptsFromDefinitions path text)
                     (ConceptExtractor.extractConceptsFromSpecText path text) None)
    by (unfold processFile; by rewrite Hread).
  rewrite Hres in *. cbn [definedConcepts usedConcepts] in Hpd, Hpu.
  assert (Had : allDefined
                  [mkResult path
                     (ConceptExtractor.extractConceptsFromDefinitions path text)
                     (ConceptExtractor.extractConceptsFromSpecText path text) None]
                = ConceptExtractor.extractConceptsFromDefinitions path text)
    by (rewrite allDefined_cons; cbn; by rewrite app_nil_r).
  assert (Hau : allUsed
                  [mkResult path
                     (ConceptExtractor.extractConceptsFromDefinitions path text)
                     (ConceptExtractor.extractConceptsFromSpecText path text) None]
                = ConceptExtractor.extractConceptsFromSpecText path text)
    by (rewrite allUsed_cons; cbn; by rewrite app_nil_r).
  rewrite buildConceptIndex_run by (by rewrite ?Had, ?Hau).
  cbn [completion final awaited definedConceptIndex usedConceptIndex].
  split; [done|]. intros name. cbv zeta.
  rewrite !entriesOf_foldl, Had, Hau.
  cbn [removeConceptsFromFile]. cbn.
  rewrite !entriesOf_purged.
  rewrite !occurrencesIn_app, !occurrencesIn_kept.
  rewrite !occurrencesIn_all by (by apply named_Forall).
  done.
Qed.

Lemma processFileUpdate_replaces_document_witness :
  let r := processFileUpdate glossaryEnv glossaryPath emptyService in
  completion r = Normal tt
  /\ forall name,
       let defined := entriesOf (definedConceptIndex (final r)) name in
       let used := entriesOf (usedConceptIndex (final r)) name in
       defined
       = keptOccurrences glossaryPath
           (entriesOf (definedConceptIndex emptyService) name)
         ++ named name (ConceptExtractor.extractConceptsFromDefinitions
                          glossaryPath glossaryText)
       /\ used
          = keptOccurrences glossaryPath
              (entriesOf (usedConceptIndex emptyService) name)
            ++ named name (ConceptExtractor.extractConceptsFromSpecText
                             glossaryPath glossaryText)
       /\ occurrencesIn glossaryPath defined
          = named name (ConceptExtractor.extractConceptsFromDefinitions
                          glossaryPath glossaryText)
       /\ occurrencesIn glossaryPath used
          = named name (ConceptExtractor.extractConceptsFromSpecText
                          glossaryPath glossaryText).
Proof.
  apply (processFileUpdate_replaces_document
           glossaryEnv glossaryPath glossaryText emptyService);
    vm_compute; repeat constructor.
Defined.

(** X3: an update of a [.plain] document that cannot be read (deleted,
    say) only purges: it completes normally, every entry loses the
    occurrences of the document, a name left without occurrence loses its
    key, and no occurrence of the document remains in either index. *)
Theorem processFileUpdate_purges_unreadable :
  forall (env : Env) (path e : string) (st : PreprocessingService),
    Js.endsWith path ".plain" = true ->
    readFileSync env path = Throw e ->
    let r := processFileUpdate env path st in
    completion r = Normal tt
    /\ forall name,
         definedConceptIndex (final r) !! name
         = definedConceptIndex st !! name ≫= purgeEntry path
         /\ usedConceptIndex (final r) !! name
            = usedConceptIndex st !! name ≫= purgeEntry path
         /\ occurrencesIn path (entriesOf (definedConceptIndex (final r)) name) = []
         /\ occurrencesIn path (entriesOf (usedConceptIndex (final r)) name) = [].
Proof.
  intros env path e st Hext Hread r. subst r.
  rewrite processFileUpdate_run by done. cbv zeta.
  rewrite (processFile_read_failure _ _ _ Hread).
  rewrite (buildConceptIndex_skips_error []
             (mkResult path [] []
                (Some ("Error processing file " +:+ path +:+ ": " +:+ e)))
             [] _ eq_refl).
  cbn [app buildConceptIndex forEach ret completion final awaited].
  split; [done|]. intros name. rewrite removeConceptsFromFile_final.
  cbn [definedConceptIndex usedConceptIndex].
  by rewrite !entriesOf_purged, !occurrencesIn_kept, !removeLoop_ownKeys.
Qed.

End Update.

Lemma processFileUpdate_purges_unreadable_witness :
  let st := final (rebuildIndex glossaryEnv emptyService) in
  let r := processFileUpdate emptiedEnv glossaryPath st in
  completion r = Normal tt
  /\ forall name,
       definedConceptIndex (final r) !! name
       = definedConceptIndex st !! name ≫= purgeEntry glossaryPath
       /\ usedConceptIndex (final r) !! name
          = usedConceptIndex st !! name ≫= purgeEntry glossaryPath
       /\ occurrencesIn glossaryPath
            (entriesOf (definedConceptIndex (final r)) name) = []
       /\ occurrencesIn glossaryPath
            (entriesOf (usedConceptIndex (final r)) name) = [].
Proof.
  exact (processFileUpdate_purges_unreadable
           emptiedEnv glossaryPath "ENOENT"
           (final (rebuildIndex glossaryEnv emptyService)) eq_refl eq_refl).
Defined.

(* ===================================================================== *)
(** ** Invariants of the index *)
(* ===================================================================== *)

Section Invariants.

#[local] Instance invariantKept_preorder : PreOrder invariantKept.
Proof.
  split; [by intros st H | intros a b c Hab Hbc H; by apply Hbc, Hab].
Qed.

Lemma pushConcept_wellKeyed (index index' : ConceptIndex) c :
  pushConcept index c = Normal index' ->
  wellKeyedIndex index -> wellKeyedIndex index'.
Proof.
  unfold pushConcept, jsGet. intros Hp Hwk k l.
  assert (Hins : forall l0, (forall l1, index !! concept c = Some l1 -> l0 = l1)
                            -> Forall (fun x => concept x = concept c) l0
                            -> (<[concept c := l0 ++ [c]]> index) !! k = Some l
                            -> Forall (fun x => concept x = k) l).
  { intros l0 _ Hl0. destruct (decide (concept c = k)) as [<-|Hk].
    - rewrite lookup_insert_eq. intros [= <-].
      apply Forall_app. split; [done | by constructor].
    - rewrite lookup_insert_ne by done. apply Hwk. }
  destruct (index !! concept c) as [l0|] eqn:E.
  - injection Hp as <-. apply Hins; [by intros l1 [= ->] | by eapply Hwk].
  - destruct (objectPrototypeHas (concept c)); [done|].
    injection Hp as <-. apply (Hins []); [done | constructor].
Qed.

Lemma buildConceptIndex_invariantKept results :
  Steady invariantKept (buildConceptIndex results).
Proof.
  apply steady_buildConceptIndex; [apply _ | |]; intros c st;
    unfold pushDefined, pushUsed, bind, gets; simpl;
    destruct (pushConcept _ c) eqn:E; (split; [done|]); try (by intros H);
    intros [[Hd Hu] [Hwd Hwu]]; (split; [split | split]); simpl; try done;
    first [by eapply pushConcept_nonempty | by eapply pushConcept_wellKeyed].
Qed.

Lemma removeLoop_wellKeyed path (index : ConceptIndex) :
  wellKeyedIndex index ->
  wellKeyedIndex (removeLoop path (ownKeys index) index).
Proof.
  intros Hwk k l. rewrite removeLoop_ownKeys.
  destruct (index !! k) as [l0|] eqn:E; [|done]. cbn. unfold purgeEntry.
  destruct (keptOccurrences path l0) as [|o kept] eqn:F; [done|].
  intros [= <-]. rewrite <- F. apply Forall_forall.
  intros x [_ Hx]%list_elem_of_filter.
  specialize (Hwk _ _ E). rewrite Forall_forall in Hwk. by apply Hwk.
Qed.

Lemma removeConceptsFromFile_invariant path st :
  wellKeyed st -> indexInvariant (final (removeConceptsFromFile path st)).
Proof.
  intros [Hd Hu]. split.
  - apply removeConceptsFromFile_deletes_no_more.
  - rewrite removeConceptsFromFile_final. split; by apply removeLoop_wellKeyed.
Qed.

Lemma processFileUpdate_invariant env path st :
  indexInvariant st -> indexInvariant (final (processFileUpdate env path st)).
Proof.
  intros Hst. destruct (Js.endsWith path ".plain") eqn:Hext.
  - rewrite processFileUpdate_run by done. cbv zeta. cbn [final].
    apply (buildConceptIndex_invariantKept [processFile env path]).
    apply removeConceptsFromFile_invariant, Hst.
  - unfold processFileUpdate. by rewrite Hext.
Qed.

Lemma rebuildIndex_invariant env st :
  indexInvariant st -> indexInvariant (final (rebuildIndex env st)).
Proof.
  intros Hst. destruct (isIndexing st) eqn:Hflag.
  - by rewrite rebuildIndex_busy.
  - destruct (rebuildIndex_idle_final env st Hflag) as [_ ->].
    assert (Hstart : indexInvariant (rebuildStart st)).
    { destruct Hst as [[_ Hu] [_ Hwu]].
      split; split;
        [intros k; cbn; by rewrite lookup_empty | exact Hu
        | intros k l; cbn; by rewrite lookup_empty | exact Hwu]. }
    destruct (buildConceptIndex_invariantKept
                (map (processFile env) (scannedFiles env)) (rebuildStart st))
      as [_ Hkept].
    destruct (Hkept Hstart) as [[Hd Hu] [Hwd Hwu]]. by repeat split.
Qed.

Lemma processFileUpdate_flag env path st :
  isIndexing (final (processFileUpdate env path st)) = isIndexing st.
Proof.
  destruct (Js.endsWith path ".plain") eqn:Hext.
  - rewrite processFileUpdate_run by done. cbv zeta. cbn [final].
    by destruct (buildConceptIndex_sameFlag [processFile env path]
                   (final (removeConceptsFromFile path st))) as [_ ->].
  - unfold processFileUpdate. by rewrite Hext.
Qed.

(** X4: in every state the service reaches from its initial state by
    rebuilds and updates that run one after the other, whatever the file
    system gives and also when folding throws, no name is bound to an empty
    list, every occurrence is filed under its own name (a lookup returns
    occurrences of the queried name only), and the busy flag is clear. *)
Theorem reachable_states_keep_invariant :
  forall st : PreprocessingService,
    Reachable st ->
    noEmptyEntries st
    /\ (forall name c,
          c ∈ entriesOf (definedConceptIndex st) name
          \/ c ∈ entriesOf (usedConceptIndex st) name ->
          concept c = name)
    /\ isIndexing st = false.
Proof.
  intros st H.
  assert (Hinv : indexInvariant st /\ isIndexing st = false).
  { induction H as [|env st _ [IH Hflag]|env path st _ [IH Hflag]].
    - split; [|done].
      split; split; intros k; cbn; by rewrite lookup_empty.
    - split; [by apply rebuildIndex_invariant|].
      by destruct (rebuildIndex_idle_final env st Hflag) as [_ ->].
    - split; [by apply processFileUpdate_invariant|].
      by rewrite processFileUpdate_flag. }
  destruct Hinv as [[Hne [Hwd Hwu]] Hflag]. repeat split; try apply Hne; [|done].
  intros name c. unfold entriesOf. intros [Hc|Hc].
  - destruct (definedConceptIndex st !! name) as [l|] eqn:E;
      [|by apply elem_of_nil in Hc].
    specialize (Hwd _ _ E). rewrite Forall_forall in Hwd. by apply Hwd.
  - destruct (usedConceptIndex st !! name) as [l|] eqn:E;
      [|by apply elem_of_nil in Hc].
    specialize (Hwu _ _ E). rewrite Forall_forall in Hwu. by apply Hwu.
Qed.

Lemma reachable_states_keep_invariant_witness :
  let st := final (processFileUpdate emptiedEnv glossaryPath
                     (final (rebuildIndex glossaryEnv emptyService))) in
  noEmptyEntries st
  /\ (forall name c,
        c ∈ entriesOf (definedConceptIndex st) name
        \/ c ∈ entriesOf (usedConceptIndex st) name ->
        concept c = name)
  /\ isIndexing st = false.
Proof.
  apply reachable_states_keep_invariant.
  apply reach_update, reach_rebuild, reach_initial.
Defined.

(** X5: after a rebuild that starts with the flag clear and meets no name
    that collides with a member of [Object.prototype], the definitions index
    holds, for every name, exactly the definition occurrences of that name
    extracted from the scanned documents that could be read, in scan order
    (nothing of the former state), whereas the list of a name in the usages
    index is the former list followed by the freshly extracted usage
    occurrences. *)
Theorem rebuildIndex_result :
  forall (env : Env) (st : PreprocessingService),
    isIndexing st = false ->
    noCollision (allDefined (scannedResults env)) ->
    noCollision (allUsed (scannedResults env)) ->
    forall name,
      entriesOf (definedConceptIndex (final (rebuildIndex env st))) name
      = named name (allDefined (scannedResults env))
      /\ entriesOf (usedConceptIndex (final (rebuildIndex env st))) name
         = entriesOf (usedConceptIndex st) name
           ++ named name (allUsed (scannedResults env)).
Proof.
  intros env st Hflag Hd Hu name.
  destruct (rebuildIndex_idle_final env st Hflag) as [_ ->].
  fold (scannedResults env). rewrite buildConceptIndex_run by done.
  cbn [released rebuildStart final definedConceptIndex usedConceptIndex].
  by rewrite !entriesOf_foldl.
Qed.

Lemma rebuildIndex_result_witness :
  let st := final (rebuildIndex glossaryEnv emptyService) in
  entriesOf (definedConceptIndex (final (rebuildIndex glossaryEnv st))) "a"
  = named "a" (allDefined (scannedResults glossaryEnv))
  /\ entriesOf (usedConceptIndex (final (rebuildIndex glossaryEnv st))) "a"
     = entriesOf (usedConceptIndex st) "a"
       ++ named "a" (allUsed (scannedResults glossaryEnv)).
Proof.
  apply (rebuildIndex_result glossaryEnv
           (final (rebuildIndex glossaryEnv emptyService)));
    vm_compute; repeat constructor.
Defined.

End Invariants.

(* ===================================================================== *)
(** ** The workspace scan *)
(* ===================================================================== *)

Section Scanner.
Import FileScanner.

(** Induction on listings: a property that holds of a listing that throws,
    and of a listing of entries when it holds of the listings of its
    directories, holds of every listing. *)
Lemma listing_ind (P : Completion (list Dirent) -> Prop) :
  (forall e, P (Throw e)) ->
  (forall entries,
      (forall name sub, DirEntry name sub ∈ entries -> P sub) ->
      P (Normal entries)) ->
  forall listing, P listing.
Proof.
  intros Hthrow Hnormal.
  assert (Hentry : forall entry,
             match entry with DirEntry _ sub => P sub | _ => True end).
  { fix IH 1. intros [name|name [entries|e]|name]; try exact I; [|apply Hthrow].
    apply Hnormal. induction entries as [|entry rest IHrest]; intros n s Hin.
    - by apply elem_of_nil in Hin.
    - apply elem_of_cons in Hin as [Heq|Hin]; [|by eapply IHrest].
      specialize (IH entry). by rewrite <- Heq in IH. }
  intros [entries|e]; [|apply Hthrow].
  apply Hnormal. intros name sub _. apply (Hentry (DirEntry name sub)).
Qed.

Section WithJoin.
Variable pathJoin : string -> string -> string.

Lemma scanEntry_directory dirPath name sub :
  scanEntry pathJoin dirPath (DirEntry name sub)
  = if shouldIgnoreDirectory name then Normal []
    else scanDirectory pathJoin (pathJoin dirPath name) sub.
Proof. cbn. by destruct (shouldIgnoreDirectory name), sub. Qed.

Lemma entriesLoop_skip f pre entry post :
  f entry = Normal [] ->
  entriesLoop f (pre ++ entry :: post) = entriesLoop f (pre ++ post).
Proof.
  intros H. induction pre as [|x pre IH]; cbn [app entriesLoop].
  - rewrite H. by destruct (entriesLoop f post).
  - by rewrite IH.
Qed.

Lemma entriesLoop_throws f entries :
  (exists e, entriesLoop f entries = Throw e)
  <-> exists entry e, entry ∈ entries /\ f entry = Throw e.
Proof.
  induction entries as [|x rest IH]; cbn [entriesLoop].
  - split; [by intros [e H] | intros (x & e & Hin & _); by apply elem_of_nil in Hin].
  - destruct (f x) as [found|e] eqn:E.
    + destruct (entriesLoop f rest) as [files|e'].
      * split; [by intros [e H]|]. intros (y & e & Hin & Hy).
        apply elem_of_cons in Hin as [->|Hin]; [congruence|].
        destruct (proj2 IH) as [e0 He0]; [by exists y, e | done].
      * split; [|by exists e']. intros _.
        destruct (proj1 IH) as (y & e & Hin & Hy); [by exists e'|].
        exists y, e. split; [by right | done].
    + split; [|by exists e]. intros _. exists x, e. split; [left | done].
Qed.

Lemma entriesLoop_all (Q : string -> Prop) f entries paths :
  (forall entry found, entry ∈ entries -> f entry = Normal found -> Forall Q found) ->
  entriesLoop f entries = Normal paths -> Forall Q paths.
Proof.
  revert paths. induction entries as [|x rest IH]; intros paths Hf;
    cbn [entriesLoop].
  - by intros [= <-].
  - destruct (f x) as [found|e] eqn:E; [|done].
    destruct (entriesLoop f rest) as [files|e']; [|done].
    intros [= <-]. apply Forall_app. split.
    + eapply Hf; [left | done].
    + apply IH; [|done]. intros y fy Hy. apply Hf. by right.
Qed.

(** The scan of a directory fails exactly on a listing that cannot be
    completed. *)
Lemma scanDirectory_throws listing :
  forall dirPath,
    (exists e, scanDirectory pathJoin dirPath listing = Throw e)
    <-> Unreadable listing.
Proof.
  induction listing as [e|entries IH] using listing_ind; intros dirPath.
  - split; [intros _; constructor | intros _; by exists e].
  - cbn [scanDirectory]. rewrite entriesLoop_throws. split.
    + intros ([name|name sub|name] & e & Hin & He);
        [cbn in He; by destruct (Js.endsWith name ".plain") | | done].
      rewrite scanEntry_directory in He.
      destruct (shouldIgnoreDirectory name) eqn:Hi; [done|].
      econstructor; [exact Hin | exact Hi|].
      apply (IH name sub Hin (pathJoin dirPath name)). by exists e.
    + intros H. inversion H as [|entries' name sub Hin Hi Hsub]; subst.
      apply (IH name sub Hin (pathJoin dirPath name)) in Hsub as [e He].
      exists (DirEntry name sub), e. split; [done|].
      by rewrite scanEntry_directory, Hi.
Qed.

End WithJoin.

(** X6: a directory whose name is in the ignore list or starts with a dot
    contributes nothing to a scan, whatever it holds and also when it cannot
    be listed: the scan of its parent gives what it gives without the
    entry. *)
Theorem scanDirectory_skips_ignored :
  forall (pathJoin : string -> string -> string) (dirPath name : string)
         (sub : Completion (list Dirent)) (before after : list Dirent),
    name ∈ ignoreDirs \/ Js.isPrefix "." name = true ->
    scanDirectory pathJoin dirPath (Normal (before ++ DirEntry name sub :: after))
    = scanDirectory pathJoin dirPath (Normal (before ++ after)).
Proof.
  intros pathJoin dirPath name sub before after Hname.
  cbn [scanDirectory]. apply entriesLoop_skip.
  rewrite scanEntry_directory.
  assert (Hi : shouldIgnoreDirectory name = true); [|by rewrite Hi].
  unfold shouldIgnoreDirectory. destruct Hname as [Hin| ->]; [|apply orb_true_r].
  apply orb_true_iff. left. apply existsb_exists. exists name.
  split; [by apply list_elem_of_In | apply String.eqb_refl].
Qed.

Lemma scanDirectory_skips_ignored_witness :
  scanDirectory posixJoin "/w"
    (Normal ([FileEntry "a.plain"] ++ DirEntry ".git" (Throw "EACCES")
                                   :: [FileEntry "b.plain"]))
  = scanDirectory posixJoin "/w"
      (Normal ([FileEntry "a.plain"] ++ [FileEntry "b.plain"])).
Proof.
  apply scanDirectory_skips_ignored. right. reflexivity.
Defined.

(** X7: the scan of a directory throws exactly when the directory, or a
    directory below it that the scan enters (none of the names on the way is
    ignored), cannot be listed; there is no partial result. *)
Theorem scanDirectory_fails_iff_unreadable :
  forall (pathJoin : string -> string -> string) (dirPath : string)
         (listing : Completion (list Dirent)),
    (exists e, scanDirectory pathJoin dirPath listing = Throw e)
    <-> Unreadable listing.
Proof. intros pathJoin dirPath listing. apply scanDirectory_throws. Qed.

End Scanner.

Lemma scanEnv_scan pathJoin folders read :
  scanWorkspace (scanEnv pathJoin folders read)
  = FileScanner.scanWorkspace pathJoin folders.
Proof. reflexivity. Qed.

Section ScannerAndService.
Import FileScanner.

Lemma endsWith_append d n suffix :
  Js.endsWith n suffix = true -> Js.endsWith (d +:+ n) suffix = true.
Proof.
  intros H. induction d as [|c d IH]; [exact H|].
  rewrite append_cons. cbn [Js.endsWith]. rewrite IH. apply orb_true_r.
Qed.

Lemma posixJoin_keeps_suffix d n suffix :
  Js.endsWith n suffix = true -> Js.endsWith (posixJoin d n) suffix = true.
Proof.
  intros H. unfold posixJoin. by apply endsWith_append, endsWith_append.
Qed.

Lemma scanDirectory_suffix pathJoin listing :
  (forall d n, Js.endsWith n ".plain" = true ->
               Js.endsWith (pathJoin d n) ".plain" = true) ->
  forall dirPath paths,
    scanDirectory pathJoin dirPath listing = Normal paths ->
    Forall (fun p => Js.endsWith p ".plain" = true) paths.
Proof.
  intros Hjoin.
  induction listing as [e|entries IH] using listing_ind; intros dirPath paths;
    [done|].
  cbn [scanDirectory]. apply entriesLoop_all.
  intros [name|name sub|name] found Hin.
  - cbn. destruct (Js.endsWith name ".plain") eqn:E; intros [= <-]; [|done].
    constructor; [by apply Hjoin | done].
  - rewrite scanEntry_directory.
    destruct (shouldIgnoreDirectory name); [by intros [= <-]|].
    by apply (IH name sub Hin).
  - by intros [= <-].
Qed.

Lemma scanFolders_suffix pathJoin folders paths :
  (forall d n, Js.endsWith n ".plain" = true ->
               Js.endsWith (pathJoin d n) ".plain" = true) ->
  scanFolders pathJoin folders = Normal paths ->
  Forall (fun p => Js.endsWith p ".plain" = true) paths.
Proof.
  intros Hjoin. revert paths.
  induction folders as [|[fsPath listing] rest IH]; intros paths;
    cbn [scanFolders]; [by intros [= <-]|].
  destruct (scanDirectory pathJoin fsPath listing) as [files|e] eqn:E; [|done].
  destruct (scanFolders pathJoin rest) as [more|e]; [|done].
  intros [= <-]. apply Forall_app. split; [|by apply IH].
  by eapply scanDirectory_suffix.
Qed.

(** X8: when joining keeps the end of the file name, every path the
    workspace scan returns ends in [.plain], so that an update of any
    scanned path passes the extension test of [processFileUpdate] and
    reprocesses the document. *)
Theorem scanned_paths_are_plain_files :
  forall (pathJoin : string -> string -> string)
         (folders : option (list (string * Completion (list Dirent))))
         (paths : list string),
    (forall d n, Js.endsWith n ".plain" = true ->
                 Js.endsWith (pathJoin d n) ".plain" = true) ->
    scanWorkspace pathJoin folders = Normal paths ->
    Forall (fun p =>
              Js.endsWith p ".plain" = true
              /\ forall env st,
                   awaited (processFileUpdate env p st)
                   = [final (removeConceptsFromFile p st)])
           paths.
Proof.
  intros pathJoin folders paths Hjoin Hscan.
  assert (H : Forall (fun p => Js.endsWith p ".plain" = true) paths).
  { unfold scanWorkspace in Hscan. destruct folders as [folders|].
    - destruct (length folders =? 0); [by injection Hscan as <-|].
      by eapply scanFolders_suffix.
    - by injection Hscan as <-. }
  eapply Forall_impl; [exact H|]. intros p Hp. split; [done|].
  intros env st. rewrite processFileUpdate_run by done. cbv zeta.
  cbn [awaited].
  by destruct (buildConceptIndex_sameFlag [processFile env p]
                 (final (removeConceptsFromFile p st))) as [-> _].
Qed.

Lemma scanned_paths_are_plain_files_witness :
  Forall (fun p =>
            Js.endsWith p ".plain" = true
            /\ forall env st,
                 awaited (processFileUpdate env p st)
                 = [final (removeConceptsFromFile p st)])
         ["/w/a.plain"; "/w/src/b.plain"].
Proof.
  apply (scanned_paths_are_plain_files posixJoin
           (Some [("/w", Normal [FileEntry "a.plain"; FileEntry "notes.txt";
                                 DirEntry "node_modules"
                                   (Normal [FileEntry "c.plain"]);
                                 DirEntry "src" (Normal [FileEntry "b.plain"]);
                                 OtherEntry "link.plain"])])).
  - intros d n. apply posixJoin_keeps_suffix.
  - reflexivity.
Defined.

Lemma scanFolders_throws pathJoin folders fsPath listing :
  (fsPath, listing) ∈ folders -> Unreadable listing ->
  exists e, scanFolders pathJoin folders = Throw e.
Proof.
  intros Hin Hun. induction folders as [|[p l] rest IH];
    [by apply elem_of_nil in Hin|].
  cbn [scanFolders].
  destruct (scanDirectory pathJoin p l) as [files|e] eqn:E; [|by exists e].
  apply elem_of_cons in Hin as [[= <- <-]|Hin].
  - apply (scanDirectory_throws pathJoin listing fsPath) in Hun as [e He].
    congruence.
  - destruct (IH Hin) as [e ->]. by exists e.
Qed.

(** X9: when a workspace folder, or a directory below it that the scan
    enters, cannot be listed, a rebuild that starts with the flag clear
    completes normally with an empty definitions index, the usages index as
    it was and the flag clear: the failure of the scan is swallowed and no
    document is read. *)
Theorem rebuildIndex_after_failed_scan :
  forall (pathJoin : string -> string -> string)
         (folders : list (string * Completion (list Dirent)))
         (read : string -> Completion string)
         (fsPath : string) (listing : Completion (list Dirent))
         (st : PreprocessingService),
    isIndexing st = false ->
    (fsPath, listing) ∈ folders ->
    Unreadable listing ->
    let r := rebuildIndex (scanEnv pathJoin (Some folders) read) st in
    completion r = Normal tt
    /\ final r = mkService ∅ (usedConceptIndex st) false
    /\ awaited r = [rebuildStart st].
Proof.
  intros pathJoin folders read fsPath listing st Hflag Hin Hun r. subst r.
  rewrite rebuildIndex_idle by done.
  assert (Hscan : exists e, scanWorkspace pathJoin (Some folders) = Throw e).
  { cbn [scanWorkspace]. destruct folders as [|f rest];
      [by apply elem_of_nil in Hin|].
    change (length (f :: rest) =? 0) with false. cbv iota.
    by eapply scanFolders_throws. }
  destruct Hscan as [e He]. by rewrite scanEnv_scan, He.
Qed.

End ScannerAndService.

Lemma rebuildIndex_after_failed_scan_witness :
  let st := mkService {[ "a" := [glossaryDefinition] ]}
                      {[ "a" := [glossaryUsage] ]} false in
  let r := rebuildIndex
             (scanEnv posixJoin
                (Some [("/w", Normal [FileScanner.FileEntry "a.plain";
                                      FileScanner.DirEntry "src" (Throw "EACCES")])])
                (fun _ => Throw "ENOENT")) st in
  completion r = Normal tt
  /\ final r = mkService ∅ (usedConceptIndex st) false
  /\ awaited r = [rebuildStart st].
Proof.
  apply (rebuildIndex_after_failed_scan posixJoin _ _ "/w"
           (Normal [FileScanner.FileEntry "a.plain";
                    FileScanner.DirEntry "src" (Throw "EACCES")])).
  - reflexivity.
  - left.
  - eapply unreadable_below; [right; left | reflexivity | constructor].
Defined.

(* ===================================================================== *)
(** ** Names and positions of the occurrences *)
(* ===================================================================== *)

Section Positions.
Import Js ConceptExtractor.

Lemma definitionLine_name path i l sec o :
  o ∈ definitionLine path i l sec -> isConceptName (concept o) = true.
Proof.
  unfold definitionLine.
  destruct (definitionMatch (trim l)); [|intros H; by apply elem_of_nil in H].
  intros (c & _ & Hv & ->)%pushCandidates_elem. cbn.
  destruct (validConcept_token c Hv) as (_ & Hne & Hall).
  unfold isConceptName. rewrite Hall, andb_true_r.
  apply negb_true_iff, String.eqb_neq, Hne.
Qed.

Lemma definition_name path text o :
  o ∈ extractConceptsFromDefinitions path text ->
  isConceptName (concept o) = true.
Proof.
  intros (l & sec & _ & _ & Ho)%definitionsLoop_elem.
  by eapply definitionLine_name.
Qed.

Lemma usage_name path text o :
  o ∈ extractConceptsFromSpecText path text ->
  isConceptName (concept o) = true.
Proof.
  intros (n & scanned & sec & Ho)%specTextLoop_scanned.
  unfold scanSpecText in Ho.
  apply pushMatches_elem in Ho as (_ & _ & _ & _ & _ & i & m & Hin & -> & _).
  apply regexScan_matched in Hin as (k & _ & Hk). unfold conceptRegexAt in Hk.
  destruct (colonToken isConceptChar (dropStr k scanned)) as [[m0 rest]|] eqn:E;
    [|done].
  injection Hk as ->. apply colonToken_shape in E as (run & -> & Hne & Hall & _).
  rewrite slice_tokenOf. unfold isConceptName, inAlphabet.
  rewrite Hall, andb_true_r. by apply negb_true_iff, String.eqb_neq.
Qed.

(** X10: every occurrence that either extractor records for a document
    carries the path of the document and a name that is a non-empty word
    over the concept alphabet; so every name found in a document passes the
    test that [provideRenameEdits] applies to a new name. *)
Theorem extracted_names_are_valid :
  forall (path text : string) (o : ConceptDefinition),
    o ∈ extractConceptsFromDefinitions path text
    \/ o ∈ extractConceptsFromSpecText path text ->
    filePath o = path
    /\ concept o <> EmptyString
    /\ inAlphabet (concept o) = true
    /\ RenameProvider.validName (concept o) = true.
Proof.
  intros path text o Ho.
  assert (Hp : filePath o = path).
  { destruct Ho as [Ho|Ho];
      [by apply definition_recorded in Ho as [? _]
      | by apply usage_recorded in Ho as [? _]]. }
  assert (Hn : isConceptName (concept o) = true).
  { destruct Ho as [Ho|Ho]; [by eapply definition_name | by eapply usage_name]. }
  rewrite validName_spec. fold (isConceptName (concept o)).
  destruct (isConceptName_spec _ Hn) as [Hne Hall]. by repeat split.
Qed.

Lemma extracted_names_are_valid_witness :
  filePath glossaryUsage = glossaryPath
  /\ concept glossaryUsage <> EmptyString
  /\ inAlphabet (concept glossaryUsage) = true
  /\ RenameProvider.validName (concept glossaryUsage) = true.
Proof.
  apply (extracted_names_are_valid glossaryPath glossaryText glossaryUsage).
  right. left.
Defined.

Lemma definitionsLoop_section path lines i inDef sec o :
  inDef = String.eqb sec "definitions" ->
  o ∈ definitionsLoop path lines i inDef sec ->
  section o = Some "definitions".
Proof.
  revert i inDef sec. induction lines as [|l lines IH]; intros i inDef sec Hinv.
  - intros H. by apply elem_of_nil in H.
  - cbn [definitionsLoop].
    destruct (isSectionHeader (trim l)).
    + apply IH. unfold enterSection.
      by destruct (String.eqb (sectionName (trim l)) "definitions"), inDef.
    + destruct inDef; cbn [negb]; [|by apply IH].
      intros [Ho|Ho]%elem_of_app; [|by eapply IH].
      apply definitionLine_elem in Ho as (_ & _ & _ & -> & _).
      symmetry in Hinv. by apply String.eqb_eq in Hinv as ->.
Qed.

(** X11: definition occurrences come from definitions sections only: every
    occurrence recorded by [extractConceptsFromDefinitions] carries the
    section name [definitions], and a document without a section marker of
    that name has no definition occurrence. *)
Theorem definitions_come_from_definitions_sections :
  forall (path text : string),
    Forall (fun o => section o = Some "definitions")
           (extractConceptsFromDefinitions path text)
    /\ (Forall (fun l => isSectionHeader (trim l) = false
                         \/ sectionName (trim l) <> "definitions")
               (split_nl text) ->
        extractConceptsFromDefinitions path text = []).
Proof.
  intros path text. split.
  - apply Forall_forall. intros o Ho.
    by apply (definitionsLoop_section path (split_nl text) 0 false EmptyString).
  - unfold extractConceptsFromDefinitions. intros Hall.
    generalize 0, EmptyString.
    induction Hall as [|l lines Hl _ IH]; intros n sec; [done|].
    cbn [definitionsLoop]. destruct (isSectionHeader (trim l)) eqn:Hh.
    + destruct Hl as [Hl|Hl]; [done|].
      apply String.eqb_neq in Hl. unfold enterSection. rewrite Hl. apply IH.
    + apply IH.
Qed.

Lemma definitions_come_from_definitions_sections_witness :
  Forall (fun o => section o = Some "definitions")
         (extractConceptsFromDefinitions "/w/x.plain" repeatedText)
  /\ extractConceptsFromDefinitions "/w/x.plain" blockText = [].
Proof.
  split.
  - exact (proj1 (definitions_come_from_definitions_sections
                    "/w/x.plain" repeatedText)).
  - apply (proj2 (definitions_come_from_definitions_sections
                    "/w/x.plain" blockText)).
    repeat constructor.
Defined.

Lemma substring_drop k m s :
  String.substring k m s = String.substring 0 m (dropStr k s).
Proof.
  revert s. induction k as [|k IH]; intros s; [done|].
  destruct s as [|c s]; [by destruct m | apply IH].
Qed.

Lemma substring_prefix p rest :
  String.substring 0 (String.length p) (p +:+ rest) = p.
Proof.
  induction p as [|c p IH]; [by destruct rest|].
  rewrite append_cons. cbn. by rewrite IH.
Qed.

(** The name stands between the colons of a token that occurs at [k]. *)
Lemma token_name_at name s k :
  occursAt (tokenOf name) s k = true ->
  String.substring (S k) (String.length name) s = name.
Proof.
  unfold occursAt. intros [rest Hrest]%prefix_split.
  rewrite substring_drop.
  replace (dropStr (S k) s) with (dropStr 1 (dropStr k s))
    by (rewrite dropStr_add; f_equal; lia).
  rewrite Hrest. unfold tokenOf. rewrite append_cons. cbn [dropStr].
  rewrite append_assoc. apply substring_prefix.
Qed.

Lemma textInRange_renameEdit oldName newName o k l :
  character o = Z.of_nat k ->
  textInRange (RenameProvider.range (RenameProvider.renameEdit oldName newName o)) l
  = String.substring (S k) (String.length oldName) l.
Proof.
  intros Hk. unfold textInRange. cbn. rewrite Hk. f_equal; lia.
Qed.

(** X12: the column of a usage occurrence is an offset into its content,
    the text of indented lines that was scanned, not into the line it is
    recorded on: the token [:name:] stands at that offset of the content, and
    the range of the rename provider, read on the content, covers exactly the
    name. *)
Theorem usage_occurrence_locates_name_in_content :
  forall (path text newName : string) (o : ConceptDefinition),
    o ∈ extractConceptsFromSpecText path text ->
    exists scanned,
      content o = Some scanned
      /\ indentedText scanned
      /\ (0 <= character o)%Z
      /\ occursAt (tokenOf (concept o)) scanned (Z.to_nat (character o)) = true
      /\ textInRange
           (RenameProvider.range
              (RenameProvider.renameEdit (concept o) newName o)) scanned
         = concept o.
Proof.
  intros path text newName o Ho.
  destruct (usage_content_is_indented_lines _ _ _ Ho) as (scanned' & Hc' & Hind).
  apply usage_recorded in Ho as (_ & scanned & k & Hc & Hk & Hocc).
  rewrite Hc in Hc'. injection Hc' as <-.
  exists scanned. rewrite (textInRange_renameEdit _ _ _ k) by done.
  rewrite Hk, Nat2Z.id. repeat split; [done | done | lia | done|].
  by apply token_name_at.
Qed.

Lemma usage_occurrence_locates_name_in_content_witness :
  exists scanned,
    content glossaryUsage = Some scanned
    /\ indentedText scanned
    /\ (0 <= character glossaryUsage)%Z
    /\ occursAt (tokenOf (concept glossaryUsage)) scanned
                (Z.to_nat (character glossaryUsage)) = true
    /\ textInRange
         (RenameProvider.range
            (RenameProvider.renameEdit (concept glossaryUsage) "b"
                                       glossaryUsage)) scanned
       = concept glossaryUsage.
Proof.
  apply (usage_occurrence_locates_name_in_content glossaryPath glossaryText "b").
  left.
Defined.

End Positions.

(* ===================================================================== *)
(** ** Words named like a member of [Object.prototype] *)
(* ===================================================================== *)

Section PrototypeNames.

#[local] Instance ownNamesKept_preorder : PreOrder ownNamesKept.
Proof.
  split; [by intros st H | intros a b c Hab Hbc H; by apply Hbc, Hab].
Qed.

Lemma pushConcept_noInherited (index index' : ConceptIndex) c :
  pushConcept index c = Normal index' ->
  noInheritedKeys index -> noInheritedKeys index'.
Proof.
  unfold pushConcept, jsGet. intros Hp Hown k Hk.
  destruct (index !! concept c) as [l0|] eqn:E.
  - injection Hp as <-. rewrite lookup_insert_ne; [by apply Hown|].
    intros Heq. rewrite Heq, (Hown k Hk) in E. done.
  - destruct (objectPrototypeHas (concept c)) eqn:F; [done|].
    injection Hp as <-. rewrite lookup_insert_ne; [by apply Hown|].
    intros Heq. rewrite Heq, Hk in F. done.
Qed.

Lemma buildConceptIndex_ownNamesKept results :
  Steady ownNamesKept (buildConceptIndex results).
Proof.
  apply steady_buildConceptIndex; [apply _ | |]; intros c st;
    unfold pushDefined, pushUsed, bind, gets; simpl;
    destruct (pushConcept _ c) eqn:E; (split; [done|]); try (by intros H);
    intros [Hd Hu]; split; simpl; try done;
    by eapply pushConcept_noInherited.
Qed.

Lemma removeLoop_noInherited path (index : ConceptIndex) :
  noInheritedKeys index ->
  noInheritedKeys (removeLoop path (ownKeys index) index).
Proof.
  intros Hown k Hk. by rewrite removeLoop_ownKeys, (Hown k Hk).
Qed.

Lemma processFileUpdate_ownNames env path st :
  ownNamesOnly st -> ownNamesOnly (final (processFileUpdate env path st)).
Proof.
  intros [Hd Hu]. destruct (Js.endsWith path ".plain") eqn:Hext.
  - rewrite processFileUpdate_run by done. cbv zeta. cbn [final].
    apply (buildConceptIndex_ownNamesKept [processFile env path]).
    rewrite removeConceptsFromFile_final.
    split; by apply removeLoop_noInherited.
  - unfold processFileUpdate. by rewrite Hext.
Qed.

Lemma rebuildIndex_ownNames env st :
  ownNamesOnly st -> ownNamesOnly (final (rebuildIndex env st)).
Proof.
  intros [Hd Hu]. destruct (isIndexing st) eqn:Hflag.
  - by rewrite rebuildIndex_busy.
  - destruct (rebuildIndex_idle_final env st Hflag) as [_ ->].
    destruct (buildConceptIndex_ownNamesKept
                (map (processFile env) (scannedFiles env)) (rebuildStart st))
      as [_ Hkept].
    apply Hkept. split; [|exact Hu]. intros k _. apply lookup_empty.
Qed.

Lemma reachable_ownNames st : Reachable st -> ownNamesOnly st.
Proof.
  induction 1 as [|env st _ IH|env path st _ IH].
  - split; intros k _; apply lookup_empty.
  - by apply rebuildIndex_ownNames.
  - by apply processFileUpdate_ownNames.
Qed.

Lemma reachable_lookup_inherited st word :
  Reachable st -> objectPrototypeHas word = true ->
  findConceptDefinition st word = JsInherited word
  /\ findConceptUsage st word = JsInherited word.
Proof.
  intros [Hd Hu]%reachable_ownNames Hw.
  unfold findConceptDefinition, findConceptUsage, jsGet.
  by rewrite (Hd word Hw), (Hu word Hw), Hw.
Qed.

(** X13: in every state the service reaches, a word named like a function
    of [Object.prototype] that takes parameters (such as [constructor] or
    [hasOwnProperty]) is never a key of an index, yet [prepareRename] accepts
    it, [provideRenameEdits] throws a [TypeError] for every valid new name,
    and [provideDefinition] throws on every position: the error of the
    section search if that one throws, a [TypeError] otherwise. *)
Theorem prototype_member_word_breaks_providers :
  forall (st : PreprocessingService) (word newName : string),
    Reachable st ->
    objectPrototypeHas word = true ->
    DefinitionProvider.lengthIsPositive (JsInherited word) = true ->
    RenameProvider.validName newName = true ->
    entriesOf (definedConceptIndex st) word = []
    /\ entriesOf (usedConceptIndex st) word = []
    /\ PrepareRename.prepareRename (Some word) (Some st)
       = PrepareRename.Placeholder word
    /\ RenameProvider.provideRenameEdits (Some word) newName (Some st)
       = RenameProvider.Thrown "TypeError: usages is not iterable"
    /\ forall pathDirname pathJoin existsSync searchPaths fileExtension
              fsPath lines positionLine,
         DefinitionProvider.provideDefinition
           pathDirname pathJoin existsSync searchPaths fileExtension
           fsPath lines positionLine (Some word) (Some st)
         = match DefinitionProvider.isAConceptDefinition lines positionLine word with
           | Throw e => DefinitionProvider.DefinitionThrown e
           | Normal _ =>
               DefinitionProvider.DefinitionThrown "TypeError: map is not a function"
           end.
Proof.
  intros st word newName Hst Hw Hpos Hnew.
  destruct (reachable_lookup_inherited st word Hst Hw) as [Hfd Hfu].
  destruct (reachable_ownNames st Hst) as [Hd Hu].
  assert (Hlen : lengthIsZero (JsInherited word) = false).
  { cbn [DefinitionProvider.lengthIsPositive existsb] in Hpos.
    cbn [lengthIsZero existsb].
    apply negb_true_iff in Hpos.
    apply orb_false_iff in Hpos as (-> & (-> & (-> & _)%orb_false_iff)%orb_false_iff).
    done. }
  unfold entriesOf. rewrite (Hd word Hw), (Hu word Hw).
  repeat split.
  - unfold PrepareRename.prepareRename. by rewrite Hfd, Hfu, Hlen.
  - unfold RenameProvider.provideRenameEdits. by rewrite Hnew, Hfu, Hlen.
  - intros pathDirname pathJoin existsSync searchPaths fileExtension
           fsPath lines positionLine.
    unfold DefinitionProvider.provideDefinition.
    destruct (DefinitionProvider.isAConceptDefinition lines positionLine word)
      as [[]|e]; by rewrite ?Hfd, ?Hfu, ?Hpos.
Qed.

Lemma prototype_member_word_breaks_providers_witness :
  let st := final (rebuildIndex glossaryEnv emptyService) in
  entriesOf (definedConceptIndex st) "constructor" = []
  /\ entriesOf (usedConceptIndex st) "constructor" = []
  /\ PrepareRename.prepareRename (Some "constructor") (Some st)
     = PrepareRename.Placeholder "constructor"
  /\ RenameProvider.provideRenameEdits (Some "constructor") "b" (Some st)
     = RenameProvider.Thrown "TypeError: usages is not iterable"
  /\ forall pathDirname pathJoin existsSync searchPaths fileExtension
            fsPath lines positionLine,
       DefinitionProvider.provideDefinition
         pathDirname pathJoin existsSync searchPaths fileExtension
         fsPath lines positionLine (Some "constructor") (Some st)
       = match DefinitionProvider.isAConceptDefinition lines positionLine
                 "constructor" with
         | Throw e => DefinitionProvider.DefinitionThrown e
         | Normal _ =>
             DefinitionProvider.DefinitionThrown "TypeError: map is not a function"
         end.
Proof.
  apply (prototype_member_word_breaks_providers
           (final (rebuildIndex glossaryEnv emptyService)) "constructor" "b");
    [apply reach_rebuild, reach_initial | reflexivity | reflexivity | reflexivity].
Defined.

End PrototypeNames.

(* ===================================================================== *)
(** ** Going to a definition *)
(* ===================================================================== *)

Section Navigation.
Import Js ConceptExtractor.

(** A lookup of a name that is no member of [Object.prototype] gives the
    list the name is bound to. *)
Lemma find_entries st word :
  objectPrototypeHas word = false ->
  findConceptDefinition st word = JsArray (entriesOf (definedConceptIndex st) word)
  /\ findConceptUsage st word = JsArray (entriesOf (usedConceptIndex st) word).
Proof.
  intros Hw. unfold findConceptDefinition, findConceptUsage, jsGet, entriesOf.
  rewrite Hw.
  by destruct (definedConceptIndex st !! word), (usedConceptIndex st !! word).
Qed.

Lemma elem_of_concat {A} (x : A) (ls : list (list A)) :
  x ∈ concat ls -> exists l, l ∈ ls /\ x ∈ l.
Proof.
  induction ls as [|l ls IH]; cbn; [by intros H%elem_of_nil|].
  intros [H|H]%elem_of_app.
  - exists l. split; [left | done].
  - destruct (IH H) as (l' & Hl' & Hx). exists l'. split; [by right | done].
Qed.

Lemma allDefined_elem env files o :
  o ∈ allDefined (map (processFile env) files) ->
  filePath o ∈ files
  /\ exists text, readFileSync env (filePath o) = Normal text
                  /\ o ∈ extractConceptsFromDefinitions (filePath o) text.
Proof.
  unfold allDefined, readable.
  intros (ds & (r & -> & Hr)%list_elem_of_fmap & Ho)%elem_of_concat.
  apply list_elem_of_filter in Hr as [_ (p & -> & Hp)%list_elem_of_fmap].
  unfold processFile in Ho.
  destruct (readFileSync env p) as [text|e] eqn:Hread; cbn in Ho;
    [|by apply elem_of_nil in Ho].
  assert (Hpath : filePath o = p) by (by apply definition_recorded in Ho as [? _]).
  rewrite Hpath. split; [done|]. by exists text.
Qed.

(** X14: after a rebuild that starts with the flag clear and meets no
    colliding name, [provideDefinition] on a word that is defined somewhere,
    asked from a position that is not a definition of the word, returns one
    location per definition occurrence of the word in the scanned documents;
    every location names a scanned document that could be read and a line
    and column of that document at which the token [:word:] stands. *)
Theorem provideDefinition_finds_the_tokens :
  forall (env : Env) (st : PreprocessingService)
         pathDirname pathJoin existsSync searchPaths fileExtension
         (fsPath : string) (lines : list string) (positionLine : nat)
         (word : string),
    isIndexing st = false ->
    noCollision (allDefined (scannedResults env)) ->
    noCollision (allUsed (scannedResults env)) ->
    objectPrototypeHas word = false ->
    DefinitionProvider.isAConceptDefinition lines positionLine word = Normal false ->
    named word (allDefined (scannedResults env)) <> [] ->
    DefinitionProvider.provideDefinition
      pathDirname pathJoin existsSync searchPaths fileExtension
      fsPath lines positionLine (Some word)
      (Some (final (rebuildIndex env st)))
    = DefinitionProvider.Locations
        (map DefinitionProvider.locationOf
             (named word (allDefined (scannedResults env))))
    /\ Forall (fun loc =>
                 DefinitionProvider.locationPath loc ∈ scannedFiles env
                 /\ exists text l,
                      readFileSync env (DefinitionProvider.locationPath loc)
                      = Normal text
                      /\ split_nl text !! DefinitionProvider.locationLine loc
                         = Some l
                      /\ (0 <= DefinitionProvider.locationCharacter loc)%Z
                      /\ occursAt (tokenOf word) l
                           (Z.to_nat (DefinitionProvider.locationCharacter loc))
                         = true)
              (map DefinitionProvider.locationOf
                   (named word (allDefined (scannedResults env)))).
Proof.
  intros env st pathDirname pathJoin existsSync searchPaths fileExtension
         fsPath lines positionLine word Hflag Hd Hu Hw Hdef Hsome.
  split.
  - unfold DefinitionProvider.provideDefinition. rewrite Hdef.
    destruct (find_entries (final (rebuildIndex env st)) word Hw) as [-> _].
    destruct (rebuildIndex_idle_final env st Hflag) as [_ ->].
    fold (scannedResults env). rewrite buildConceptIndex_run by done.
    cbn [released rebuildStart final definedConceptIndex usedConceptIndex].
    rewrite entriesOf_foldl. unfold entriesOf at 1. rewrite lookup_empty.
    cbn [default app DefinitionProvider.lengthIsPositive].
    destruct (named word (allDefined (scannedResults env))); done.
  - apply Forall_forall.
    intros loc (o & -> & [Hname Ho]%list_elem_of_filter)%list_elem_of_fmap.
    apply allDefined_elem in Ho as (Hfile & text & Hread & Ho).
    apply definition_recorded in Ho as (_ & l & Hl & _ & k & Hk & Hocc & _).
    cbn. split; [done|]. exists text, l.
    rewrite Hk, Nat2Z.id, <- Hname. repeat split; [done | done | lia | done].
Qed.

Lemma provideDefinition_finds_the_tokens_witness :
  DefinitionProvider.provideDefinition
    (fun p => p) posixJoin (fun _ => false) [] ".plain"
    "/w/other.plain" ["uses :a: here"] 0 (Some "a")
    (Some (final (rebuildIndex glossaryEnv emptyService)))
  = DefinitionProvider.Locations
      (map DefinitionProvider.locationOf
           (named "a" (allDefined (scannedResults glossaryEnv))))
  /\ Forall (fun loc =>
               DefinitionProvider.locationPath loc ∈ scannedFiles glossaryEnv
               /\ exists text l,
                    readFileSync glossaryEnv (DefinitionProvider.locationPath loc)
                    = Normal text
                    /\ split_nl text !! DefinitionProvider.locationLine loc
                       = Some l
                    /\ (0 <= DefinitionProvider.locationCharacter loc)%Z
                    /\ occursAt (tokenOf "a") l
                         (Z.to_nat (DefinitionProvider.locationCharacter loc))
                       = true)
            (map DefinitionProvider.locationOf
                 (named "a" (allDefined (scannedResults glossaryEnv)))).
Proof.
  apply (provideDefinition_finds_the_tokens glossaryEnv emptyService);
    [reflexivity | vm_compute; repeat constructor
    | vm_compute; repeat constructor | reflexivity | reflexivity
    | vm_compute; discriminate].
Defined.

End Navigation.

(* ===================================================================== *)
(** ** The providers' test for a definition *)
(* ===================================================================== *)

Section IsDefinition.
Import Js ConceptExtractor.

Lemma enterSection_eqb currentSection inDef :
  enterSection currentSection inDef = String.eqb currentSection "definitions".
Proof.
  unfold enterSection.
  by destruct (String.eqb currentSection "definitions"), inDef.
Qed.

Lemma sectionStateAfter_snoc pre l inDef sec :
  sectionStateAfter (pre ++ [l]) inDef sec
  = if isSectionHeader (trim l)
    then (String.eqb (sectionName (trim l)) "definitions", sectionName (trim l))
    else sectionStateAfter pre inDef sec.
Proof.
  revert inDef sec. induction pre as [|l' pre IH]; intros inDef sec.
  - cbn. destruct (isSectionHeader (trim l)); [|done].
    by rewrite enterSection_eqb.
  - cbn [app sectionStateAfter].
    destruct (isSectionHeader (trim l')); by rewrite IH.
Qed.

Lemma inDefinitionsAfter_snoc pre l :
  inDefinitionsAfter (pre ++ [l])
  = if isSectionHeader (trim l)
    then String.eqb (sectionName (trim l)) "definitions"
    else inDefinitionsAfter pre.
Proof.
  unfold inDefinitionsAfter. rewrite sectionStateAfter_snoc.
  by destruct (isSectionHeader (trim l)).
Qed.

(** The backward search of the providers finds what the forward loop of the
    extractor tracks. *)
Lemma inDefinitionsLoop_spec lines i l :
  lines !! i = Some l ->
  DefinitionProvider.inDefinitionsLoop lines i
  = Normal (inDefinitionsAfter (take (S i) lines)).
Proof.
  revert l. induction i as [|i IH]; intros l Hl.
  - rewrite (take_S_r _ _ _ Hl), inDefinitionsAfter_snoc.
    cbn [DefinitionProvider.inDefinitionsLoop].
    unfold DefinitionProvider.lineAt. rewrite Hl.
    by destruct (isSectionHeader (trim l)).
  - rewrite (take_S_r _ _ _ Hl), inDefinitionsAfter_snoc.
    cbn [DefinitionProvider.inDefinitionsLoop].
    unfold DefinitionProvider.lineAt at 1. rewrite Hl.
    destruct (isSectionHeader (trim l)); [done|].
    destruct (lookup_lt_is_Some_2 lines i) as [l' Hl'];
      [apply lookup_lt_Some in Hl; lia|].
    by apply (IH l').
Qed.

Lemma isAConceptDefinition_spec lines i l word :
  lines !! i = Some l ->
  DefinitionProvider.isAConceptDefinition lines i word
  = Normal (inDefinitionsAfter (take (S i) lines)
            && match definitionMatch l with
               | Some fullMatch =>
                   existsb (fun c => String.eqb (slice_1_m1 c) word)
                           (conceptCandidates fullMatch)
               | None => false
               end).
Proof.
  intros Hl. unfold DefinitionProvider.isAConceptDefinition.
  rewrite (inDefinitionsLoop_spec _ _ _ Hl).
  destruct (inDefinitionsAfter (take (S i) lines)); [|done].
  unfold DefinitionProvider.lineAt. rewrite Hl.
  by destruct (definitionMatch l).
Qed.

Lemma definitionMatch_not_header l fullMatch :
  definitionMatch l = Some fullMatch -> isSectionHeader l = false.
Proof.
  destruct l as [|d [|w [|c r]]]; try done. cbn [definitionMatch isSectionHeader].
  destruct (Ascii.eqb d dash) eqn:Hd; [|done].
  apply Ascii.eqb_eq in Hd as ->. done.
Qed.

Lemma definitionMatch_not_indented l :
  hasIndentation l = true -> definitionMatch l = None.
Proof.
  destruct l as [|d [|w r]]; try done. cbn [definitionMatch hasIndentation].
  destruct (Ascii.eqb d dash) eqn:Hd; [|done].
  apply Ascii.eqb_eq in Hd as ->. done.
Qed.

Lemma candidate_shape fullMatch c :
  c ∈ conceptCandidates fullMatch -> c = tokenOf (slice_1_m1 c).
Proof.
  unfold conceptCandidates, matchAll.
  intros [[i m] [-> Hin]]%list_elem_of_fmap.
  apply regexScan_matched in Hin as (k & _ & Hk). cbn [snd].
  destruct (colonToken notColon (dropStr k fullMatch)) as [[m0 rest]|] eqn:E;
    [|done].
  injection Hk as ->. apply colonToken_shape in E as (run & -> & _).
  by rewrite slice_tokenOf.
Qed.

Lemma pushCandidates_intro path i l sec candidates c :
  c ∈ candidates -> validConcept c = true ->
  mkConcept (slice_1_m1 c) path i (indexOf l c) (Some l) (Some sec)
  ∈ pushCandidates path i l sec candidates.
Proof.
  intros Hc Hv. induction candidates as [|c' cs IH];
    [by apply elem_of_nil in Hc|].
  cbn [pushCandidates]. apply elem_of_cons in Hc as [<-|Hc].
  - rewrite Hv. left.
  - destruct (validConcept c'); [right|]; by apply IH.
Qed.

(** The occurrences recorded for line [i] of a document. *)
Lemma definitions_at_index path text i l :
  split_nl text !! i = Some l ->
  atLine i (extractConceptsFromDefinitions path text)
  = if isSectionHeader (trim l) then []
    else if inDefinitionsAfter (take i (split_nl text))
         then definitionLine path i l
                (snd (sectionStateAfter (take i (split_nl text)) false EmptyString))
         else [].
Proof.
  intros Hl.
  pose proof (definitions_at_line path text (take i (split_nl text)) l
                (drop (S i) (split_nl text))) as H.
  rewrite length_take_le in H by (apply lookup_lt_Some in Hl; lia).
  apply H. symmetry. by apply take_drop_middle.
Qed.

(** X15: on a line without surrounding white space, the test
    [isAConceptDefinition] of the definition and hover providers agrees with
    the extractor: for a concept name [word], the position is taken for a
    definition of [word] exactly when [extractConceptsFromDefinitions]
    records a definition occurrence of [word] on that line. *)
Theorem isAConceptDefinition_agrees_with_extractor :
  forall (path text : string) (i : nat) (l word : string),
    split_nl text !! i = Some l ->
    trim l = l ->
    isConceptName word = true ->
    DefinitionProvider.isAConceptDefinition (split_nl text) i word = Normal true
    <-> exists o, o ∈ extractConceptsFromDefinitions path text
                  /\ line o = i /\ concept o = word.
Proof.
  intros path text i l word Hl Htrim Hword.
  rewrite (isAConceptDefinition_spec _ _ _ _ Hl).
  pose proof (definitions_at_index path text i l Hl) as Hat.
  rewrite Htrim in Hat.
  rewrite (take_S_r _ _ _ Hl), inDefinitionsAfter_snoc, Htrim.
  split.
  - intros [= H]. apply andb_true_iff in H as [Hsec Hex].
    destruct (definitionMatch l) as [fullMatch|] eqn:Hm; [|done].
    rewrite (definitionMatch_not_header _ _ Hm) in Hsec, Hat. rewrite Hsec in Hat.
    apply existsb_exists in Hex as (c & Hc%list_elem_of_In & Heq%String.eqb_eq).
    assert (Hv : validConcept c = true).
    { rewrite (candidate_shape _ _ Hc), Heq. by apply validConcept_tokenOf. }
    pose (sec := snd (sectionStateAfter (take i (split_nl text)) false EmptyString)).
    pose (o := mkConcept (slice_1_m1 c) path i (indexOf l c) (Some l) (Some sec)).
    assert (Hin : o ∈ atLine i (extractConceptsFromDefinitions path text)).
    { rewrite Hat. unfold definitionLine. rewrite Htrim, Hm.
      by apply pushCandidates_intro. }
    apply list_elem_of_filter in Hin as [Hline Ho]. by exists o.
  - intros (o & Ho & Hline & Hname).
    assert (Hin : o ∈ atLine i (extractConceptsFromDefinitions path text)).
    { by apply list_elem_of_filter. }
    rewrite Hat in Hin.
    destruct (isSectionHeader l); [by apply elem_of_nil in Hin|].
    destruct (inDefinitionsAfter (take i (split_nl text)));
      [|by apply elem_of_nil in Hin].
    unfold definitionLine in Hin. rewrite Htrim in Hin.
    destruct (definitionMatch l) as [fullMatch|]; [|by apply elem_of_nil in Hin].
    apply pushCandidates_elem in Hin as (c & Hc & _ & ->).
    cbn in Hname. f_equal. cbn [andb]. apply existsb_exists.
    exists c. split; [by apply list_elem_of_In | by apply String.eqb_eq].
Qed.

Lemma isAConceptDefinition_agrees_with_extractor_witness :
  DefinitionProvider.isAConceptDefinition (split_nl twoItemsText) 1 "a"
  = Normal true
  <-> exists o, o ∈ extractConceptsFromDefinitions "/w/x.plain" twoItemsText
                /\ line o = 1 /\ concept o = "a".
Proof.
  apply (isAConceptDefinition_agrees_with_extractor
           "/w/x.plain" twoItemsText 1 "- :a:" "a"); reflexivity.
Defined.

(** X16: the providers match the definition pattern against the line as
    it is, the extractor against the trimmed line: on an indented line
    [isAConceptDefinition] answers [false] for every word, also for the names
    of the definition occurrences the extractor records on that line. *)
Theorem indented_definition_is_not_recognised :
  forall (lines : list string) (i : nat) (l word : string),
    lines !! i = Some l ->
    hasIndentation l = true ->
    DefinitionProvider.isAConceptDefinition lines i word = Normal false.
Proof.
  intros lines i l word Hl Hind.
  rewrite (isAConceptDefinition_spec _ _ _ _ Hl).
  by rewrite (definitionMatch_not_indented _ Hind), andb_false_r.
Qed.

Lemma indented_definition_is_not_recognised_witness :
  glossaryDefinition ∈ extractConceptsFromDefinitions glossaryPath glossaryText
  /\ DefinitionProvider.isAConceptDefinition
       (split_nl glossaryText) (line glossaryDefinition)
       (concept glossaryDefinition)
     = Normal false.
Proof.
  split; [left|].
  apply (indented_definition_is_not_recognised
           (split_nl glossaryText) 1 "  - :a:" "a"); reflexivity.
Defined.

End IsDefinition.

(* ===================================================================== *)
(** ** Front matter *)
(* ===================================================================== *)

Section Frontmatter.
Import Js.

Lemma countDashes_cons l lines :
  countDashes (l :: lines)
  = (if String.eqb (trim l) "---" then 1 else 0) + countDashes lines.
Proof.
  unfold countDashes. destruct (String.eqb (trim l) "---") eqn:E.
  - apply String.eqb_eq in E. by rewrite filter_cons_True.
  - apply String.eqb_neq in E. by rewrite filter_cons_False.
Qed.

Lemma closingLoop_spec rest :
  DefinitionProvider.closingLoop rest = (0 <? countDashes rest).
Proof.
  induction rest as [|l rest IH]; [done|].
  cbn [DefinitionProvider.closingLoop]. rewrite countDashes_cons.
  by destruct (String.eqb (trim l) "---").
Qed.

(** The first loop, started at line [i] after [seen] lines [---], with
    [steps] lines to read: it returns [false] at the second [---], and else
    ends with the flag set exactly when one [---] was read. *)
Lemma openingLoop_spec lines positionLine steps :
  forall i seen inFrontmatter frontmatterStart,
    i + steps = S positionLine ->
    positionLine < length lines ->
    seen <= 1 ->
    inFrontmatter = (seen =? 1) ->
    ((frontmatterStart =? -1)%Z = (seen =? 0)) ->
    let total := seen + countDashes (take steps (drop i lines)) in
    if 2 <=? total
    then DefinitionProvider.openingLoop lines positionLine i steps
           inFrontmatter frontmatterStart
         = Normal (DefinitionProvider.Return false)
    else exists start,
        DefinitionProvider.openingLoop lines positionLine i steps
          inFrontmatter frontmatterStart
        = Normal (DefinitionProvider.Continue (total =? 1, start))
        /\ (start =? -1)%Z = (total =? 0).
Proof.
  induction steps as [|steps IH];
    intros i seen inFrontmatter frontmatterStart Hi Hpos Hseen Hflag Hstart.
  - cbv zeta. cbn [take]. change (countDashes []) with 0. rewrite Nat.add_0_r.
    destruct (2 <=? seen) eqn:E; [apply Nat.leb_le in E; lia|].
    exists frontmatterStart. by rewrite Hflag.
  - cbv zeta. destruct (lookup_lt_is_Some_2 lines i) as [l Hl]; [lia|].
    rewrite (drop_S _ _ _ Hl). cbn [take]. rewrite countDashes_cons.
    cbn [DefinitionProvider.openingLoop]. unfold DefinitionProvider.lineAt.
    rewrite Hl.
    destruct (String.eqb (trim l) "---").
    + rewrite Hstart. destruct seen as [|[|seen]]; [| |lia]; cbn [Nat.eqb].
      * specialize (IH (S i) 1 true (Z.of_nat i)).
        cbn zeta in IH |- *.
        replace (0 + (1 + countDashes (take steps (drop (S i) lines))))
          with (1 + countDashes (take steps (drop (S i) lines))) by lia.
        apply IH; [lia | done | lia | done|].
        cbn. apply Z.eqb_neq. lia.
      * cbn zeta.
        replace (2 <=? 1 + (1 + countDashes (take steps (drop (S i) lines))))
          with true by (symmetry; apply Nat.leb_le; lia).
        replace (positionLine <? i) with false
          by (symmetry; apply Nat.ltb_ge; lia).
        done.
    + specialize (IH (S i) seen inFrontmatter frontmatterStart).
      cbn zeta in IH |- *. cbn [Nat.add]. apply IH; [lia | done..].
Qed.

(** X17: [isInFrontmatter] answers [true] for a position of the document
    exactly when one line [---], and only one, stands at or before the
    position and at least one stands after it; so the opening line itself
    counts as front matter, the closing line does not, and nothing does
    after a second [---]. *)
Theorem isInFrontmatter_counts_dashes :
  forall (lines : list string) (positionLine : nat),
    positionLine < length lines ->
    DefinitionProvider.isInFrontmatter lines positionLine
    = Normal ((countDashes (take (S positionLine) lines) =? 1)
              && (0 <? countDashes (drop (S positionLine) lines))).
Proof.
  intros lines positionLine Hpos. unfold DefinitionProvider.isInFrontmatter.
  pose proof (openingLoop_spec lines positionLine (S positionLine)
                0 0 false (-1)%Z eq_refl Hpos (Nat.le_0_1) eq_refl eq_refl) as H.
  cbn zeta in H. rewrite drop_0, Nat.add_0_l in H.
  destruct (2 <=? countDashes (take (S positionLine) lines)) eqn:E.
  - rewrite H. apply Nat.leb_le in E.
    replace (countDashes (take (S positionLine) lines) =? 1) with false
      by (symmetry; apply Nat.eqb_neq; lia).
    done.
  - destruct H as (start & -> & Hstart). apply Nat.leb_gt in E.
    rewrite Hstart, closingLoop_spec.
    destruct (countDashes (take (S positionLine) lines)) as [|[|n]]; [done..|lia].
Qed.

Lemma isInFrontmatter_counts_dashes_witness :
  DefinitionProvider.isInFrontmatter ["---"; "import:"; "  - base"; "---"; "text"] 2
  = Normal ((countDashes (take 3 ["---"; "import:"; "  - base"; "---"; "text"]) =? 1)
            && (0 <? countDashes (drop 3 ["---"; "import:"; "  - base"; "---"; "text"]))).
Proof.
  apply (isInFrontmatter_counts_dashes
           ["---"; "import:"; "  - base"; "---"; "text"] 2).
  cbn. lia.
Defined.

End Frontmatter.

(* ===================================================================== *)
(** ** Renaming a concept that is defined but not used *)
(* ===================================================================== *)

Section RenameOffered.

(** X18: for a word that is no member of [Object.prototype] and a valid new
    name, [prepareRename] accepts the word while [provideRenameEdits] returns
    [undefined] exactly when the word has definition occurrences and no usage
    occurrence: the rename of a concept that is defined but not used is
    offered and then changes nothing, its definitions included. *)
Theorem rename_offered_but_dropped :
  forall (st : PreprocessingService) (word newName : string),
    objectPrototypeHas word = false ->
    RenameProvider.validName newName = true ->
    (PrepareRename.prepareRename (Some word) (Some st)
     = PrepareRename.Placeholder word
     /\ RenameProvider.provideRenameEdits (Some word) newName (Some st)
        = RenameProvider.Undefined)
    <-> (entriesOf (definedConceptIndex st) word <> []
         /\ entriesOf (usedConceptIndex st) word = []).
Proof.
  intros st word newName Hw Hnew.
  unfold PrepareRename.prepareRename, RenameProvider.provideRenameEdits.
  destruct (find_entries st word Hw) as [-> ->]. rewrite Hnew.
  cbn [negb lengthIsZero].
  destruct (entriesOf (definedConceptIndex st) word) as [|d ds],
           (entriesOf (usedConceptIndex st) word) as [|u us]; cbn;
    split; intros [H1 H2]; try done.
Qed.

Lemma rename_offered_but_dropped_witness :
  let st := mkService {[ "a" := [glossaryDefinition] ]} ∅ false in
  (PrepareRename.prepareRename (Some "a") (Some st)
   = PrepareRename.Placeholder "a"
   /\ RenameProvider.provideRenameEdits (Some "a") "b" (Some st)
      = RenameProvider.Undefined)
  <-> (entriesOf (definedConceptIndex st) "a" <> []
       /\ entriesOf (usedConceptIndex st) "a" = []).
Proof.
  apply (rename_offered_but_dropped
           (mkService {[ "a" := [glossaryDefinition] ]} ∅ false) "a" "b");
    reflexivity.
Defined.

End RenameOffered.

(* ===================================================================== *)
(** ** References to files *)
(* ===================================================================== *)

Section FileReferences.

Variable pathDirname : string -> string.
Variable pathJoin : string -> string -> string.
Variable existsSync : string -> bool.
Variable searchPaths : list string.
Variable fileExtension : string.

Lemma searchLoop_find currentDir targetFileName paths :
  DefinitionProvider.searchLoop pathJoin existsSync currentDir targetFileName paths
  = List.find existsSync
      (map (fun searchPath =>
              pathJoin (pathJoin currentDir searchPath) targetFileName) paths).
Proof.
  induction paths as [|p ps IH]; [done|].
  cbn [DefinitionProvider.searchLoop map List.find].
  by destruct (existsSync _).
Qed.

Lemma findPlainFile_find fsPath identifier :
  DefinitionProvider.findPlainFile
    pathDirname pathJoin existsSync searchPaths fileExtension fsPath identifier
  = List.find existsSync
      (searchCandidates pathDirname pathJoin searchPaths fileExtension
                        fsPath identifier).
Proof.
  unfold DefinitionProvider.findPlainFile, searchCandidates.
  cbn [List.find]. by rewrite searchLoop_find.
Qed.

(** X19: when [provideDefinition] answers with the location of a file, the
    position lies in the front matter under an [import] or [requires] key,
    the word is an identifier, and the location is line 0, column 0 of the
    first path that exists among the candidates, tried in order: the
    directory of the document, then each search path below it. *)
Theorem file_location_is_first_existing_candidate :
  forall (fsPath : string) (lines : list string) (positionLine : nat)
         (word : string) (service : option PreprocessingService)
         (loc : DefinitionProvider.Location),
    DefinitionProvider.provideDefinition
      pathDirname pathJoin existsSync searchPaths fileExtension
      fsPath lines positionLine (Some word) service
    = DefinitionProvider.FileLocation loc ->
    DefinitionProvider.isInFrontmatter lines positionLine = Normal true
    /\ DefinitionProvider.isInImportOrRequires lines positionLine = Normal true
    /\ DefinitionProvider.isPlainFileReference word = true
    /\ List.find existsSync
         (searchCandidates pathDirname pathJoin searchPaths fileExtension
                           fsPath word)
       = Some (DefinitionProvider.locationPath loc)
    /\ existsSync (DefinitionProvider.locationPath loc) = true
    /\ DefinitionProvider.locationLine loc = 0
    /\ DefinitionProvider.locationCharacter loc = 0%Z.
Proof.
  intros fsPath lines positionLine word service loc.
  assert (Hlookup :
    DefinitionProvider.fileLookup
      pathDirname pathJoin existsSync searchPaths fileExtension
      fsPath lines positionLine word
    = DefinitionProvider.FileLocation loc ->
    DefinitionProvider.isInFrontmatter lines positionLine = Normal true
    /\ DefinitionProvider.isInImportOrRequires lines positionLine = Normal true
    /\ DefinitionProvider.isPlainFileReference word = true
    /\ List.find existsSync
         (searchCandidates pathDirname pathJoin searchPaths fileExtension
                           fsPath word)
       = Some (DefinitionProvider.locationPath loc)
    /\ existsSync (DefinitionProvider.locationPath loc) = true
    /\ DefinitionProvider.locationLine loc = 0
    /\ DefinitionProvider.locationCharacter loc = 0%Z).
  { unfold DefinitionProvider.fileLookup. rewrite findPlainFile_find.
    destruct (DefinitionProvider.isInFrontmatter lines positionLine)
      as [[]|]; [|done..].
    destruct (DefinitionProvider.isInImportOrRequires lines positionLine)
      as [[]|]; [|done..].
    destruct (DefinitionProvider.isPlainFileReference word); [|done].
    cbn [negb].
    destruct (List.find existsSync _) as [p|] eqn:Hfind; [|done].
    intros [= <-]. cbn. repeat split.
    by apply List.find_some in Hfind as [_ ?]. }
  unfold DefinitionProvider.provideDefinition.
  destruct service as [st|]; [|exact Hlookup].
  destruct (DefinitionProvider.isAConceptDefinition lines positionLine word)
    as [isDefinition|]; [|done].
  destruct (DefinitionProvider.lengthIsPositive _); [|exact Hlookup].
  by destruct (if isDefinition then _ else _).
Qed.

End FileReferences.

Lemma file_location_is_first_existing_candidate_witness :
  let lines := ["---"; "import:"; "  - base"; "---"; "text"] in
  let existsSync := String.eqb "/w/template/base.plain" in
  let loc := DefinitionProvider.mkLocation "/w/template/base.plain" 0 0 in
  DefinitionProvider.isInFrontmatter lines 2 = Normal true
  /\ DefinitionProvider.isInImportOrRequires lines 2 = Normal true
  /\ DefinitionProvider.isPlainFileReference "base" = true
  /\ List.find existsSync
       (searchCandidates (fun _ => "/w") posixJoin ["template"; "templates"]
                         ".plain" "/w/doc.plain" "base")
     = Some (DefinitionProvider.locationPath loc)
  /\ existsSync (DefinitionProvider.locationPath loc) = true
  /\ DefinitionProvider.locationLine loc = 0
  /\ DefinitionProvider.locationCharacter loc = 0%Z.
Proof.
  apply (file_location_is_first_existing_candidate
           (fun _ => "/w") posixJoin (String.eqb "/w/template/base.plain")
           ["template"; "templates"] ".plain"
           "/w/doc.plain" ["---"; "import:"; "  - base"; "---"; "text"] 2
           "base" (Some emptyService)).
  reflexivity.
Defined.
